(** * A replicated, chunked object store: the storage and recovery engine

    Shallow embedding of [dfs_web_interface.py] (classes [Node] and [DFS],
    and the upload and download routes that use them) and the properties
    of its upload, download, failure, recovery, monitoring and status
    operations.

    Conventions of the embedding:
    - a Python [str] is a [string] (the bytes of its UTF-8 encoding, so that
      [filename.encode()] is the identity on the underlying bytes);
    - a Python [bytes] value is a [list byte];
    - [Node.storage], a dict that is only read by key and by [len], is a
      [gmap string (list byte)];
    - dicts whose iteration order the code observes ([DFS.metadata] and the
      local [chunks] of [download_file]) are association lists in insertion
      order ([odict]);
    - a Python reference to a [Node] object is its position in [DFS.nodes];
    - an exception is the [Raise] outcome of the [result] type;
    - a loop that may run for ever (the list iteration of [recover_data],
      whose list grows while it is iterated) takes fuel. *)

From Stdlib Require Import NArith ZArith Ascii String DecimalString DecimalNat Lia.
From Stdlib Require Init.Byte.
From stdpp Require Import base option list gmap strings sorting.

Local Open Scope string_scope.
Local Open Scope list_scope.

(* ================================================================= *)
(** ** SHA-256, as [hashlib.sha256(...).hexdigest()] computes it (FIPS 180-4) *)

Module Sha256.

Local Open Scope N_scope.

Definition w32 (x : N) : N := x mod 4294967296.
Definition add32 (x y : N) : N := w32 (x + y).
Definition rotr (n x : N) : N := N.lor (N.shiftr x n) (w32 (N.shiftl x (32 - n))).
Definition not32 (x : N) : N := N.lxor x 4294967295.

Definition Ch (x y z : N) : N := N.lxor (N.land x y) (N.land (not32 x) z).
Definition Maj (x y z : N) : N :=
  N.lxor (N.lxor (N.land x y) (N.land x z)) (N.land y z).
Definition Sigma0 (x : N) : N := N.lxor (N.lxor (rotr 2 x) (rotr 13 x)) (rotr 22 x).
Definition Sigma1 (x : N) : N := N.lxor (N.lxor (rotr 6 x) (rotr 11 x)) (rotr 25 x).
Definition sigma0 (x : N) : N := N.lxor (N.lxor (rotr 7 x) (rotr 18 x)) (N.shiftr x 3).
Definition sigma1 (x : N) : N := N.lxor (N.lxor (rotr 17 x) (rotr 19 x)) (N.shiftr x 10).

(** The primes among [n], [n+1], ..., [fuel] candidates, by trial division. *)
Fixpoint primes_from (fuel : nat) (n : N) (found : list N) : list N :=
  match fuel with
  | O => rev found
  | S fuel' =>
      if forallb (fun p => negb (n mod p =? 0)) found
      then primes_from fuel' (n + 1) (n :: found)
      else primes_from fuel' (n + 1) found
  end.

(** The first 64 primes: 2, 3, 5, ..., 311. *)
Definition primes64 : list N := primes_from 310 2 [].

(** The integer cube root, bit by bit from bit [bits - 1] down. *)
Fixpoint icbrt_bits (bits : nat) (x r : N) : N :=
  match bits with
  | O => r
  | S bits' =>
      let r' := r + N.shiftl 1 (N.of_nat bits') in
      if r' * r' * r' <=? x then icbrt_bits bits' x r' else icbrt_bits bits' x r
  end.

(** The round constants: the first 32 bits of the fractional parts of the
    cube roots of the first 64 primes. *)
Definition K : list N :=
  map (fun p => w32 (icbrt_bits 40 (N.shiftl p 96) 0)) primes64.

(** The initial hash value: the first 32 bits of the fractional parts of
    the square roots of the first 8 primes. *)
Definition H0 : list N :=
  map (fun p => w32 (N.sqrt (N.shiftl p 64))) (firstn 8 primes64).

(** Big-endian bytes of [x], [n] of them. *)
Fixpoint be_bytes (n : nat) (x : N) : list N :=
  match n with
  | O => []
  | S n' => be_bytes n' (N.shiftr x 8) ++ [x mod 256]
  end.

(** The message, the byte 0x80, zero bytes up to 56 modulo 64, and the bit
    length on 8 bytes. *)
Definition pad (msg : list N) : list N :=
  let len := N.of_nat (length msg) in
  let zeros := N.to_nat ((119 - len mod 64) mod 64) in
  msg ++ [128] ++ repeat 0 zeros ++ be_bytes 8 (8 * len).

Fixpoint words_of_bytes (fuel : nat) (bs : list N) : list N :=
  match fuel, bs with
  | S fuel', b0 :: b1 :: b2 :: b3 :: rest =>
      (N.shiftl b0 24 + N.shiftl b1 16 + N.shiftl b2 8 + b3)
        :: words_of_bytes fuel' rest
  | _, _ => []
  end.

(** The message schedule, most recent word first: [rw] holds W[t-1], W[t-2], ... *)
Fixpoint schedule (n : nat) (rw : list N) : list N :=
  match n with
  | O => rw
  | S n' =>
      let w := add32 (add32 (sigma1 (nth 1 rw 0)) (nth 6 rw 0))
                     (add32 (sigma0 (nth 14 rw 0)) (nth 15 rw 0)) in
      schedule n' (w :: rw)
  end.

Definition round (st : list N) (kw : N * N) : list N :=
  match st with
  | [a; b; c; d; e; f; g; h] =>
      let t1 := add32 (add32 (add32 h (Sigma1 e)) (add32 (Ch e f g) (fst kw))) (snd kw) in
      let t2 := add32 (Sigma0 a) (Maj a b c) in
      [add32 t1 t2; a; b; c; add32 d t1; e; f; g]
  | _ => st
  end.

Definition compress (h : list N) (block : list N) : list N :=
  let w := rev (schedule 48 (rev block)) in
  let st := fold_left round (combine K w) h in
  map (fun p => add32 (fst p) (snd p)) (combine h st).

Fixpoint blocks (fuel : nat) (ws : list N) : list (list N) :=
  match fuel, ws with
  | S fuel', _ :: _ => firstn 16 ws :: blocks fuel' (skipn 16 ws)
  | _, _ => []
  end.

Definition digest (msg : list N) : list N :=
  let bs := pad msg in
  let ws := words_of_bytes (length bs) bs in
  fold_left compress (blocks (length ws) ws) H0.

Definition hex_digit (d : N) : ascii :=
  match d with
  | 0 => "0" | 1 => "1" | 2 => "2" | 3 => "3" | 4 => "4" | 5 => "5"
  | 6 => "6" | 7 => "7" | 8 => "8" | 9 => "9" | 10 => "a" | 11 => "b"
  | 12 => "c" | 13 => "d" | 14 => "e" | _ => "f"
  end%char.

Definition hex_word (w : N) : list ascii :=
  map (fun i => hex_digit (N.shiftr w (4 * i) mod 16)) [7; 6; 5; 4; 3; 2; 1; 0].

Definition bytes_of_str (s : string) : list N :=
  map N_of_ascii (list_ascii_of_string s).

(** [hashlib.sha256(s.encode()).hexdigest()] *)
Definition hexdigest (s : string) : string :=
  string_of_list_ascii (concat (map hex_word (digest (bytes_of_str s)))).

End Sha256.

(* ================================================================= *)
(** ** Python values: exceptions, bytes, ordered dicts, strings, sorting *)

Inductive exn : Type := ValueError | IndexError.

Inductive result (A : Type) : Type :=
| Ok (a : A)
| Raise (e : exn).
Arguments Ok {A} a.
Arguments Raise {A} e.

Definition rbind {A B : Type} (m : result A) (k : A -> result B) : result B :=
  match m with
  | Ok a => k a
  | Raise e => Raise e
  end.

Notation "x <-! m ; k" := (rbind m (fun x => k))
  (at level 100, m at next level, right associativity).

Fixpoint rmapM {A B : Type} (f : A -> result B) (l : list A) : result (list B) :=
  match l with
  | [] => Ok []
  | x :: l' => y <-! f x; ys <-! rmapM f l'; Ok (y :: ys)
  end.

Abbreviation bytes := (list Byte.byte).

Module Py.

(** [bool(b)] for a bytes value: false exactly for the empty one. *)
Definition truthy (b : bytes) : bool :=
  match b with
  | [] => false
  | _ :: _ => true
  end.

(** *** Insertion-ordered dict with [str] keys *)

Definition odict (V : Type) : Type := list (string * V).

(** [d.get(k)] *)
Fixpoint od_get {V : Type} (d : odict V) (k : string) : option V :=
  match d with
  | [] => None
  | (k', v) :: d' => if String.eqb k' k then Some v else od_get d' k
  end.

(** [d[k] = v]: an existing key keeps its position, a new key goes last. *)
Fixpoint od_set {V : Type} (d : odict V) (k : string) (v : V) : odict V :=
  match d with
  | [] => [(k, v)]
  | (k', v') :: d' =>
      if String.eqb k' k then (k', v) :: d' else (k', v') :: od_set d' k v
  end.

(** *** [str(i)] and [int(s)] *)

(** [str(i)] (also [f"{i}"]) for [i >= 0]. *)
Definition str (i : nat) : string := NilZero.string_of_uint (Nat.to_uint i).

(** Whitespace that [int] strips: 0x09-0x0d and 0x20. (The separators
    0x1c-0x1f, which [str.strip] takes, are no whitespace for [int].) *)
Definition is_space (c : ascii) : bool :=
  let n := nat_of_ascii c in
  ((9 <=? n) && (n <=? 13))%nat || (n =? 32)%nat.

Definition digit_val (c : ascii) : option nat :=
  let n := nat_of_ascii c in
  if ((48 <=? n) && (n <=? 57))%nat then Some (n - 48) else None.

Fixpoint lstrip (cs : list ascii) : list ascii :=
  match cs with
  | c :: cs' => if is_space c then lstrip cs' else cs
  | [] => []
  end.

Definition strip (cs : list ascii) : list ascii := rev (lstrip (rev (lstrip cs))).

(** Decimal digits, single underscores allowed between two digits.
    [prev] tells whether the previous character was a digit. *)
Fixpoint parse_digits (acc : nat) (prev : bool) (cs : list ascii) : option nat :=
  match cs with
  | [] => if prev then Some acc else None
  | c :: cs' =>
      if Ascii.eqb c "_"
      then (if prev then parse_digits acc false cs' else None)
      else match digit_val c with
           | Some d => parse_digits (10 * acc + d) true cs'
           | None => None
           end
  end.

(** [int(s)] in base 10, for a [str] of ASCII characters: surrounding
    whitespace, an optional sign, digits. The spaces and decimal digits
    outside ASCII, which Python takes as well, are not modelled: a string
    with such a character gets [ValueError] here. The chunk ids that
    [upload_file] makes are ASCII. *)
Definition int (s : string) : result Z :=
  let cs := strip (list_ascii_of_string s) in
  let '(neg, ds) :=
    match cs with
    | c :: cs' =>
        if Ascii.eqb c "-" then (true, cs')
        else if Ascii.eqb c "+" then (false, cs') else (false, cs)
    | [] => (false, cs)
    end in
  match parse_digits 0 false ds with
  | Some n => Ok (if neg : bool then (- Z.of_nat n)%Z else Z.of_nat n)
  | None => Raise ValueError
  end.

(** *** [s.split(sep)] for a non-empty separator *)

Fixpoint str_drop (n : nat) (s : string) : string :=
  match n, s with
  | S n', String _ s' => str_drop n' s'
  | _, _ => s
  end.

Fixpoint str_take (n : nat) (s : string) : string :=
  match n, s with
  | S n', String c s' => String c (str_take n' s')
  | _, _ => EmptyString
  end.

(** [s.find(sep)]: position of the leftmost occurrence. *)
Fixpoint find (sep s : string) : option nat :=
  if String.prefix sep s then Some 0
  else match s with
       | EmptyString => None
       | String _ s' => S <$> find sep s'
       end.

Fixpoint split_fuel (fuel : nat) (sep s : string) : list string :=
  match fuel with
  | O => [s]
  | S fuel' =>
      match find sep s with
      | None => [s]
      | Some k =>
          str_take k s :: split_fuel fuel' sep (str_drop (k + String.length sep) s)
      end
  end.

(** [s.split(sep)]; every cut removes at least one character, so
    [String.length s] cuts are enough. *)
Definition split (s sep : string) : list string :=
  split_fuel (String.length s) sep s.

(** [l[i]] for [i >= 0]. *)
Definition index {A : Type} (l : list A) (i : nat) : result A :=
  match l !! i with
  | Some x => Ok x
  | None => Raise IndexError
  end.

(** *** [sorted(l, key=...)]: stable, by ascending key *)

Fixpoint insert_by {A : Type} (key : A -> Z) (x : A) (l : list A) : list A :=
  match l with
  | [] => [x]
  | y :: l' => if (key x <=? key y)%Z then x :: l else y :: insert_by key x l'
  end.

Definition sorted {A : Type} (key : A -> Z) (l : list A) : list A :=
  foldr (insert_by key) [] l.

(** *** [range(start, stop, step)] for [step >= 0], and slices *)

Definition range (start stop step : nat) : result (list nat) :=
  if (step =? 0)%nat then Raise ValueError
  else Ok (map (fun k => start + k * step) (seq 0 ((stop - start + (step - 1)) / step))).

(** [b[i:j]] for [0 <= i <= j]. *)
Definition slice (b : bytes) (i j : nat) : bytes := take (j - i) (drop i b).

(** [b''.join(l)] *)
Definition join (l : list bytes) : bytes := concat l.

End Py.

Import Py.

(* ================================================================= *)
(** ** class Node *)

Record Node : Type := mkNode {
  node_id : nat;
  capacity : nat;
  storage : gmap string bytes;   (* {chunk_id: data} *)
  active : bool
}.

(** [Node(node_id)], with the default [capacity=100]. *)
Definition Node_init (node_id : nat) : Node := mkNode node_id 100 ∅ true.

Definition store_chunk (self : Node) (chunk_id : string) (data : bytes) : bool * Node :=
  if (size (storage self) <? capacity self)%nat && active self
  then (true, mkNode (node_id self) (capacity self)
                     (<[chunk_id := data]> (storage self)) (active self))
  else (false, self).

Definition retrieve_chunk (self : Node) (chunk_id : string) : option bytes :=
  if active self then storage self !! chunk_id else None.

Definition fail (self : Node) : Node :=
  mkNode (node_id self) (capacity self) (storage self) false.

(* ================================================================= *)
(** ** class DFS *)

(** A replica record of the metadata: [(node_id, chunk_id)]. *)
Abbreviation replica := (nat * string)%type.

Record DFS : Type := mkDFS {
  nodes : list Node;
  replication_factor : nat;
  metadata : odict (list replica);   (* defaultdict(list): {file_hash: [(node_id, chunk_id)]} *)
  chunk_size : nat
}.

(** [DFS(num_nodes, replication_factor)]; the program runs [DFS()], that is
    [DFS_init 5 2]. *)
Definition DFS_init (num_nodes replication_factor : nat) : DFS :=
  mkDFS (map Node_init (seq 0 num_nodes)) replication_factor [] 1024.

(** [self.metadata[file_hash]] read on the defaultdict. *)
Definition records (self : DFS) (file_hash : string) : list replica :=
  default [] (od_get (metadata self) file_hash).

(** [self.metadata[file_hash].append(rec)] *)
Definition metadata_append (self : DFS) (file_hash : string) (rec : replica) : DFS :=
  mkDFS (nodes self) (replication_factor self)
        (od_set (metadata self) file_hash (records self file_hash ++ [rec]))
        (chunk_size self).

(** The node object at position [r] of [self.nodes] after a mutation. *)
Definition set_node (self : DFS) (r : nat) (node : Node) : DFS :=
  mkDFS (<[r := node]> (nodes self)) (replication_factor self)
        (metadata self) (chunk_size self).

Fixpoint enumerate_from {A : Type} (i : nat) (l : list A) : list (nat * A) :=
  match l with
  | [] => []
  | x :: l' => (i, x) :: enumerate_from (S i) l'
  end.

(** [enumerate(l)] *)
Definition enumerate {A : Type} (l : list A) : list (nat * A) := enumerate_from 0 l.

(** [f"{file_hash}_chunk_{i}"] *)
Definition chunk_id_of (file_hash : string) (i : nat) : string :=
  file_hash +:+ "_chunk_" +:+ str i.

(** [len(x.storage)], the sort key of a node. *)
Definition load (x : Node) : Z := Z.of_nat (size (storage x)).

(** [sorted(self.nodes, key=lambda x: len(x.storage))], as references. *)
Definition nodes_by_load (self : DFS) : list nat :=
  map fst (sorted (fun p => load (snd p)) (enumerate (nodes self))).

(** The inner loop of [upload_file] over the sorted nodes. *)
Fixpoint place_replicas (self : DFS) (order : list nat) (file_hash chunk_id : string)
    (chunk : bytes) (replicas_placed : nat) : DFS :=
  match order with
  | [] => self
  | r :: order' =>
      match nodes self !! r with
      | None => place_replicas self order' file_hash chunk_id chunk replicas_placed
      | Some node =>
          let '(ok, node') := store_chunk node chunk_id chunk in
          if ok : bool then
            let self' := metadata_append (set_node self r node') file_hash
                                         (node_id node', chunk_id) in
            if (S replicas_placed =? replication_factor self)%nat then self'
            else place_replicas self' order' file_hash chunk_id chunk (S replicas_placed)
          else place_replicas self order' file_hash chunk_id chunk replicas_placed
      end
  end.

(** The body of the loop over [enumerate(chunks)]. *)
Definition place_chunk (self : DFS) (file_hash : string) (ic : nat * bytes) : DFS :=
  place_replicas self (nodes_by_load self) file_hash
                 (chunk_id_of file_hash (fst ic)) (snd ic) 0.

(** [[content[i:i+chunk_size] for i in range(0, len(content), chunk_size)]] *)
Definition split_content (content : bytes) (chunk_size : nat) : result (list bytes) :=
  starts <-! range 0 (length content) chunk_size;
  Ok (map (fun i => slice content i (i + chunk_size)) starts).

Definition upload_file (self : DFS) (filename : string) (content : bytes)
  : result (string * DFS) :=
  let file_hash := Sha256.hexdigest filename in
  chunks <-! split_content content (chunk_size self);
  Ok (file_hash, fold_left (fun s ic => place_chunk s file_hash ic) (enumerate chunks) self).

(** The loop of [download_file] over the records of the file. *)
Fixpoint fetch_chunks (self : DFS) (recs : list replica) (chunks : odict bytes)
  : result (odict bytes) :=
  match recs with
  | [] => Ok chunks
  | (node_id, chunk_id) :: recs' =>
      node <-! index (nodes self) node_id;
      match retrieve_chunk node chunk_id with
      | Some chunk_data =>
          if truthy chunk_data
          then fetch_chunks self recs' (od_set chunks chunk_id chunk_data)
          else fetch_chunks self recs' chunks
      | None => fetch_chunks self recs' chunks
      end
  end.

(** [int(x[0].split('_chunk_')[1])] *)
Definition chunk_seq (chunk_id : string) : result Z :=
  part <-! index (split chunk_id "_chunk_") 1;
  int part.

Definition download_file (self : DFS) (file_hash : string) : result (option bytes) :=
  match od_get (metadata self) file_hash with
  | None => Ok None
  | Some recs =>
      chunks <-! fetch_chunks self recs [];
      match chunks with
      | [] => Ok None
      | _ :: _ =>
          keyed <-! rmapM (fun x => k <-! chunk_seq (fst x); Ok (k, x)) chunks;
          Ok (Some (join (map (fun kx => snd (snd kx)) (sorted fst keyed))))
      end
  end.

(** [node.fail()] on the node at position [r] of [self.nodes]. *)
Definition fail_node (self : DFS) (r : nat) : DFS :=
  match nodes self !! r with
  | Some node => set_node self r (fail node)
  | None => self
  end.

(* ================================================================= *)
(** ** DFS.recover_data

    The mutations of the metadata are logged as events, to state in which
    order they happen. The iteration [for node_id, cid in
    self.metadata[file_hash]] runs over the very list that the body appends
    to, so it also visits the records appended meanwhile: the scan is by
    position in the current list, and takes fuel. *)

Inductive event : Type :=
| EvAppend (file_hash : string) (rec : replica)       (* metadata[file_hash].append(rec) *)
| EvRemove (file_hash : string) (failed_node_id : nat). (* the records of the node are filtered out *)

Inductive outcome : Type :=
| Done (self : DFS)             (* the loop ended, in this state *)
| Raised (e : exn) (self : DFS) (* an exception left the loop *)
| OutOfFuel (self : DFS).       (* still running, in this state *)

(** [[(file_hash, chunk_id) for file_hash, chunks in self.metadata.items()
      for node_id, chunk_id in chunks if node_id == failed_node_id]] *)
Definition affected_chunks (self : DFS) (failed_node_id : nat) : list (string * string) :=
  flat_map (fun item : string * list replica =>
              map (fun rec : replica => (fst item, snd rec))
                  (filter (fun rec : replica => fst rec = failed_node_id) (snd item)))
           (metadata self).

(** [for new_node in self.nodes]: the first node that is active, is not the
    source and accepts the chunk; [r] is the position of the head of [ns]. *)
Fixpoint replicate_to (ns : list Node) (r : nat) (source_id : nat)
    (chunk_id : string) (chunk_data : bytes) : option (nat * Node) :=
  match ns with
  | [] => None
  | new_node :: ns' =>
      if active new_node && negb (node_id new_node =? source_id)%nat then
        let '(ok, new_node') := store_chunk new_node chunk_id chunk_data in
        if ok : bool then Some (r, new_node')
        else replicate_to ns' (S r) source_id chunk_id chunk_data
      else replicate_to ns' (S r) source_id chunk_id chunk_data
  end.

(** The body of the loop over the records of the file, for one record
    [(node_id, cid)], whose [node_id] is called [source_id] here. *)
Definition scan_body (self : DFS) (failed_node_id : nat) (file_hash chunk_id : string)
    (rec : replica) : result (DFS * list event) :=
  let '(source_id, cid) := rec in
  if String.eqb cid chunk_id && negb (source_id =? failed_node_id)%nat then
    source <-! index (nodes self) source_id;
    match retrieve_chunk source chunk_id with
    | Some chunk_data =>
        if truthy chunk_data then
          match replicate_to (nodes self) 0 source_id chunk_id chunk_data with
          | Some (r, new_node) =>
              Ok (metadata_append (set_node self r new_node) file_hash
                                  (node_id new_node, chunk_id),
                  [EvAppend file_hash (node_id new_node, chunk_id)])
          | None => Ok (self, [])
          end
        else Ok (self, [])
    | None => Ok (self, [])
    end
  else Ok (self, []).

(** The list iterator: position [i] in the current [self.metadata[file_hash]]. *)
Fixpoint scan_records (fuel : nat) (self : DFS) (failed_node_id : nat)
    (file_hash chunk_id : string) (i : nat) : list event * outcome :=
  match fuel with
  | O => ([], OutOfFuel self)
  | S fuel' =>
      match records self file_hash !! i with
      | None => ([], Done self)
      | Some rec =>
          match scan_body self failed_node_id file_hash chunk_id rec with
          | Raise e => ([], Raised e self)
          | Ok (self', evs) =>
              let '(evs', out) :=
                scan_records fuel' self' failed_node_id file_hash chunk_id (S i) in
              (evs ++ evs', out)
          end
      end
  end.

(** [self.metadata[file_hash] = [(nid, cid) for nid, cid in
     self.metadata[file_hash] if nid != failed_node_id]] *)
Definition remove_stale (self : DFS) (file_hash : string) (failed_node_id : nat) : DFS :=
  mkDFS (nodes self) (replication_factor self)
        (od_set (metadata self) file_hash
                (filter (fun rec : replica => fst rec <> failed_node_id)
                        (records self file_hash)))
        (chunk_size self).

(** The body of the loop over [affected_chunks]. *)
Definition recover_chunk (fuel : nat) (self : DFS) (failed_node_id : nat)
    (fc : string * string) : list event * outcome :=
  match scan_records fuel self failed_node_id (fst fc) (snd fc) 0 with
  | (evs, Done self') =>
      (evs ++ [EvRemove (fst fc) failed_node_id],
       Done (remove_stale self' (fst fc) failed_node_id))
  | other => other
  end.

Fixpoint recover_loop (fuel : nat) (self : DFS) (failed_node_id : nat)
    (affected : list (string * string)) : list event * outcome :=
  match affected with
  | [] => ([], Done self)
  | fc :: affected' =>
      match recover_chunk fuel self failed_node_id fc with
      | (evs, Done self') =>
          let '(evs', out) := recover_loop fuel self' failed_node_id affected' in
          (evs ++ evs', out)
      | other => other
      end
  end.

(** [recover_data(failed_node_id)], each scan with [fuel] steps at most. *)
Definition recover_data (fuel : nat) (self : DFS) (failed_node_id : nat)
  : list event * outcome :=
  recover_loop fuel self failed_node_id (affected_chunks self failed_node_id).

(* ================================================================= *)
(** ** Reachable states

    One completed operation is a [step]; [download_file] reads the state
    and does not change it, so it is no step. The reachable states are those
    that any sequence of operations leads to from a new [DFS]. *)

Inductive step : DFS -> DFS -> Prop :=
| step_upload self filename content file_hash self' :
    upload_file self filename content = Ok (file_hash, self') ->
    step self self'
| step_fail self r :
    step self (fail_node self r)
| step_recover self fuel failed_node_id evs self' :
    recover_data fuel self failed_node_id = (evs, Done self') ->
    step self self'.

Inductive reachable : DFS -> Prop :=
| reach_init num_nodes rf :
    reachable (DFS_init num_nodes rf)
| reach_step self self' :
    reachable self -> step self self' -> reachable self'.

(* ================================================================= *)
(** ** Predicates used to state the properties *)

Definition is_digit (c : ascii) : bool :=
  match digit_val c with Some _ => true | None => false end.

Definition not_underscore (c : ascii) : bool := negb (Ascii.eqb c "_").

(** Every character of [s] satisfies [p]. *)
Fixpoint str_all (p : ascii -> bool) (s : string) : bool :=
  match s with
  | EmptyString => true
  | String c s' => p c && str_all p s'
  end.

(** Ascending key, ties by position: the order a stable sort by [key]
    gives to a list that was in ascending [pos] order. *)
Definition key_pos_le {A : Type} (key : A -> Z) (pos : A -> nat) (a b : A) : Prop :=
  (key a < key b)%Z \/ (key a = key b /\ pos a <= pos b).

(** Node ids are the positions in [self.nodes], as [DFS.__init__] sets them. *)
Definition nodes_indexed (self : DFS) : Prop :=
  forall r node, nodes self !! r = Some node -> node_id node = r.

(** The node holds no more chunks than its capacity. *)
Definition within_capacity (x : Node) : Prop := size (storage x) <= capacity x.

Definition capacity_ok (self : DFS) : Prop := Forall within_capacity (nodes self).

(** What an operation may do to a node: its id and capacity stay, it is
    never reactivated, its storage changes only if it was active, and it
    stays within its capacity. *)
Definition node_evolves (x x' : Node) : Prop :=
  node_id x' = node_id x /\ capacity x' = capacity x
  /\ (active x' = true -> active x = true)
  /\ (storage x' = storage x \/ active x = true)
  /\ (within_capacity x -> within_capacity x').

Definition evolves (self self' : DFS) : Prop :=
  chunk_size self' = chunk_size self
  /\ replication_factor self' = replication_factor self
  /\ Forall2 node_evolves (nodes self) (nodes self').

(** The free room of a node: what it can still accept. *)
Definition room (x : Node) : nat :=
  if active x then capacity x - size (storage x) else 0.

(** The free room of the active nodes together. *)
Definition free (self : DFS) : nat := sum_list (map room (nodes self)).

(** The number of chunks [upload_file] splits [len] bytes into. *)
Definition chunk_count (len chunk_size : nat) : nat :=
  (len + (chunk_size - 1)) / chunk_size.

(** The node [x] after a successful [store_chunk]. *)
Definition stored (chunk_id : string) (chunk : bytes) (x : Node) : Node :=
  mkNode (node_id x) (capacity x) (<[chunk_id := chunk]> (storage x)) (active x).

(** The node at position [r] is active and holds [chunk] under [chunk_id]. *)
Definition holds (self : DFS) (chunk_id : string) (chunk : bytes) (r : nat) : Prop :=
  exists x, nodes self !! r = Some x /\ active x = true
            /\ storage x !! chunk_id = Some chunk.

(** The records [recs] are one non-empty block of records per item
    [(i, chunk)], in the order of the items, and every record of the block
    names a node that holds the chunk under the id of index [i]. *)
Inductive covers (self : DFS) (file_hash : string)
  : list (nat * bytes) -> list replica -> Prop :=
| covers_nil : covers self file_hash [] []
| covers_snoc items recs i chunk ids :
    covers self file_hash items recs ->
    ids <> [] ->
    (forall r, r ∈ ids -> holds self (chunk_id_of file_hash i) chunk r) ->
    covers self file_hash (items ++ [(i, chunk)])
           (recs ++ map (fun r => (r, chunk_id_of file_hash i)) ids).

(** The dict [chunks] that [download_file] builds from such records. *)
Definition chunk_items (file_hash : string) (items : list (nat * bytes)) : odict bytes :=
  map (fun ic : nat * bytes => (chunk_id_of file_hash (fst ic), snd ic)) items.

(** [chunk_id] is a chunk id of the file [file_hash]. *)
Definition chunk_of (file_hash chunk_id : string) : Prop :=
  exists i, chunk_id = chunk_id_of file_hash i.

(** Every key of the metadata is free of underscores (it is a hex digest),
    and every record under it names a position of [self.nodes] and a chunk
    id of that file. *)
Definition metadata_wf (self : DFS) : Prop :=
  forall file_hash recs, (file_hash, recs) ∈ metadata self ->
    str_all not_underscore file_hash = true
    /\ forall nid cid, (nid, cid) ∈ recs ->
         nid < length (nodes self) /\ chunk_of file_hash cid.

(** The replica a record names answers a retrieve with data that is not
    empty. *)
Definition responsive (self : DFS) (rec : replica) : bool :=
  match nodes self !! fst rec with
  | Some x =>
      match retrieve_chunk x (snd rec) with
      | Some data => truthy data
      | None => false
      end
  | None => false
  end.

(** [data] is what some record of [recs] for [chunk_id] retrieves, and it
    is not empty. *)
Definition retrieved (self : DFS) (recs : list replica) (chunk_id : string)
    (data : bytes) : Prop :=
  exists nid x, (nid, chunk_id) ∈ recs /\ nodes self !! nid = Some x
    /\ retrieve_chunk x chunk_id = Some data /\ truthy data = true.

(** The state an outcome of [recover_data] carries. *)
Definition outcome_state (out : outcome) : DFS :=
  match out with
  | Done self | Raised _ self | OutOfFuel self => self
  end.

(** The state after [upload_file] (the same state if it raises). *)
Definition after_upload (self : DFS) (filename : string) (content : bytes) : DFS :=
  match upload_file self filename content with
  | Ok (_, self') => self'
  | Raise _ => self
  end.

(** The file id [upload_file] computes for a file name. *)
Definition file_id (filename : string) : string := Sha256.hexdigest filename.

(** [n] bytes of content, all equal to the letter a. *)
Definition content_of_size (n : nat) : bytes := repeat Byte.x61 n.

(* ================================================================= *)
(** ** The placement policy as the specification words it

    A second definition of the upload, written from the specification text
    (section 4.2), to be compared with [upload_file]: the nodes are ranked by
    ascending chunk count, ties by node id; stores are attempted from the
    front until [replication_factor] of them succeeded or no node is left;
    and the ranking is made anew for every chunk. *)

(** [x] ranks no later than [y]. *)
Definition rank_le (x y : Node) : Prop :=
  size (storage x) < size (storage y)
  \/ (size (storage x) = size (storage y) /\ node_id x <= node_id y).

#[export] Instance rank_le_dec x y : Decision (rank_le x y).
Proof. unfold rank_le. apply _. Defined.

Definition policy_ranking (ns : list Node) : list Node := merge_sort rank_le ns.

(** A store attempt on [x] succeeds. *)
Definition accepts (x : Node) : bool :=
  (size (storage x) <? capacity x)%nat && active x.

(** From the front of the ranking, the nodes that accept, [needed] at most. *)
Fixpoint policy_select (needed : nat) (ranked : list Node) : list Node :=
  match needed, ranked with
  | S needed', x :: rest =>
      if accepts x then x :: policy_select needed' rest
      else policy_select needed rest
  | _, _ => []
  end.

Definition policy_targets (ns : list Node) (replication_factor : nat) : list Node :=
  policy_select replication_factor (policy_ranking ns).

(** Store the chunk on the node of id [target] and record the replica. *)
Definition policy_store (file_hash chunk_id : string) (chunk : bytes)
    (self : DFS) (target : nat) : DFS :=
  match nodes self !! target with
  | Some x =>
      metadata_append (set_node self target (snd (store_chunk x chunk_id chunk)))
                      file_hash (target, chunk_id)
  | None => self
  end.

Definition policy_place_chunk (self : DFS) (file_hash : string) (ic : nat * bytes) : DFS :=
  fold_left (policy_store file_hash (chunk_id_of file_hash (fst ic)) (snd ic))
            (map node_id (policy_targets (nodes self) (replication_factor self)))
            self.

Definition policy_upload (self : DFS) (filename : string) (content : bytes)
  : result (string * DFS) :=
  chunks <-! split_content content (chunk_size self);
  Ok (file_id filename,
      fold_left (fun s ic => policy_place_chunk s (file_id filename) ic)
                (enumerate chunks) self).

(** For contrast: the upload with one ranking, made before the first chunk
    and used for all chunks of the file. *)
Definition upload_ranked_once (self : DFS) (filename : string) (content : bytes)
  : result (string * DFS) :=
  chunks <-! split_content content (chunk_size self);
  let order := nodes_by_load self in
  Ok (file_id filename,
      fold_left (fun s ic => place_replicas s order (file_id filename)
                               (chunk_id_of (file_id filename) (fst ic)) (snd ic) 0)
                (enumerate chunks) self).

(* ================================================================= *)
(** ** Uploads of new names only *)

(** An upload of a file name whose id has no records yet, or a failure. *)
Inductive step_fresh : DFS -> DFS -> Prop :=
| fresh_upload self filename content file_hash self' :
    records self (file_id filename) = [] ->
    upload_file self filename content = Ok (file_hash, self') ->
    step_fresh self self'
| fresh_fail self r :
    step_fresh self (fail_node self r).

Inductive reachable_fresh : DFS -> Prop :=
| fresh_init num_nodes rf :
    reachable_fresh (DFS_init num_nodes rf)
| fresh_step self self' :
    reachable_fresh self -> step_fresh self self' -> reachable_fresh self'.

(** No file has two records with the same node id and chunk id. *)
Definition records_distinct (self : DFS) : Prop :=
  forall file_hash, NoDup (records self file_hash).

(* ================================================================= *)
(** ** Concrete runs of the program's own configuration, [DFS()] *)

Definition dfs0 : DFS := DFS_init 5 2.

(** The one-byte file "a", uploaded three times. *)
Definition uploaded_thrice : DFS :=
  after_upload (after_upload (after_upload dfs0 "a" (content_of_size 1))
                             "a" (content_of_size 1))
               "a" (content_of_size 1).

(** A file of 1025 bytes (two chunks), then nodes 0 and 1 fail: both
    replicas of chunk 0 are gone, those of chunk 1 are on nodes 2 and 3. *)
Definition lost_first_chunk : DFS :=
  fail_node (fail_node (after_upload dfs0 "a" (content_of_size 1025)) 0) 1.

(** A file of 2049 bytes (three chunks: on nodes 0 and 1, on 2 and 3, on 4
    and 0), then nodes 1 and 0 fail. *)
Definition two_failed : DFS :=
  fail_node (fail_node (after_upload dfs0 "a" (content_of_size 2049)) 1) 0.

(** A file of 249 chunks fills the five nodes up to 100, 100, 100, 99 and
    99 chunks; then node 1 fails. *)
Definition nearly_full : DFS := after_upload dfs0 "a" (content_of_size (248 * 1024 + 48)).

Definition nearly_full_failed : DFS := fail_node nearly_full 1.

(* ================================================================= *)
(** ** Reading outcomes and event logs *)

Definition is_done (out : outcome) : bool :=
  match out with
  | Done _ => true
  | _ => false
  end.

(** The node at position [r] exists and is inactive. *)
Definition has_failed (self : DFS) (r : nat) : bool :=
  match nodes self !! r with
  | Some x => negb (active x)
  | None => false
  end.

(** The event is the append of a record of chunk [chunk_id] to file [file_hash]. *)
Definition is_append (file_hash chunk_id : string) (e : event) : bool :=
  match e with
  | EvAppend f rec => String.eqb f file_hash && String.eqb (snd rec) chunk_id
  | EvRemove _ _ => false
  end.

(** The number of records of chunk [chunk_id] among [recs]. *)
Definition replica_count (chunk_id : string) (recs : list replica) : nat :=
  length (List.filter (fun rec => String.eqb (snd rec) chunk_id) recs).

(** The id of the file "a" and the ids of its chunks. *)
Definition file_a : string := file_id "a".
Definition chunk_a (i : nat) : string := chunk_id_of file_a i.

(** One evaluation of a run of [recover_data] that tells whether it came to
    its end, appended more than one record of the chunk, and left more
    records of the chunk than the replication factor. *)
Definition over_replicates (fuel : nat) (self : DFS) (failed_node_id : nat)
    (file_hash chunk_id : string) : bool :=
  let run := recover_data fuel self failed_node_id in
  let self' := outcome_state (snd run) in
  has_failed self failed_node_id
  && is_done (snd run)
  && (1 <? length (List.filter (is_append file_hash chunk_id) (fst run)))%nat
  && (replication_factor self' <? replica_count chunk_id (records self' file_hash))%nat.

(** Nodes 3 and 4 fail in the new [DFS()]; a file of 149 chunks then fills
    nodes 0, 1, 2 up to 100, 99 and 99 chunks; then node 0 fails. *)
Definition three_left_failed : DFS :=
  fail_node (after_upload (fail_node (fail_node dfs0 3) 4) "a"
                          (content_of_size (148 * 1024 + 1))) 0.

(** One evaluation of a run of [recover_data] that tells whether it came to
    its end and left some record of the file twice. *)
Definition duplicates_after (fuel : nat) (self : DFS) (failed_node_id : nat)
    (file_hash : string) : bool :=
  let run := recover_data fuel self failed_node_id in
  is_done (snd run)
  && negb (bool_decide (NoDup (records (outcome_state (snd run)) file_hash))).

(** What [monitor_nodes] does when node 0 is the first to fail after the
    upload of a one-byte file: the state in which it calls [recover_data(0)]. *)
Definition one_chunk_failed : DFS := fail_node (after_upload dfs0 "a" (content_of_size 1)) 0.

(** The state after the scan of the first two records of the file: the
    chunk has been copied from node 1 to node 2. *)
Definition ping_pong_start : DFS :=
  outcome_state (snd (scan_records 2 one_chunk_failed 0 file_a (chunk_a 0) 0)).

(** The scan is at position [i], the last record of the file; it is a
    record of node 1 or of node 2, which both hold the chunk and have room. *)
Definition ping_pong (self : DFS) (i : nat) : Prop :=
  nodes self = nodes ping_pong_start
  /\ exists (recs : list replica) (k : nat),
       metadata self = [(file_a, recs)]
       /\ length recs = S i
       /\ recs !! i = Some (k, chunk_a 0)
       /\ (k = 1 \/ k = 2).

(* ================================================================= *)
(** ** DFS.get_status *)

(** One entry of the "nodes" list: [{"id": .., "active": .., "chunks": ..}]. *)
Record node_status : Type := mkNodeStatus {
  status_id : nat;
  status_active : bool;
  status_chunks : nat
}.

(** [{"nodes": [..], "files": {file_hash: len(chunks)}}] *)
Record status : Type := mkStatus {
  status_nodes : list node_status;
  status_files : odict nat
}.

Definition get_status (self : DFS) : status :=
  mkStatus
    (map (fun n => mkNodeStatus (node_id n) (active n) (size (storage n))) (nodes self))
    (fold_left (fun d (item : string * list replica) =>
                  od_set d (fst item) (length (snd item)))
               (metadata self) []).

(* ================================================================= *)
(** ** DFS.monitor_nodes

    The tests [random.random() < 0.1] are answered by the environment:
    [draw r] is the outcome of the test made for the node at position [r]
    of [self.nodes] in one pass of the [for] loop. The sleep between two
    passes changes nothing in the state. *)

(** [for node in self.nodes], over the positions [rs] still to visit. *)
Fixpoint monitor_loop (fuel : nat) (self : DFS) (draw : nat -> bool) (rs : list nat)
  : list event * outcome :=
  match rs with
  | [] => ([], Done self)
  | r :: rs' =>
      match nodes self !! r with
      | None => monitor_loop fuel self draw rs'
      | Some node =>
          if draw r then
            match recover_data fuel (fail_node self r) (node_id node) with
            | (evs, Done self') =>
                let '(evs', out) := monitor_loop fuel self' draw rs' in
                (evs ++ evs', out)
            | other => other
            end
          else monitor_loop fuel self draw rs'
      end
  end.

(** One pass of the body of [while True]. *)
Definition monitor_pass (fuel : nat) (self : DFS) (draw : nat -> bool)
  : list event * outcome :=
  monitor_loop fuel self draw (seq 0 (length (nodes self))).

(** [monitor_nodes()], observed after [rounds] passes; [draws t] answers the
    tests of pass number [t]. The loop has no exit, so the run is reported
    as still going when the passes are used up. *)
Fixpoint monitor_nodes (rounds fuel : nat) (self : DFS) (draws : nat -> nat -> bool)
    (t : nat) : list event * outcome :=
  match rounds with
  | O => ([], OutOfFuel self)
  | S rounds' =>
      match monitor_pass fuel self (draws t) with
      | (evs, Done self') =>
          let '(evs', out) := monitor_nodes rounds' fuel self' draws (S t) in
          (evs ++ evs', out)
      | other => other
      end
  end.

(* ================================================================= *)
(** ** The Flask routes [/upload] and [/download/<file_hash>]

    The routes work on the one global [dfs]; it is passed in and, for the
    upload, out. A request to [/upload] is taken to carry a part named
    "file": its file name and its bytes ([file.filename], [file.read()]);
    such a part is true in [if file:] when its file name is not empty. A
    response is its status code, 200 where the route gives none, and its
    body: a text, or the attachment that [send_file] makes. *)

Inductive body : Type :=
| Text (text : string)
| Attachment (download_name : string) (content : bytes).

Record response : Type := mkResponse {
  status_code : nat;
  response_body : body
}.

Definition upload (dfs : DFS) (filename : string) (content : bytes)
  : result (response * DFS) :=
  if negb (String.eqb filename "") then
    up <-! upload_file dfs filename content;
    Ok (mkResponse 200 (Text ("File uploaded successfully. Hash: " +:+ fst up)), snd up)
  else Ok (mkResponse 400 (Text "No file uploaded"), dfs).

Definition download (dfs : DFS) (file_hash : string) : result response :=
  content <-! download_file dfs file_hash;
  match content with
  | Some data =>
      if truthy data
      then Ok (mkResponse 200 (Attachment ("file_" +:+ file_hash) data))
      else Ok (mkResponse 404 (Text "File not found or unavailable"))
  | None => Ok (mkResponse 404 (Text "File not found or unavailable"))
  end.

(* ================================================================= *)
(** ** The elementary mutations of the state

    Every operation changes the state by a sequence of three kinds of
    mutation: a successful [store_chunk] followed by the append of its
    record, the removal of the records of a node from a file, and the
    failure of a node. The data stored is either a chunk cut by
    [upload_file], of [chunk_size] bytes at most, or a copy of what some
    node holds under the same chunk id. *)

Inductive mutation : DFS -> DFS -> Prop :=
| mut_store self r x file_hash chunk_id data :
    nodes self !! r = Some x -> accepts x = true -> truthy data = true ->
    (length data <= chunk_size self
     \/ exists k y, nodes self !! k = Some y /\ storage y !! chunk_id = Some data) ->
    mutation self (metadata_append (set_node self r (stored chunk_id data x))
                                   file_hash (node_id x, chunk_id))
| mut_remove self file_hash failed_node_id :
    mutation self (remove_stale self file_hash failed_node_id)
| mut_fail self r x :
    nodes self !! r = Some x ->
    mutation self (set_node self r (fail x)).

(** No file id is listed twice in the metadata. *)
Definition keys_distinct (self : DFS) : Prop := NoDup (map fst (metadata self)).

(** Every record names a node that has the chunk id in its storage. *)
Definition records_stored (self : DFS) : Prop :=
  forall file_hash recs nid cid,
    (file_hash, recs) ∈ metadata self -> (nid, cid) ∈ recs ->
    exists x, nodes self !! nid = Some x /\ is_Some (storage x !! cid).

(** Every stored value is a chunk: not empty, [chunk_size] bytes at most. *)
Definition data_bounded (self : DFS) : Prop :=
  forall r x cid data,
    nodes self !! r = Some x -> storage x !! cid = Some data ->
    1 <= length data <= chunk_size self.

Definition sound (self : DFS) : Prop :=
  nodes_indexed self /\ keys_distinct self /\ records_stored self /\ data_bounded self.

(** What only grows: the chunk ids a node has in its storage and the file
    ids listed in the metadata. *)
Definition grows (self self' : DFS) : Prop :=
  Forall2 (fun x x' : Node => dom (storage x) ⊆ dom (storage x')) (nodes self) (nodes self')
  /\ forall file_hash, is_Some (od_get (metadata self) file_hash) ->
                       is_Some (od_get (metadata self') file_hash).

(** The node at position [r] exists and is active. *)
Definition alive (self : DFS) (r : nat) : Prop :=
  exists x, nodes self !! r = Some x /\ active x = true.

(** No record of any file names the node [r]. *)
Definition unrecorded (self : DFS) (r : nat) : Prop :=
  forall file_hash rec, rec ∈ records self file_hash -> fst rec <> r.

(* ================================================================= *)
(** ** Replicas and failures *)

(** The node at position [r] has [chunk] under [chunk_id] in its storage,
    active or not. *)
Definition stores (self : DFS) (chunk_id : string) (chunk : bytes) (r : nat) : Prop :=
  exists x, nodes self !! r = Some x /\ storage x !! chunk_id = Some chunk.

(** The records [recs] are one block of [n] records per item [(i, chunk)],
    in the order of the items, on [n] different nodes that all hold the
    chunk under the id of index [i]. *)
Inductive replicated (self : DFS) (file_hash : string) (n : nat)
  : list (nat * bytes) -> list replica -> Prop :=
| replicated_nil : replicated self file_hash n [] []
| replicated_snoc items recs i chunk ids :
    replicated self file_hash n items recs ->
    NoDup ids -> length ids = n ->
    (forall r, r ∈ ids -> holds self (chunk_id_of file_hash i) chunk r) ->
    replicated self file_hash n (items ++ [(i, chunk)])
               (recs ++ map (fun r => (r, chunk_id_of file_hash i)) ids).

(** The nodes that have room for [n] more chunks. *)
Definition roomy (self : DFS) (n : nat) : list Node :=
  filter (fun x : Node => n <= room x) (nodes self).

(** A node that accepts the chunk [chunk_id] however often it is stored: it
    is active and has room for two chunks, or room for one and the chunk
    already (storing it again takes no room). *)
Definition steady (chunk_id : string) (x : Node) : Prop :=
  active x = true
  /\ (S (size (storage x)) < capacity x
      \/ (size (storage x) < capacity x /\ is_Some (storage x !! chunk_id))).

(** The scan of the records of [file_hash] for [chunk_id] is at position
    [i] and cannot come to an end: the failed node is inactive, two
    different nodes are steady, and at position [i] or later there is a
    record of the chunk on an active node that has data for it; the scan of
    that record appends one more such record. *)
Definition scan_goes_on (self : DFS) (failed_node_id : nat) (file_hash chunk_id : string)
    (i : nat) : Prop :=
  nodes_indexed self
  /\ (forall rec, rec ∈ records self file_hash -> fst rec < length (nodes self))
  /\ ~ alive self failed_node_id
  /\ (exists a b xa xb, a <> b /\ nodes self !! a = Some xa /\ nodes self !! b = Some xb
                        /\ steady chunk_id xa /\ steady chunk_id xb)
  /\ exists j c x data,
       i <= j /\ records self file_hash !! j = Some (c, chunk_id)
       /\ nodes self !! c = Some x /\ active x = true
       /\ storage x !! chunk_id = Some data /\ truthy data = true.

(** Load balancing: the chunk counts of the active nodes differ by one at
    most. *)
Definition balanced (self : DFS) : Prop :=
  exists m, forall x, x ∈ nodes self -> active x = true ->
    m <= size (storage x) <= S m.

(** Whatever a node has in its storage is named by a record of some file. *)
Definition stored_recorded (self : DFS) : Prop :=
  forall r x chunk_id, nodes self !! r = Some x -> is_Some (storage x !! chunk_id) ->
    exists file_hash, (r, chunk_id) ∈ records self file_hash.

(** [fail()] on each of the nodes at the positions [rs]. *)
Definition fail_nodes (self : DFS) (rs : list nat) : DFS := fold_left fail_node rs self.

(* ================================================================= *)
(** ** More concrete runs *)

(** The one-byte file "a" in a new [DFS()]: chunk 0 is on nodes 0 and 1. *)
Definition one_chunk : DFS := after_upload dfs0 "a" (content_of_size 1).

(** The same file in a cluster of two nodes, [DFS(2, 2)]; then node 0
    fails; then [recover_data(0)] runs, and finds no node to copy to. *)
Definition pair_one_chunk : DFS := after_upload (DFS_init 2 2) "a" (content_of_size 1).

Definition pair_failed : DFS := fail_node pair_one_chunk 0.

Definition pair_recovered : DFS := outcome_state (snd (recover_data 3 pair_failed 0)).

(** Both nodes of the pair have failed. *)
Definition pair_all_failed : DFS := fail_node pair_failed 1.

(** The draws of a pass in which node 0 alone fails. *)
Definition node_0_fails (r : nat) : bool := (r =? 0)%nat.

(** The state in which a pass with these draws ends in the pair. *)
Definition pair_monitored : DFS :=
  outcome_state (snd (monitor_pass 3 pair_one_chunk node_0_fails)).

(** The node 0 of a new cluster after it stored the one byte of "a". *)
Definition node_0_with_chunk : Node := stored (chunk_a 0) (content_of_size 1) (Node_init 0).

(* ================================================================= *)
(** * Unit checks of the Python primitives *)

Example sha256_constants :
  length Sha256.K = 64
  /\ nth 0 Sha256.K 0%N = 0x428a2f98%N /\ nth 63 Sha256.K 0%N = 0xc67178f2%N
  /\ nth 0 Sha256.H0 0%N = 0x6a09e667%N /\ nth 7 Sha256.H0 0%N = 0x5be0cd19%N.
Proof. vm_compute. repeat split; reflexivity. Qed.

Example sha256_empty :
  Sha256.hexdigest "" = "e3b0c44298fc1c149afbf4c8996fb92427ae41e4649b934ca495991b7852b855".
Proof. vm_compute. reflexivity. Qed.

Example sha256_abc :
  Sha256.hexdigest "abc" = "ba7816bf8f01cfea414140de5dae2223b00361a396177a9cb410ff61f20015ad".
Proof. vm_compute. reflexivity. Qed.

Example sha256_report :
  Sha256.hexdigest "report.txt" = "eafb4aff19bc57c3106afe5e1d4aef0b6422e0de242745e6e94f7d5733ab1cc1".
Proof. vm_compute. reflexivity. Qed.

Example sha256_two_blocks :
  Sha256.hexdigest "aaaaaaaaaaaaaaaaaaaaaaaaaaaaaaaaaaaaaaaaaaaaaaaaaaaaaaaa"
  = "b35439a4ac6f0948b6d6f9e3c6af0f5f590ce20f1bde7090ef7970686ec6738a".
Proof. vm_compute. reflexivity. Qed.

Example int_str_248 : int (str 248) = Ok 248%Z.
Proof. reflexivity. Qed.

Example int_forms : int " +1_000 " = Ok 1000%Z /\ int "1__0" = Raise ValueError
  /\ int "" = Raise ValueError /\ int "-7" = Ok (-7)%Z.
Proof. repeat split. Qed.

(** A tab or a newline around the digits is stripped; the separator 0x1c
    is not. *)
Example int_spaces :
  int (String (ascii_of_nat 9) (String "5" (String (ascii_of_nat 10) EmptyString)))
  = Ok 5%Z
  /\ int (String (ascii_of_nat 28) (String "5" EmptyString)) = Raise ValueError.
Proof. split; reflexivity. Qed.

Example split_chunk_id : split "ab_chunk_12" "_chunk_" = ["ab"; "12"].
Proof. reflexivity. Qed.

Example split_none : split "abc" "_chunk_" = ["abc"].
Proof. reflexivity. Qed.

Example sorted_stable :
  sorted fst [(2, "a"); (1, "b"); (2, "c"); (1, "d")]%Z
  = [(1, "b"); (1, "d"); (2, "a"); (2, "c")]%Z.
Proof. reflexivity. Qed.

Example range_chunks : range 0 2500 1024 = Ok [0; 1024; 2048].
Proof. reflexivity. Qed.

(* ================================================================= *)
(** * Facts about the Python primitives *)

Section OrderedDict.
Context {V : Type}.
Implicit Types (d : odict V) (k : string) (v : V).

Lemma od_get_set_eq d k v : od_get (od_set d k v) k = Some v.
Proof.
  induction d as [|[k' v'] d IH]; simpl.
  - by rewrite String.eqb_refl.
  - destruct (String.eqb k' k) eqn:E; simpl; rewrite E; done.
Qed.

Lemma od_get_set_ne d k k' v : k <> k' -> od_get (od_set d k v) k' = od_get d k'.
Proof.
  intros Hne. induction d as [|[k0 v0] d IH]; simpl.
  - destruct (String.eqb_spec k k'); done.
  - destruct (String.eqb_spec k0 k) as [->|]; simpl.
    + destruct (String.eqb_spec k k'); done.
    + destruct (String.eqb_spec k0 k'); done.
Qed.

Lemma od_set_fresh d k v : od_get d k = None -> od_set d k v = d ++ [(k, v)].
Proof.
  induction d as [|[k' v'] d IH]; simpl; [done|].
  destruct (String.eqb k' k); [done|]. intros H. by rewrite IH.
Qed.

Lemma od_set_same d k v : od_get d k = Some v -> od_set d k v = d.
Proof.
  induction d as [|[k' v'] d IH]; simpl; [done|].
  destruct (String.eqb k' k); [congruence|]. intros H. by rewrite IH.
Qed.

Lemma od_get_app_fresh d k k' v :
  od_get d k' = None -> od_get (d ++ [(k, v)]) k' = if String.eqb k k' then Some v else None.
Proof.
  induction d as [|[k0 v0] d IH]; simpl; [done|].
  destruct (String.eqb k0 k'); [done|]. apply IH.
Qed.
End OrderedDict.

(** ** [int(str(i)) == i] *)

Lemma str_all_list p s : str_all p s = forallb p (list_ascii_of_string s).
Proof. induction s as [|c s IH]; simpl; [done|]. by rewrite IH. Qed.

Lemma uint_digits d : str_all is_digit (NilEmpty.string_of_uint d) = true.
Proof. induction d; simpl; done. Qed.

Lemma str_digits i : str_all is_digit (str i) = true.
Proof.
  unfold str, NilZero.string_of_uint.
  destruct (Nat.to_uint i); try done; apply uint_digits.
Qed.

Lemma str_nonempty i : str i <> EmptyString.
Proof.
  unfold str, NilZero.string_of_uint.
  destruct (Nat.to_uint i); simpl; done.
Qed.

Lemma parse_uint d acc prev :
  (d <> Decimal.Nil \/ prev = true) ->
  parse_digits acc prev (list_ascii_of_string (NilEmpty.string_of_uint d))
  = Some (Nat.of_uint_acc d acc).
Proof.
  revert acc prev.
  induction d; intros acc prev Hd; cbn [NilEmpty.string_of_uint list_ascii_of_string];
    try (cbn [parse_digits Ascii.eqb Bool.eqb digit_val nat_of_ascii];
         simpl; rewrite IHd by (by right); cbn [Nat.of_uint_acc];
         rewrite Nat.tail_mul_spec; f_equal; f_equal; lia).
  simpl. destruct Hd as [? | ->]; done.
Qed.

Lemma lstrip_digit c cs : is_digit c = true -> lstrip (c :: cs) = c :: cs.
Proof.
  intros Hc. simpl. replace (is_space c) with false; [done|].
  unfold is_digit, digit_val, is_space in *.
  destruct (48 <=? nat_of_ascii c)%nat eqn:E1, (nat_of_ascii c <=? 57)%nat eqn:E2;
    simpl in Hc; try done.
  apply Nat.leb_le in E1, E2. symmetry.
  apply orb_false_iff; split.
  - apply andb_false_iff. right. apply Nat.leb_gt. lia.
  - apply Nat.eqb_neq. lia.
Qed.

Lemma strip_digits cs : cs <> [] -> forallb is_digit cs = true -> strip cs = cs.
Proof.
  intros Hne Hall. unfold strip.
  destruct cs as [|c cs]; [done|].
  rewrite lstrip_digit by (simpl in Hall; by apply andb_prop in Hall as [? ?]).
  assert (Hr : forallb is_digit (rev (c :: cs)) = true).
  { apply forallb_forall. intros x Hx. apply in_rev in Hx.
    rewrite forallb_forall in Hall. by apply Hall. }
  destruct (rev (c :: cs)) as [|c' cs'] eqn:E.
  { apply (f_equal (@length ascii)) in E. rewrite length_rev in E. done. }
  rewrite lstrip_digit by (simpl in Hr; by apply andb_prop in Hr as [? ?]).
  by rewrite <- E, rev_involutive.
Qed.

Lemma digit_not_sign c :
  is_digit c = true -> Ascii.eqb c "-" = false /\ Ascii.eqb c "+" = false.
Proof. destruct c as [[] [] [] [] [] [] [] []]; done. Qed.

Lemma int_of_digits s n :
  s <> EmptyString -> str_all is_digit s = true ->
  parse_digits 0 false (list_ascii_of_string s) = Some n ->
  int s = Ok (Z.of_nat n).
Proof.
  intros Hne Hall Hp. unfold int. rewrite str_all_list in Hall.
  rewrite strip_digits; [|by destruct s|done].
  destruct (list_ascii_of_string s) as [|c cs] eqn:E; [by destruct s|].
  simpl in Hall. apply andb_prop in Hall as [Hc _].
  destruct (digit_not_sign c Hc) as [-> ->]. by rewrite Hp.
Qed.

Lemma int_str i : int (str i) = Ok (Z.of_nat i).
Proof.
  apply int_of_digits; [apply str_nonempty|apply str_digits|].
  pose proof (DecimalNat.Unsigned.of_to i) as Hrt.
  unfold str, NilZero.string_of_uint.
  destruct (Nat.to_uint i) as [|d|d|d|d|d|d|d|d|d|d] eqn:E;
    [by rewrite <- Hrt| ..];
    rewrite <- Hrt; unfold Nat.of_uint; apply parse_uint; by left.
Qed.

Lemma str_inj i j : str i = str j -> i = j.
Proof.
  intros H. pose proof (int_str i) as Hi. rewrite H, int_str in Hi.
  injection Hi. lia.
Qed.

(** ** Chunk ids: [int(chunk_id.split('_chunk_')[1])] gives back the index *)

Lemma digit_not_underscore c : is_digit c = true -> not_underscore c = true.
Proof. destruct c as [[] [] [] [] [] [] [] []]; done. Qed.

Lemma str_all_impl (p q : ascii -> bool) s :
  (forall c, p c = true -> q c = true) -> str_all p s = true -> str_all q s = true.
Proof.
  intros Hpq. induction s as [|c s IH]; simpl; [done|].
  intros [Hc Hs]%andb_prop. rewrite (Hpq c Hc). by apply IH.
Qed.

Lemma str_app_nil t : "" +:+ t = t.
Proof. reflexivity. Qed.

Lemma str_app_cons c s t : String c s +:+ t = String c (s +:+ t).
Proof. reflexivity. Qed.

Lemma prefix_app s t : String.prefix s (s +:+ t) = true.
Proof.
  induction s as [|c s IH]; [by destruct t|].
  rewrite str_app_cons. simpl. destruct (ascii_dec c c); [done|congruence].
Qed.

Lemma find_no_underscore d : str_all not_underscore d = true -> find "_chunk_" d = None.
Proof.
  induction d as [|c d IH]; [done|].
  intros [Hc Hd]%andb_prop. cbn [find String.prefix].
  destruct (ascii_dec "_" c) as [<-|_]; [done|].
  by rewrite IH.
Qed.

Lemma find_after_prefix h u :
  str_all not_underscore h = true ->
  String.prefix "_chunk_" u = true ->
  find "_chunk_" (h +:+ u) = Some (String.length h).
Proof.
  intros Hh Hu. induction h as [|c h IH].
  - rewrite str_app_nil. destruct u as [|c u]; [done|]. cbn [find]. by rewrite Hu.
  - apply andb_prop in Hh as [Hc Hh]. rewrite str_app_cons.
    cbn [find String.prefix String.length].
    destruct (ascii_dec "_" c) as [<-|_]; [done|].
    by rewrite IH.
Qed.

Lemma str_take_app h t : str_take (String.length h) (h +:+ t) = h.
Proof.
  induction h as [|c h IH]; [by destruct t|].
  rewrite str_app_cons. simpl. by rewrite IH.
Qed.

Lemma str_drop_app h t : str_drop (String.length h) (h +:+ t) = t.
Proof.
  induction h as [|c h IH]; [by destruct t|].
  rewrite str_app_cons. done.
Qed.

Lemma str_length_app s t :
  String.length (s +:+ t) = String.length s + String.length t.
Proof.
  induction s as [|c s IH]; [done|].
  rewrite str_app_cons. simpl. by rewrite IH.
Qed.

Lemma str_app_assoc s t u : (s +:+ t) +:+ u = s +:+ (t +:+ u).
Proof.
  induction s as [|c s IH]; [done|].
  rewrite !str_app_cons. by rewrite IH.
Qed.

Lemma str_app_inv_head s t u : s +:+ t = s +:+ u -> t = u.
Proof.
  induction s as [|c s IH]; [done|].
  rewrite !str_app_cons. intros [= H]. by apply IH.
Qed.

Lemma split_chunk_id_of h i :
  str_all not_underscore h = true ->
  split (chunk_id_of h i) "_chunk_" = [h; str i].
Proof.
  intros Hh. unfold split, chunk_id_of.
  rewrite !str_length_app. change (String.length "_chunk_") with 7.
  replace (String.length h + (7 + String.length (str i)))
    with (S (S (String.length h + 5 + String.length (str i)))) by lia.
  cbn [split_fuel]. rewrite find_after_prefix by (done || apply prefix_app).
  rewrite str_take_app. f_equal.
  change 7 with (String.length "_chunk_").
  rewrite <- (str_length_app h "_chunk_"), <- str_app_assoc, str_drop_app.
  rewrite find_no_underscore; [done|].
  eapply str_all_impl; [apply digit_not_underscore|apply str_digits].
Qed.

Lemma chunk_seq_chunk_id_of h i :
  str_all not_underscore h = true ->
  chunk_seq (chunk_id_of h i) = Ok (Z.of_nat i).
Proof.
  intros Hh. unfold chunk_seq. rewrite split_chunk_id_of by done.
  simpl. apply int_str.
Qed.

Lemma chunk_id_of_inj h i j : chunk_id_of h i = chunk_id_of h j -> i = j.
Proof.
  unfold chunk_id_of. intros H%str_app_inv_head%str_app_inv_head.
  by apply str_inj.
Qed.

(** ** The hex digest contains no underscore *)

Lemma hex_digit_not_underscore d : not_underscore (Sha256.hex_digit d) = true.
Proof.
  destruct d as [|p]; [done|].
  do 4 (destruct p as [p|p|]; try done).
Qed.

Lemma str_all_of_list p cs :
  str_all p (string_of_list_ascii cs) = forallb p cs.
Proof. induction cs as [|c cs IH]; simpl; [done|]. by rewrite IH. Qed.

Lemma hexdigest_no_underscore s : str_all not_underscore (Sha256.hexdigest s) = true.
Proof.
  unfold Sha256.hexdigest. rewrite str_all_of_list.
  apply forallb_forall. intros c Hc.
  apply in_concat in Hc as (w & Hw & Hc).
  apply in_map_iff in Hw as (x & <- & _).
  unfold Sha256.hex_word in Hc. apply in_map_iff in Hc as (k & <- & _).
  apply hex_digit_not_underscore.
Qed.

Lemma chunk_seq_upload filename i :
  chunk_seq (chunk_id_of (Sha256.hexdigest filename) i) = Ok (Z.of_nat i).
Proof. apply chunk_seq_chunk_id_of, hexdigest_no_underscore. Qed.

(* ================================================================= *)
(** * Node.store_chunk and Node.retrieve_chunk *)

Lemma store_chunk_ok (self : Node) chunk_id data :
  active self = true -> size (storage self) < capacity self ->
  store_chunk self chunk_id data
  = (true, mkNode (node_id self) (capacity self)
                  (<[chunk_id := data]> (storage self)) (active self)).
Proof.
  intros Ha Hc. unfold store_chunk. rewrite Ha.
  by apply Nat.ltb_lt in Hc as ->.
Qed.

Lemma store_chunk_true_inv (self self' : Node) chunk_id data :
  store_chunk self chunk_id data = (true, self') ->
  active self = true /\ size (storage self) < capacity self
  /\ self' = mkNode (node_id self) (capacity self)
                    (<[chunk_id := data]> (storage self)) true.
Proof.
  unfold store_chunk.
  destruct (size (storage self) <? capacity self)%nat eqn:Hc,
           (active self) eqn:Ha; simpl; intros [= <-].
  apply Nat.ltb_lt in Hc. done.
Qed.

Lemma store_chunk_false_inv (self self' : Node) chunk_id data :
  store_chunk self chunk_id data = (false, self') ->
  self' = self /\ (active self = false \/ capacity self <= size (storage self)).
Proof.
  unfold store_chunk.
  destruct (size (storage self) <? capacity self)%nat eqn:Hc,
           (active self) eqn:Ha; simpl; intros [= <-]; split; auto.
  all: right; apply Nat.ltb_ge in Hc; lia.
Qed.

Lemma size_insert_le (m : gmap string bytes) k v :
  size m <= size (<[k := v]> m) <= S (size m).
Proof.
  destruct (m !! k) eqn:E.
  - rewrite map_size_insert_Some; [lia|done].
  - rewrite map_size_insert_None; [lia|done].
Qed.

Lemma store_chunk_within_capacity (self : Node) chunk_id data :
  within_capacity self -> within_capacity (snd (store_chunk self chunk_id data)).
Proof.
  unfold within_capacity. intros Hw.
  destruct (store_chunk self chunk_id data) as [[] self'] eqn:E; simpl.
  - apply store_chunk_true_inv in E as (_ & Hlt & ->). simpl.
    pose proof (size_insert_le (storage self) chunk_id data). lia.
  - by apply store_chunk_false_inv in E as [-> _].
Qed.

(** C4. [store_chunk] returns [True] exactly when the node is active and
    holds fewer chunks than its capacity. Then the data is stored under the
    chunk id, the other chunks are untouched, and a chunk id already present
    is overwritten without changing the chunk count. Otherwise it returns
    [False] (no exception) and the node is unchanged. Storing the same chunk
    a second time changes nothing more. *)
Theorem store_chunk_spec (self : Node) (chunk_id : string) (data : bytes) :
  let ok := fst (store_chunk self chunk_id data) in
  let self' := snd (store_chunk self chunk_id data) in
  (ok = true <-> active self = true /\ size (storage self) < capacity self)
  /\ (ok = true ->
        storage self' !! chunk_id = Some data
        /\ (forall other, other <> chunk_id ->
              storage self' !! other = storage self !! other)
        /\ (is_Some (storage self !! chunk_id) ->
              size (storage self') = size (storage self))
        /\ (storage self !! chunk_id = None ->
              size (storage self') = S (size (storage self)))
        /\ node_id self' = node_id self /\ capacity self' = capacity self
        /\ active self' = active self)
  /\ (ok = false -> self' = self)
  /\ snd (store_chunk self' chunk_id data) = self'.
Proof.
  cbv zeta.
  destruct (store_chunk self chunk_id data) as [[] self'] eqn:E; simpl.
  - apply store_chunk_true_inv in E as (Ha & Hc & ->). simpl.
    repeat split; try done.
    + apply lookup_insert_eq.
    + intros other Hne. by apply lookup_insert_ne.
    + intros [old Hold]. by apply map_size_insert_Some.
    + intros Hnone. by apply map_size_insert_None.
    + unfold store_chunk; simpl.
      destruct (_ <? _)%nat; simpl; [|done].
      by rewrite insert_insert_eq.
  - apply store_chunk_false_inv in E as [-> Hno].
    split; [|split; [done|split; [done|]]].
    + split; [done|]. intros [Ha Hc]. destruct Hno as [Hno|Hno]; [congruence|lia].
    + unfold store_chunk.
      destruct Hno as [->|Hno]; [by rewrite andb_false_r|].
      by apply Nat.ltb_ge in Hno as ->.
Qed.

Lemma retrieve_chunk_inactive (self : Node) chunk_id :
  active self = false -> retrieve_chunk self chunk_id = None.
Proof. unfold retrieve_chunk. by intros ->. Qed.

Lemma store_chunk_inactive (self : Node) chunk_id data :
  active self = false -> store_chunk self chunk_id data = (false, self).
Proof. unfold store_chunk. intros ->. by rewrite andb_false_r. Qed.

(* ================================================================= *)
(** * What every operation preserves *)

Lemma node_evolves_refl x : node_evolves x x.
Proof. unfold node_evolves. repeat split; auto. Qed.

Lemma node_evolves_trans x y z : node_evolves x y -> node_evolves y z -> node_evolves x z.
Proof.
  unfold node_evolves. intros (?&?&?&Hs1&?) (?&?&?&Hs2&?).
  repeat split; try congruence; auto.
  destruct Hs2 as [Hs2|Hs2]; [|by auto].
  destruct Hs1 as [Hs1|Hs1]; [|by auto]. left. congruence.
Qed.

Lemma node_evolves_store x chunk_id data :
  node_evolves x (snd (store_chunk x chunk_id data)).
Proof.
  pose proof (store_chunk_within_capacity x chunk_id data) as Hw.
  destruct (store_chunk x chunk_id data) as [[] x'] eqn:E; simpl in *.
  - apply store_chunk_true_inv in E as (Ha & _ & ->).
    unfold node_evolves; simpl. repeat split; auto.
  - apply store_chunk_false_inv in E as [-> _]. apply node_evolves_refl.
Qed.

Lemma node_evolves_fail x : node_evolves x (fail x).
Proof. unfold node_evolves, fail; simpl. repeat split; auto. done. Qed.

Lemma evolves_refl self : evolves self self.
Proof.
  repeat split. apply Forall2_same_length_lookup. split; [done|].
  intros i x y Hx Hy. assert (x = y) as -> by congruence. apply node_evolves_refl.
Qed.

Lemma evolves_trans s1 s2 s3 : evolves s1 s2 -> evolves s2 s3 -> evolves s1 s3.
Proof.
  intros (?&?&H12) (?&?&H23). repeat split; try congruence.
  revert H23. generalize (nodes s3). induction H12; intros l3 H23.
  - by inversion H23.
  - inversion H23; subst. constructor; [by eapply node_evolves_trans|by apply IHForall2].
Qed.

Lemma evolves_set_node self r x x' :
  nodes self !! r = Some x -> node_evolves x x' -> evolves self (set_node self r x').
Proof.
  intros Hr Hx. repeat split. simpl.
  apply Forall2_same_length_lookup. split; [by rewrite length_insert|].
  intros i y y' Hy Hy'. destruct (decide (i = r)) as [->|Hne].
  - rewrite list_lookup_insert_eq in Hy' by (by eapply lookup_lt_Some).
    congruence.
  - rewrite list_lookup_insert_ne in Hy' by done.
    assert (y = y') as -> by congruence. apply node_evolves_refl.
Qed.

Lemma evolves_metadata_append self file_hash rec :
  evolves self (metadata_append self file_hash rec).
Proof. destruct (evolves_refl self) as (?&?&?). by repeat split. Qed.

Lemma evolves_remove_stale self file_hash failed_node_id :
  evolves self (remove_stale self file_hash failed_node_id).
Proof. destruct (evolves_refl self) as (?&?&?). by repeat split. Qed.

Lemma evolves_length s s' : evolves s s' -> length (nodes s') = length (nodes s).
Proof. intros (_&_&H). symmetry. by eapply Forall2_length. Qed.

Lemma evolves_capacity_ok s s' : evolves s s' -> capacity_ok s -> capacity_ok s'.
Proof.
  intros (_&_&H). unfold capacity_ok. induction H; intros Hc; [done|].
  inversion Hc; subst. constructor; [|by auto].
  by apply H.
Qed.

Lemma evolves_nodes_indexed s s' : evolves s s' -> nodes_indexed s -> nodes_indexed s'.
Proof.
  intros (_&_&H) Hi r x' Hx'.
  destruct (Forall2_lookup_r _ _ _ _ _ H Hx') as (x & Hx & Hev).
  destruct Hev as (-> & _). by apply Hi.
Qed.

(** ** upload_file *)

Lemma evolves_place_replicas order : forall self file_hash chunk_id chunk placed,
  evolves self (place_replicas self order file_hash chunk_id chunk placed).
Proof.
  induction order as [|r order IH]; intros self file_hash chunk_id chunk placed;
    cbn [place_replicas].
  { apply evolves_refl. }
  destruct (nodes self !! r) as [x|] eqn:Hr; [|apply IH].
  pose proof (node_evolves_store x chunk_id chunk) as Hev.
  destruct (store_chunk x chunk_id chunk) as [[] x'] eqn:E; simpl in Hev; [|apply IH].
  assert (evolves self (metadata_append (set_node self r x') file_hash (node_id x', chunk_id))).
  { eapply evolves_trans; [by eapply evolves_set_node|apply evolves_metadata_append]. }
  destruct (S placed =? replication_factor self)%nat; [done|].
  eapply evolves_trans; [done|apply IH].
Qed.

Lemma evolves_place_chunks file_hash ics : forall self,
  evolves self (fold_left (fun s ic => place_chunk s file_hash ic) ics self).
Proof.
  induction ics as [|ic ics IH]; intros self; simpl; [apply evolves_refl|].
  eapply evolves_trans; [apply evolves_place_replicas|apply IH].
Qed.

Lemma range_ok start stop step :
  step <> 0 ->
  range start stop step
  = Ok (map (fun k => start + k * step) (seq 0 ((stop - start + (step - 1)) / step))).
Proof. intros Hs. unfold range. by apply Nat.eqb_neq in Hs as ->. Qed.

Lemma split_content_ok content cs :
  cs <> 0 ->
  split_content content cs
  = Ok (map (fun i => slice content i (i + cs))
            (map (fun k => 0 + k * cs) (seq 0 ((length content - 0 + (cs - 1)) / cs)))).
Proof. intros Hs. unfold split_content. by rewrite range_ok. Qed.

Lemma split_content_empty cs : cs <> 0 -> split_content [] cs = Ok [].
Proof.
  intros Hs. rewrite split_content_ok by done. simpl.
  rewrite Nat.div_small by lia. done.
Qed.

Lemma upload_file_ok self filename content :
  chunk_size self <> 0 ->
  upload_file self filename content
  = Ok (file_id filename, after_upload self filename content).
Proof.
  intros Hs. unfold after_upload, upload_file.
  by rewrite split_content_ok.
Qed.

Lemma upload_file_evolves self filename content file_hash self' :
  upload_file self filename content = Ok (file_hash, self') -> evolves self self'.
Proof.
  unfold upload_file. destruct (split_content _ _) as [chunks|]; simpl; [|done].
  intros [= _ <-]. apply evolves_place_chunks.
Qed.

Lemma evolves_fail_node self r : evolves self (fail_node self r).
Proof.
  unfold fail_node. destruct (nodes self !! r) as [x|] eqn:Hr; [|apply evolves_refl].
  eapply evolves_set_node; [done|apply node_evolves_fail].
Qed.

(** ** recover_data *)

Lemma replicate_to_Some ns : forall r source_id chunk_id data r' x',
  replicate_to ns r source_id chunk_id data = Some (r', x') ->
  exists k x, r' = r + k /\ ns !! k = Some x
    /\ store_chunk x chunk_id data = (true, x') /\ node_id x <> source_id.
Proof.
  induction ns as [|y ns IH]; intros r source_id chunk_id data r' x'; simpl; [done|].
  destruct (active y && negb (node_id y =? source_id)%nat) eqn:Hc.
  - destruct (store_chunk y chunk_id data) as [[] y'] eqn:E.
    + intros [= <- <-]. exists 0, y. repeat split; [lia|done|].
      apply andb_prop in Hc as [_ Hc]. apply negb_true_iff, Nat.eqb_neq in Hc. done.
    + intros (k & x & -> & ? & ? & ?)%IH. exists (S k), x. repeat split; [lia|done..].
  - intros (k & x & -> & ? & ? & ?)%IH. exists (S k), x. repeat split; [lia|done..].
Qed.

Lemma scan_body_evolves self failed_node_id file_hash chunk_id rec self' evs :
  scan_body self failed_node_id file_hash chunk_id rec = Ok (self', evs) ->
  evolves self self'.
Proof.
  unfold scan_body. destruct rec as [source_id cid].
  destruct (_ && _); [|intros [= <- <-]; apply evolves_refl].
  unfold index. destruct (nodes self !! source_id) as [source|]; simpl; [|done].
  destruct (retrieve_chunk source chunk_id) as [data|];
    [|intros [= <- <-]; apply evolves_refl].
  destruct (truthy data); [|intros [= <- <-]; apply evolves_refl].
  destruct (replicate_to _ _ _ _ _) as [[r x']|] eqn:E;
    [|intros [= <- <-]; apply evolves_refl].
  intros [= <- <-].
  apply replicate_to_Some in E as (k & x & -> & Hk & Hst & _).
  eapply evolves_trans; [|apply evolves_metadata_append].
  eapply evolves_set_node; [done|].
  pose proof (node_evolves_store x chunk_id data) as H. by rewrite Hst in H.
Qed.

Lemma scan_records_evolves fuel : forall self failed_node_id file_hash chunk_id i,
  evolves self
    (outcome_state (snd (scan_records fuel self failed_node_id file_hash chunk_id i))).
Proof.
  induction fuel as [|fuel IH]; intros self failed_node_id file_hash chunk_id i;
    simpl; [apply evolves_refl|].
  destruct (records self file_hash !! i) as [rec|]; [|apply evolves_refl].
  destruct (scan_body _ _ _ _ _) as [[self' evs]|e] eqn:E; [|apply evolves_refl].
  specialize (IH self' failed_node_id file_hash chunk_id (S i)).
  destruct (scan_records fuel self' _ _ _ _) as [evs' out]. simpl in *.
  eapply evolves_trans; [by eapply scan_body_evolves|done].
Qed.

Lemma recover_chunk_evolves fuel self failed_node_id fc :
  evolves self (outcome_state (snd (recover_chunk fuel self failed_node_id fc))).
Proof.
  unfold recover_chunk.
  pose proof (scan_records_evolves fuel self failed_node_id (fst fc) (snd fc) 0) as H.
  destruct (scan_records _ _ _ _ _ _) as [evs [s'|e s'|s']]; simpl in *; [|done..].
  eapply evolves_trans; [done|apply evolves_remove_stale].
Qed.

Lemma recover_loop_evolves fuel failed_node_id affected : forall self,
  evolves self (outcome_state (snd (recover_loop fuel self failed_node_id affected))).
Proof.
  induction affected as [|fc affected IH]; intros self; simpl; [apply evolves_refl|].
  pose proof (recover_chunk_evolves fuel self failed_node_id fc) as H.
  destruct (recover_chunk _ _ _ _) as [evs [s'|e s'|s']]; simpl in *; [|done..].
  specialize (IH s').
  destruct (recover_loop fuel s' failed_node_id affected) as [evs' out]; simpl in *.
  by eapply evolves_trans.
Qed.

Lemma recover_data_evolves fuel self failed_node_id :
  evolves self (outcome_state (snd (recover_data fuel self failed_node_id))).
Proof. apply recover_loop_evolves. Qed.

Lemma step_evolves s s' : step s s' -> evolves s s'.
Proof.
  destruct 1 as [s f c h s' H|s r|s fuel k evs s' H].
  - by eapply upload_file_evolves.
  - apply evolves_fail_node.
  - pose proof (recover_data_evolves fuel s k) as He. by rewrite H in He.
Qed.

(** ** The initial state *)

Lemma DFS_init_lookup num_nodes rf r x :
  nodes (DFS_init num_nodes rf) !! r = Some x -> x = Node_init r.
Proof.
  simpl. rewrite list_lookup_fmap. intros H.
  destruct (seq 0 num_nodes !! r) as [k|] eqn:E; simplify_eq/=.
  apply lookup_seq in E as [-> _]. done.
Qed.

Lemma DFS_init_indexed num_nodes rf : nodes_indexed (DFS_init num_nodes rf).
Proof. intros r x Hx. by apply DFS_init_lookup in Hx as ->. Qed.

Lemma DFS_init_capacity_ok num_nodes rf : capacity_ok (DFS_init num_nodes rf).
Proof.
  apply Forall_lookup. intros r x Hx. apply DFS_init_lookup in Hx as ->.
  unfold within_capacity. simpl. rewrite map_size_empty. lia.
Qed.

Lemma reachable_inv s :
  reachable s -> nodes_indexed s /\ capacity_ok s /\ chunk_size s = 1024.
Proof.
  induction 1 as [n rf|s s' _ (Hi & Hc & Hs) Hstep].
  - split; [apply DFS_init_indexed|]. split; [apply DFS_init_capacity_ok|done].
  - apply step_evolves in Hstep as Hev.
    split; [by eapply evolves_nodes_indexed|].
    split; [by eapply evolves_capacity_ok|].
    destruct Hev as (-> & _). done.
Qed.

(** C6. In every reachable state no node holds more chunks than its
    capacity; every operation (also an interrupted or failing
    [recover_data]) keeps that, never changes the storage of a node that was
    inactive, and never reactivates one; an inactive node refuses every
    store and answers no retrieve. *)
Theorem capacity_and_activity_invariant :
  (forall s, reachable s -> capacity_ok s)
  /\ (forall s s', step s s' -> (capacity_ok s -> capacity_ok s') /\ evolves s s')
  /\ (forall s fuel failed_node_id,
        let s' := outcome_state (snd (recover_data fuel s failed_node_id)) in
        (capacity_ok s -> capacity_ok s') /\ evolves s s')
  /\ (forall s s' r x x',
        evolves s s' -> nodes s !! r = Some x -> nodes s' !! r = Some x' ->
        active x = false -> storage x' = storage x /\ active x' = false)
  /\ (forall (x : Node) chunk_id data,
        active x = false ->
        store_chunk x chunk_id data = (false, x) /\ retrieve_chunk x chunk_id = None).
Proof.
  split; [intros s Hs; by apply reachable_inv in Hs as (_ & ? & _)|].
  split; [intros s s' Hst; apply step_evolves in Hst as Hev;
          split; [by apply evolves_capacity_ok|done]|].
  split; [intros s fuel k; pose proof (recover_data_evolves fuel s k);
          split; [by apply evolves_capacity_ok|done]|].
  split.
  - intros s s' r x x' (_ & _ & Hev) Hx Hx' Hina.
    destruct (Forall2_lookup_l _ _ _ _ _ Hev Hx) as (y & Hy & Hxy).
    assert (y = x') as -> by congruence.
    destruct Hxy as (_ & _ & Hact & Hsto & _). split.
    + destruct Hsto as [?|?]; [done|congruence].
    + destruct (active x') eqn:E; [|done]. rewrite Hact in Hina; done.
  - intros x chunk_id data Hina.
    split; [by apply store_chunk_inactive|by apply retrieve_chunk_inactive].
Qed.

(* ================================================================= *)
(** * The stable sort *)

Section StableSort.
Context {A : Type} (key : A -> Z) (pos : A -> nat).

Lemma insert_by_perm x l : insert_by key x l ≡ₚ x :: l.
Proof.
  induction l as [|y l IH]; simpl; [done|].
  destruct (key x <=? key y)%Z; [done|].
  rewrite IH. apply Permutation_swap.
Qed.

Lemma sorted_perm l : sorted key l ≡ₚ l.
Proof.
  induction l as [|x l IH]; simpl; [done|].
  rewrite insert_by_perm. by rewrite IH.
Qed.

Lemma key_pos_le_key a b : key_pos_le key pos a b -> (key a <= key b)%Z.
Proof. unfold key_pos_le. lia. Qed.

Lemma insert_by_strongly_sorted x l :
  StronglySorted (key_pos_le key pos) l ->
  Forall (fun y => pos x <= pos y) l ->
  StronglySorted (key_pos_le key pos) (insert_by key x l).
Proof.
  induction 1 as [|y l Hs IH Hy]; intros Hpos; simpl.
  { repeat constructor. }
  apply Forall_cons in Hpos as [Hxy Hpos].
  destruct (Z.leb_spec (key x) (key y)) as [Hle|Hgt].
  - constructor; [by constructor|].
    constructor.
    + unfold key_pos_le. lia.
    + rewrite Forall_forall in Hy, Hpos. apply Forall_forall. intros z Hz.
      specialize (Hy z Hz). specialize (Hpos z Hz).
      apply key_pos_le_key in Hy. unfold key_pos_le. lia.
  - constructor; [by apply IH|].
    rewrite insert_by_perm. constructor; [|done].
    unfold key_pos_le. lia.
Qed.

Lemma sorted_strongly_sorted l :
  StronglySorted (fun a b => pos a <= pos b) l ->
  StronglySorted (key_pos_le key pos) (sorted key l).
Proof.
  induction 1 as [|x l Hs IH Hx]; simpl; [constructor|].
  apply insert_by_strongly_sorted; [done|].
  by rewrite sorted_perm.
Qed.

(** A list already in ascending key order is left as it is. *)
Lemma sorted_ascending l :
  StronglySorted (fun a b => (key a <= key b)%Z) l -> sorted key l = l.
Proof.
  induction 1 as [|x l Hs IH Hx]; simpl; [done|].
  rewrite IH. destruct l as [|y l]; simpl; [done|].
  apply Forall_cons in Hx as [Hxy _].
  by apply Z.leb_le in Hxy as ->.
Qed.
End StableSort.

(** ** enumerate *)

Lemma enumerate_from_lookup {A} (l : list A) : forall i k,
  enumerate_from i l !! k = (fun x => (i + k, x)) <$> l !! k.
Proof.
  induction l as [|x l IH]; intros i k; simpl; [done|].
  destruct k as [|k]; simpl; [by rewrite Nat.add_0_r|].
  rewrite IH. by replace (S i + k) with (i + S k) by lia.
Qed.

Lemma enumerate_from_snd {A} (l : list A) i : map snd (enumerate_from i l) = l.
Proof. revert i. induction l as [|x l IH]; intros i; simpl; [done|]. by rewrite IH. Qed.

Lemma enumerate_from_fst {A} (l : list A) i :
  map fst (enumerate_from i l) = seq i (length l).
Proof. revert i. induction l as [|x l IH]; intros i; simpl; [done|]. by rewrite IH. Qed.

Lemma enumerate_elem_of {A} (l : list A) r x :
  (r, x) ∈ enumerate l <-> l !! r = Some x.
Proof.
  unfold enumerate. rewrite list_elem_of_lookup. split.
  - intros [k Hk]. rewrite enumerate_from_lookup in Hk.
    destruct (l !! k) eqn:E; simplify_eq/=. done.
  - intros Hr. exists r. rewrite enumerate_from_lookup, Hr. done.
Qed.

Lemma enumerate_from_app {A} (l1 l2 : list A) i :
  enumerate_from i (l1 ++ l2)
  = enumerate_from i l1 ++ enumerate_from (i + length l1) l2.
Proof.
  revert i. induction l1 as [|x l1 IH]; intros i; simpl.
  - by rewrite Nat.add_0_r.
  - rewrite IH. by replace (S i + length l1) with (i + S (length l1)) by lia.
Qed.

Lemma enumerate_from_positions {A} (l : list A) i :
  StronglySorted (fun a b : nat * A => fst a <= fst b) (enumerate_from i l).
Proof.
  revert i. induction l as [|x l IH]; intros i; simpl; constructor; [apply IH|].
  apply Forall_forall. intros [r y] Hin. simpl.
  apply list_elem_of_lookup in Hin as [k Hk]. rewrite enumerate_from_lookup in Hk.
  destruct (l !! k); simplify_eq/=. lia.
Qed.

(* ================================================================= *)
(** * The placement policy of upload_file *)

#[export] Instance rank_le_trans : Transitive rank_le.
Proof. intros x y z. unfold rank_le. lia. Qed.

#[export] Instance rank_le_total : Total rank_le.
Proof. intros x y. unfold rank_le. lia. Qed.

Lemma policy_ranking_sorted ns : StronglySorted rank_le (policy_ranking ns).
Proof. apply StronglySorted_merge_sort; apply _. Qed.

Lemma policy_ranking_perm ns : policy_ranking ns ≡ₚ ns.
Proof. apply merge_sort_Permutation. Qed.

Lemma StronglySorted_impl_elem {A} (R R' : relation A) l :
  (forall a b, a ∈ l -> b ∈ l -> R a b -> R' a b) ->
  StronglySorted R l -> StronglySorted R' l.
Proof.
  intros Himp Hs. induction Hs as [|x l Hs IH Hx]; constructor.
  - apply IH. intros a b Ha Hb. apply Himp; by constructor.
  - apply Forall_forall. intros y Hy. rewrite Forall_forall in Hx.
    apply Himp; [by constructor|by constructor|by apply Hx].
Qed.

Lemma nodes_indexed_ids self :
  nodes_indexed self -> map node_id (nodes self) = seq 0 (length (nodes self)).
Proof.
  intros Hi. apply list_eq. intros r. rewrite list_lookup_fmap.
  destruct (nodes self !! r) as [x|] eqn:E; simpl.
  - rewrite (Hi r x E). symmetry. apply lookup_seq. split; [done|].
    by eapply lookup_lt_Some.
  - symmetry. apply lookup_ge_None. rewrite length_seq. by apply lookup_ge_None.
Qed.

Lemma nodes_indexed_elem self x :
  nodes_indexed self -> x ∈ nodes self -> nodes self !! node_id x = Some x.
Proof.
  intros Hi [r Hr]%list_elem_of_lookup. by rewrite (Hi r x Hr).
Qed.

(** The order in which [upload_file] tries the nodes for a chunk is the
    ranking of the policy. *)
Lemma nodes_by_load_policy self :
  nodes_indexed self ->
  nodes_by_load self = map node_id (policy_ranking (nodes self)).
Proof.
  intros Hi. unfold nodes_by_load.
  set (key := fun p : nat * Node => load (snd p)).
  set (L := sorted key (enumerate (nodes self))).
  assert (HL : forall r x, (r, x) ∈ L -> nodes self !! r = Some x).
  { intros r x Hin. apply enumerate_elem_of. revert Hin. unfold L.
    by rewrite sorted_perm. }
  assert (Hfst : map fst L = map node_id (map snd L)).
  { rewrite map_map. apply map_ext_in. intros [r x] Hin%list_elem_of_In. simpl.
    symmetry. by apply Hi, HL. }
  rewrite Hfst. f_equal.
  apply (StronglySorted_unique_strong rank_le).
  - intros x1 x2 [[r1 y1] [-> H1]]%list_elem_of_fmap H2 Hp Hq.
    simpl in *. apply HL in H1.
    assert (H2' : x2 ∈ nodes self).
    { revert H2. unfold policy_ranking. by rewrite merge_sort_Permutation. }
    apply list_elem_of_lookup in H2' as [r2 H2'].
    pose proof (Hi _ _ H1). pose proof (Hi _ _ H2').
    unfold rank_le in *. assert (r1 = r2) as -> by lia. congruence.
  - apply (StronglySorted_fmap snd (fun a b => rank_le (snd a) (snd b))); [done|].
    eapply (StronglySorted_impl_elem (key_pos_le key fst)).
    2: { apply sorted_strongly_sorted, enumerate_from_positions. }
    intros [r1 x1] [r2 x2] H1%HL H2%HL. simpl.
    rewrite <- (Hi _ _ H1), <- (Hi _ _ H2).
    unfold key_pos_le, rank_le, key, load. simpl. lia.
  - apply policy_ranking_sorted.
  - unfold policy_ranking, L. rewrite merge_sort_Permutation.
    change (snd <$> sorted key (enumerate (nodes self)) ≡ₚ nodes self).
    rewrite sorted_perm. unfold enumerate.
    change (map snd (enumerate_from 0 (nodes self)) ≡ₚ nodes self).
    by rewrite enumerate_from_snd.
Qed.

Lemma store_chunk_accepts x chunk_id chunk :
  fst (store_chunk x chunk_id chunk) = accepts x.
Proof. unfold store_chunk, accepts. by destruct (_ && _). Qed.

Lemma store_chunk_node_id x chunk_id chunk :
  node_id (snd (store_chunk x chunk_id chunk)) = node_id x.
Proof. unfold store_chunk. by destruct (_ && _). Qed.

(** The loop over the sorted nodes stores on the nodes the policy selects. *)
Lemma place_replicas_policy file_hash chunk_id chunk ranked : forall self placed,
  (forall x, x ∈ ranked -> nodes self !! node_id x = Some x) ->
  NoDup (map node_id ranked) ->
  placed < replication_factor self ->
  place_replicas self (map node_id ranked) file_hash chunk_id chunk placed
  = fold_left (policy_store file_hash chunk_id chunk)
      (map node_id (policy_select (replication_factor self - placed) ranked)) self.
Proof.
  induction ranked as [|x ranked IH]; intros self placed Hx Hnd Hp.
  { simpl. by destruct (replication_factor self - placed). }
  cbn [map place_replicas]. rewrite (Hx x) by constructor.
  apply NoDup_cons in Hnd as [Hnotin Hnd].
  pose proof (store_chunk_accepts x chunk_id chunk) as Hacc.
  pose proof (store_chunk_node_id x chunk_id chunk) as Hid.
  destruct (store_chunk x chunk_id chunk) as [ok x'] eqn:E. simpl in Hacc, Hid.
  destruct (replication_factor self - placed) as [|needed] eqn:En; [lia|].
  cbn [policy_select]. rewrite <- Hacc. destruct ok.
  - cbn [map fold_left]. unfold policy_store at 2.
    rewrite (Hx x) by constructor. rewrite E. cbn [snd]. rewrite Hid.
    set (self' := metadata_append (set_node self (node_id x) x') file_hash
                                  (node_id x, chunk_id)).
    destruct (Nat.eqb_spec (S placed) (replication_factor self)) as [Heq|Hne].
    + assert (needed = 0) as -> by lia. by destruct ranked.
    + rewrite (IH self' (S placed)); [| |done|simpl; lia].
      * simpl. by replace (replication_factor self - S placed) with needed by lia.
      * intros y Hy. simpl. rewrite list_lookup_insert_ne.
        -- apply Hx. by constructor.
        -- intros Heq. apply Hnotin. rewrite Heq. apply list_elem_of_fmap. eauto.
  - rewrite (IH self placed); [|by intros y Hy; apply Hx; constructor|done|done].
    by rewrite En.
Qed.

Lemma place_chunk_policy self file_hash ic :
  nodes_indexed self -> 1 <= replication_factor self ->
  place_chunk self file_hash ic = policy_place_chunk self file_hash ic.
Proof.
  intros Hi Hrf. unfold place_chunk, policy_place_chunk, policy_targets.
  rewrite nodes_by_load_policy by done.
  rewrite place_replicas_policy; [by rewrite Nat.sub_0_r| | |lia].
  - intros x Hx. apply nodes_indexed_elem; [done|].
    revert Hx. by rewrite policy_ranking_perm.
  - rewrite policy_ranking_perm, nodes_indexed_ids by done. apply NoDup_seq.
Qed.

Lemma place_chunks_policy file_hash ics : forall self,
  nodes_indexed self -> 1 <= replication_factor self ->
  fold_left (fun s ic => place_chunk s file_hash ic) ics self
  = fold_left (fun s ic => policy_place_chunk s file_hash ic) ics self.
Proof.
  induction ics as [|ic ics IH]; intros self Hi Hrf; simpl; [done|].
  rewrite <- place_chunk_policy by done. apply IH.
  - eapply evolves_nodes_indexed; [apply evolves_place_replicas|done].
  - destruct (evolves_place_replicas (nodes_by_load self) self file_hash
                (chunk_id_of file_hash (fst ic)) (snd ic) 0) as (_ & Hrf' & _).
    unfold place_chunk. by rewrite Hrf'.
Qed.

Lemma upload_file_policy (self : DFS) (filename : string) (content : bytes) :
  nodes_indexed self -> 1 <= replication_factor self ->
  upload_file self filename content = policy_upload self filename content.
Proof.
  intros Hi Hrf. unfold upload_file, policy_upload, file_id.
  destruct (split_content content (chunk_size self)) as [chunks|e]; simpl; [|done].
  by rewrite place_chunks_policy.
Qed.

(** C5. For every chunk [upload_file] tries the nodes in the order of the
    policy's ranking, which holds all nodes by ascending chunk count, ties
    by node id; it stores from the front of it until [replication_factor]
    stores succeeded or no node is left, and ranks again for the next chunk:
    it computes what [policy_upload] computes. *)
Theorem upload_file_follows_policy (self : DFS) (filename : string) (content : bytes) :
  nodes_indexed self -> 1 <= replication_factor self ->
  upload_file self filename content = policy_upload self filename content
  /\ nodes_by_load self = map node_id (policy_ranking (nodes self))
  /\ StronglySorted rank_le (policy_ranking (nodes self))
  /\ policy_ranking (nodes self) ≡ₚ nodes self.
Proof.
  intros Hi Hrf. split; [by apply upload_file_policy|].
  split; [by apply nodes_by_load_policy|].
  split; [apply policy_ranking_sorted|apply policy_ranking_perm].
Qed.

(* ================================================================= *)
(** * What placing one chunk does to the state *)

Lemma policy_select_elem needed ranked x :
  x ∈ policy_select needed ranked -> x ∈ ranked /\ accepts x = true.
Proof.
  revert needed. induction ranked as [|y ranked IH]; intros needed; simpl.
  { destruct needed; by intros ?%elem_of_nil. }
  destruct needed as [|needed]; [by intros ?%elem_of_nil|].
  destruct (accepts y) eqn:Hy.
  - intros [->|Hin]%elem_of_cons; [split; [by left|done]|].
    apply IH in Hin as [? ?]. split; [by right|done].
  - intros Hin. apply IH in Hin as [? ?]. split; [by right|done].
Qed.

Lemma policy_select_sublist needed ranked : sublist (policy_select needed ranked) ranked.
Proof.
  revert needed. induction ranked as [|y ranked IH]; intros needed; simpl.
  { destruct needed; constructor. }
  destruct needed as [|needed]; [apply sublist_nil_l|].
  destruct (accepts y); [by apply sublist_skip|by apply sublist_cons].
Qed.

Lemma policy_select_length needed ranked : length (policy_select needed ranked) <= needed.
Proof.
  revert needed. induction ranked as [|y ranked IH]; intros needed; simpl.
  { destruct needed; simpl; lia. }
  destruct needed as [|needed]; simpl; [lia|].
  destruct (accepts y); simpl; [specialize (IH needed)|specialize (IH (S needed))]; lia.
Qed.

Lemma policy_select_nonempty needed ranked x :
  x ∈ ranked -> accepts x = true -> policy_select (S needed) ranked <> [].
Proof.
  induction ranked as [|y ranked IH]; [by intros ?%elem_of_nil|].
  intros Hin Hx. simpl. destruct (accepts y) eqn:Hy; [done|].
  apply elem_of_cons in Hin as [->|Hin]; [congruence|by apply IH].
Qed.

(** The ids of the nodes chosen for a chunk: distinct, each the position of
    an accepting node. *)
Lemma policy_targets_ids self :
  nodes_indexed self ->
  let ids := map node_id (policy_targets (nodes self) (replication_factor self)) in
  NoDup ids
  /\ length ids <= replication_factor self
  /\ forall r, r ∈ ids -> exists x, nodes self !! r = Some x /\ accepts x = true.
Proof.
  intros Hi ids. split; [|split].
  - unfold ids, policy_targets.
    apply (sublist_NoDup _ (node_id <$> policy_ranking (nodes self))).
    + rewrite policy_ranking_perm.
      change (NoDup (map node_id (nodes self))).
      rewrite nodes_indexed_ids by done. apply NoDup_seq.
    + apply (fmap_sublist node_id), policy_select_sublist.
  - unfold ids. rewrite length_map. apply policy_select_length.
  - intros r [x [-> Hx]]%list_elem_of_fmap.
    apply policy_select_elem in Hx as [Hx Hacc].
    exists x. split; [|done]. apply nodes_indexed_elem; [done|].
    revert Hx. by rewrite policy_ranking_perm.
Qed.

Lemma store_chunk_accepted x chunk_id chunk :
  accepts x = true -> store_chunk x chunk_id chunk = (true, stored chunk_id chunk x).
Proof. unfold store_chunk, accepts, stored. by intros ->. Qed.

Lemma policy_store_accepted file_hash chunk_id chunk self r x :
  nodes self !! r = Some x -> accepts x = true ->
  policy_store file_hash chunk_id chunk self r
  = metadata_append (set_node self r (stored chunk_id chunk x)) file_hash (r, chunk_id).
Proof. intros Hr Hx. unfold policy_store. by rewrite Hr, store_chunk_accepted. Qed.

Lemma records_metadata_append self file_hash rec file_hash' :
  records (metadata_append self file_hash rec) file_hash'
  = if String.eqb file_hash file_hash'
    then records self file_hash ++ [rec] else records self file_hash'.
Proof.
  unfold records at 1. simpl.
  destruct (String.eqb_spec file_hash file_hash') as [<-|Hne].
  - by rewrite od_get_set_eq.
  - by rewrite od_get_set_ne.
Qed.

Lemma od_get_metadata_append self file_hash rec :
  od_get (metadata (metadata_append self file_hash rec)) file_hash
  = Some (records self file_hash ++ [rec]).
Proof. simpl. apply od_get_set_eq. Qed.

Lemma od_get_metadata_append_ne self file_hash rec file_hash' :
  file_hash <> file_hash' ->
  od_get (metadata (metadata_append self file_hash rec)) file_hash'
  = od_get (metadata self) file_hash'.
Proof. intros. simpl. by apply od_get_set_ne. Qed.

(** Storing one chunk on the accepting nodes [ids]. *)
Lemma fold_policy_store file_hash chunk_id chunk ids : forall self,
  NoDup ids ->
  (forall r, r ∈ ids -> exists x, nodes self !! r = Some x /\ accepts x = true) ->
  let self' := fold_left (policy_store file_hash chunk_id chunk) ids self in
  records self' file_hash = records self file_hash ++ map (fun r => (r, chunk_id)) ids
  /\ (forall other, other <> file_hash ->
        od_get (metadata self') other = od_get (metadata self) other)
  /\ (ids <> [] -> od_get (metadata self') file_hash = Some (records self' file_hash))
  /\ (forall r, nodes self' !! r
        = if decide (r ∈ ids) then stored chunk_id chunk <$> nodes self !! r
          else nodes self !! r).
Proof.
  induction ids as [|r ids IH]; intros self Hnd Hacc; cbn zeta.
  { simpl. rewrite app_nil_r. repeat split; done. }
  apply NoDup_cons in Hnd as [Hr Hnd].
  destruct (Hacc r) as (x & Hx & Hax); [by left|].
  cbn [fold_left]. rewrite (policy_store_accepted _ _ _ _ _ x) by done.
  set (s1 := metadata_append (set_node self r (stored chunk_id chunk x))
                             file_hash (r, chunk_id)).
  destruct (IH s1 Hnd) as (Hrec & Hoth & Hkey & Hnodes).
  { intros r' Hr'. destruct (Hacc r') as (x' & Hx' & Hax'); [by right|].
    exists x'. split; [|done]. simpl. rewrite list_lookup_insert_ne; [done|].
    intros ->. done. }
  split; [|split; [|split]].
  - rewrite Hrec. unfold s1. rewrite records_metadata_append, String.eqb_refl.
    by rewrite <- app_assoc.
  - intros other Hne. rewrite Hoth by done. unfold s1.
    by rewrite od_get_metadata_append_ne.
  - intros _. destruct ids as [|r2 ids]; [|by apply Hkey].
    cbn [fold_left]. unfold s1.
    by rewrite od_get_metadata_append, records_metadata_append, String.eqb_refl.
  - intros r'. rewrite Hnodes. simpl.
    destruct (decide (r' = r)) as [->|Hne].
    + rewrite decide_False by done. rewrite decide_True by (by left).
      rewrite list_lookup_insert_eq by (by eapply lookup_lt_Some). by rewrite Hx.
    + rewrite list_lookup_insert_ne by done.
      destruct (decide (r' ∈ ids)) as [Hin|Hnin].
      * by rewrite decide_True by (by right).
      * rewrite decide_False; [done|]. by intros [?|?]%elem_of_cons.
Qed.

(** ** Free room *)

Lemma sum_list_insert {A} (f : A -> nat) (l : list A) r x x' :
  l !! r = Some x ->
  sum_list (map f (<[r := x']> l)) + f x = sum_list (map f l) + f x'.
Proof.
  revert r. induction l as [|y l IH]; intros r; [done|].
  destruct r as [|r]; simpl.
  - intros [= ->]. lia.
  - intros Hr. specialize (IH r Hr). lia.
Qed.

Lemma room_stored chunk_id chunk x : room x <= S (room (stored chunk_id chunk x)).
Proof.
  unfold room, stored; simpl. destruct (active x); [|lia].
  pose proof (size_insert_le (storage x) chunk_id chunk). lia.
Qed.

Lemma room_accepts x : 1 <= room x <-> accepts x = true.
Proof.
  unfold room, accepts. destruct (active x); simpl.
  - rewrite andb_true_r, Nat.ltb_lt. lia.
  - rewrite andb_false_r. split; [lia|done].
Qed.

Lemma free_accepting self :
  1 <= free self -> exists x, x ∈ nodes self /\ accepts x = true.
Proof.
  unfold free. induction (nodes self) as [|y l IH]; simpl; [lia|].
  intros H. destruct (accepts y) eqn:Hy.
  - exists y. split; [by left|done].
  - assert (room y = 0).
    { destruct (room y) eqn:E; [done|].
      assert (accepts y = true) by (apply room_accepts; lia). congruence. }
    destruct IH as (x & ? & ?); [lia|]. exists x. split; [by right|done].
Qed.

Lemma free_fold_policy_store file_hash chunk_id chunk ids : forall self,
  NoDup ids ->
  (forall r, r ∈ ids -> exists x, nodes self !! r = Some x /\ accepts x = true) ->
  free self <= free (fold_left (policy_store file_hash chunk_id chunk) ids self)
               + length ids.
Proof.
  induction ids as [|r ids IH]; intros self Hnd Hacc; simpl; [lia|].
  apply NoDup_cons in Hnd as [Hr Hnd].
  destruct (Hacc r) as (x & Hx & Hax); [by left|].
  rewrite (policy_store_accepted _ _ _ _ _ x) by done.
  set (s1 := metadata_append (set_node self r (stored chunk_id chunk x))
                             file_hash (r, chunk_id)).
  assert (H1 : free self <= S (free s1)).
  { unfold free, s1. simpl.
    pose proof (sum_list_insert room (nodes self) r x (stored chunk_id chunk x) Hx).
    pose proof (room_stored chunk_id chunk x). lia. }
  specialize (IH s1 Hnd). etrans; [apply H1|].
  assert (free s1 <= free (fold_left (policy_store file_hash chunk_id chunk) ids s1)
                     + length ids); [|lia].
  apply IH. intros r' Hr'. destruct (Hacc r') as (x' & Hx' & Hax'); [by right|].
  exists x'. split; [|done]. simpl. rewrite list_lookup_insert_ne; [done|].
  intros ->. done.
Qed.

(* ================================================================= *)
(** * Splitting the content into chunks *)

Lemma slice_chunk (b : bytes) i cs : slice b i (i + cs) = take cs (drop i b).
Proof. unfold slice. by replace (i + cs - i) with cs by lia. Qed.

Lemma chunk_count_covers len cs : cs <> 0 -> len <= chunk_count len cs * cs.
Proof.
  intros Hcs. unfold chunk_count.
  pose proof (Nat.div_mod_eq (len + (cs - 1)) cs).
  pose proof (Nat.mod_upper_bound (len + (cs - 1)) cs Hcs). nia.
Qed.

Lemma chunk_count_tight len cs k :
  cs <> 0 -> k < chunk_count len cs -> k * cs < len.
Proof.
  intros Hcs. unfold chunk_count.
  pose proof (Nat.div_mod_eq (len + (cs - 1)) cs). nia.
Qed.

Lemma split_content_chunks (content : bytes) cs :
  cs <> 0 ->
  split_content content cs
  = Ok (map (fun k => take cs (drop (k * cs) content))
            (seq 0 (chunk_count (length content) cs))).
Proof.
  intros Hcs. rewrite split_content_ok by done. f_equal.
  rewrite map_map, Nat.sub_0_r. apply map_ext. intros k. simpl. apply slice_chunk.
Qed.

Lemma concat_chunks cs n : forall content : bytes,
  length content <= n * cs ->
  concat (map (fun k => take cs (drop (k * cs) content)) (seq 0 n)) = content.
Proof.
  induction n as [|n IH]; intros content Hlen.
  - simpl in *. destruct content; [done|simpl in Hlen; lia].
  - cbn [seq map concat]. rewrite <- seq_shift, map_map.
    transitivity (take cs content ++ drop cs content); [|apply take_drop].
    f_equal.
    rewrite <- (IH (drop cs content)) by (rewrite length_drop; lia).
    f_equal. apply map_ext. intros k. by rewrite drop_drop.
Qed.

(** The chunks of a content: they concatenate to the content, none of them
    is empty, and there are [chunk_count] of them. *)
Lemma split_content_spec (content : bytes) cs :
  cs <> 0 ->
  exists chunks,
    split_content content cs = Ok chunks
    /\ concat chunks = content
    /\ Forall (fun c => truthy c = true) chunks
    /\ length chunks = chunk_count (length content) cs.
Proof.
  intros Hcs. eexists. split; [by apply split_content_chunks|].
  split; [|split].
  - apply concat_chunks, chunk_count_covers. done.
  - apply Forall_forall. intros c [k [-> Hk]]%list_elem_of_fmap.
    apply elem_of_seq in Hk as [_ Hk]. simpl in Hk.
    pose proof (chunk_count_tight _ _ _ Hcs Hk) as Hlt.
    destruct (take cs (drop (k * cs) content)) eqn:E; [|done].
    apply (f_equal length) in E. rewrite length_take, length_drop in E.
    simpl in E. lia.
  - by rewrite length_map, length_seq.
Qed.

(* ================================================================= *)
(** * download_file on the records of an upload *)

Lemma od_set_twice {V} (d : odict V) k v : od_set (od_set d k v) k v = od_set d k v.
Proof. apply od_set_same, od_get_set_eq. Qed.

Lemma fetch_chunks_held self chunk_id chunk r recs acc :
  holds self chunk_id chunk r -> truthy chunk = true ->
  fetch_chunks self ((r, chunk_id) :: recs) acc
  = fetch_chunks self recs (od_set acc chunk_id chunk).
Proof.
  intros (x & Hx & Ha & Hs) Ht. cbn [fetch_chunks]. unfold index. rewrite Hx. simpl.
  unfold retrieve_chunk. by rewrite Ha, Hs, Ht.
Qed.

Lemma fetch_chunks_block_again self chunk_id chunk ids rest acc :
  (forall r, r ∈ ids -> holds self chunk_id chunk r) -> truthy chunk = true ->
  fetch_chunks self (map (fun r => (r, chunk_id)) ids ++ rest) (od_set acc chunk_id chunk)
  = fetch_chunks self rest (od_set acc chunk_id chunk).
Proof.
  intros Hh Ht. induction ids as [|r ids IH]; [done|].
  cbn [map app]. rewrite (fetch_chunks_held _ _ chunk) by (done || apply Hh; by left).
  rewrite od_set_twice. apply IH. intros r' Hr'. apply Hh. by right.
Qed.

Lemma fetch_chunks_block self chunk_id chunk ids rest acc :
  ids <> [] ->
  (forall r, r ∈ ids -> holds self chunk_id chunk r) -> truthy chunk = true ->
  fetch_chunks self (map (fun r => (r, chunk_id)) ids ++ rest) acc
  = fetch_chunks self rest (od_set acc chunk_id chunk).
Proof.
  intros Hne Hh Ht. destruct ids as [|r ids]; [done|].
  cbn [map app]. rewrite (fetch_chunks_held _ _ chunk) by (done || apply Hh; by left).
  apply fetch_chunks_block_again; [|done]. intros r' Hr'. apply Hh. by right.
Qed.

Lemma covers_fetch self file_hash items recs :
  covers self file_hash items recs ->
  Forall (fun ic => truthy (snd ic) = true) items ->
  forall rest acc,
    fetch_chunks self (recs ++ rest) acc
    = fetch_chunks self rest
        (fold_left (fun a ic => od_set a (chunk_id_of file_hash (fst ic)) (snd ic))
                   items acc).
Proof.
  induction 1 as [|items recs i chunk ids Hc IH Hne Hh]; intros Ht rest acc; [done|].
  apply Forall_app in Ht as [Ht1 Ht2]. apply Forall_cons in Ht2 as [Ht2 _].
  rewrite <- app_assoc, IH by done.
  rewrite (fetch_chunks_block _ _ chunk) by done. by rewrite fold_left_app.
Qed.

Lemma covers_mono self self' file_hash items recs :
  covers self file_hash items recs ->
  (forall i chunk r, (i, chunk) ∈ items ->
     holds self (chunk_id_of file_hash i) chunk r ->
     holds self' (chunk_id_of file_hash i) chunk r) ->
  covers self' file_hash items recs.
Proof.
  induction 1 as [|items recs i chunk ids Hc IH Hne Hh]; intros Hmono;
    [apply covers_nil|apply covers_snoc].
  - apply IH. intros j c r Hin. apply Hmono. apply elem_of_app. by left.
  - done.
  - intros r Hr. apply Hmono; [|by apply Hh].
    apply elem_of_app. right. by left.
Qed.

Lemma covers_nonempty self file_hash items recs :
  covers self file_hash items recs -> items <> [] -> recs <> [].
Proof.
  destruct 1 as [|items recs i chunk ids Hc Hne Hh]; [done|]. intros _.
  destruct ids as [|r ids]; [done|]. by destruct recs.
Qed.

(** Distinct chunk indices give distinct keys, which the dict keeps in the
    order of their first insertion. *)
Lemma fold_od_set_items file_hash items : forall acc,
  NoDup (map fst items) ->
  (forall ic, ic ∈ items -> od_get acc (chunk_id_of file_hash (fst ic)) = None) ->
  fold_left (fun a ic => od_set a (chunk_id_of file_hash (fst ic)) (snd ic)) items acc
  = acc ++ chunk_items file_hash items.
Proof.
  induction items as [|[i c] items IH]; intros acc Hnd Hfresh; simpl.
  { by rewrite app_nil_r. }
  apply NoDup_cons in Hnd as [Hi Hnd].
  rewrite od_set_fresh by (apply (Hfresh (i, c)); by left).
  rewrite IH; [by rewrite <- app_assoc|done|].
  intros [j c'] Hin. simpl. rewrite od_get_app_fresh by (apply (Hfresh (j, c')); by right).
  destruct (String.eqb_spec (chunk_id_of file_hash i) (chunk_id_of file_hash j)) as [Heq|];
    [|done].
  apply chunk_id_of_inj in Heq as ->. destruct Hi.
  apply list_elem_of_fmap. by exists (j, c').
Qed.

Lemma rmapM_chunk_seq file_hash items :
  str_all not_underscore file_hash = true ->
  rmapM (fun x : string * bytes => k <-! chunk_seq (fst x); Ok (k, x))
        (chunk_items file_hash items)
  = Ok (map (fun ic : nat * bytes =>
               (Z.of_nat (fst ic), (chunk_id_of file_hash (fst ic), snd ic))) items).
Proof.
  intros Hh. unfold chunk_items.
  induction items as [|[i c] items IH]; [done|].
  cbn [map rmapM fst snd]. rewrite chunk_seq_chunk_id_of by done.
  cbn [rbind]. by rewrite IH.
Qed.

Lemma enumerate_from_ascending {A} (f : nat * A -> Z) (l : list A) i :
  (forall ic, f ic = Z.of_nat (fst ic)) ->
  StronglySorted (fun a b => (f a <= f b)%Z) (enumerate_from i l).
Proof.
  intros Hf. eapply StronglySorted_impl_elem; [|apply enumerate_from_positions].
  intros a b _ _. simpl. rewrite !Hf. lia.
Qed.

(** [download_file] on a state whose records of the file cover the
    enumerated chunks returns their concatenation. *)
Lemma download_file_covers self file_hash (chunks : list bytes) :
  str_all not_underscore file_hash = true ->
  chunks <> [] ->
  Forall (fun c => truthy c = true) chunks ->
  od_get (metadata self) file_hash = Some (records self file_hash) ->
  covers self file_hash (enumerate chunks) (records self file_hash) ->
  download_file self file_hash = Ok (Some (concat chunks)).
Proof.
  intros Hh Hne Ht Hkey Hcov. unfold download_file. rewrite Hkey.
  pose proof (covers_fetch _ _ _ _ Hcov) as Hfetch.
  rewrite <- (app_nil_r (records self file_hash)), Hfetch.
  2: { apply Forall_forall. intros [i c] Hin%enumerate_elem_of. simpl.
       rewrite Forall_forall in Ht. apply Ht. by eapply list_elem_of_lookup_2. }
  rewrite fold_od_set_items; [| |done].
  2: { unfold enumerate. rewrite enumerate_from_fst. apply NoDup_seq. }
  simpl.
  destruct (chunk_items file_hash (enumerate chunks)) as [|item items] eqn:E.
  { destruct chunks; done. }
  rewrite <- E. rewrite rmapM_chunk_seq by done. simpl.
  rewrite sorted_ascending.
  2: { eapply (StronglySorted_fmap _ (fun a b : nat * bytes => (Z.of_nat (fst a) <= Z.of_nat (fst b))%Z));
         [|by apply (enumerate_from_ascending (fun ic => Z.of_nat (fst ic)))].
       by intros [] []. }
  f_equal. f_equal. unfold join. f_equal. rewrite map_map. simpl.
  apply enumerate_from_snd.
Qed.

(* ================================================================= *)
(** * Upload, then download *)

Lemma accepts_active x : accepts x = true -> active x = true.
Proof. unfold accepts. by intros [_ ?]%andb_prop. Qed.

Lemma holds_fold_policy_store file_hash chunk_id chunk ids self :
  NoDup ids ->
  (forall r, r ∈ ids -> exists x, nodes self !! r = Some x /\ accepts x = true) ->
  let self' := fold_left (policy_store file_hash chunk_id chunk) ids self in
  (forall r, r ∈ ids -> holds self' chunk_id chunk r)
  /\ (forall other c r, other <> chunk_id ->
        holds self other c r -> holds self' other c r).
Proof.
  intros Hnd Hacc self'.
  destruct (fold_policy_store file_hash chunk_id chunk ids self Hnd Hacc)
    as (_ & _ & _ & Hnodes).
  fold self' in Hnodes. split.
  - intros r Hr. destruct (Hacc r Hr) as (x & Hx & Hax).
    exists (stored chunk_id chunk x). rewrite Hnodes, decide_True, Hx by done.
    split; [done|]. simpl. split; [by apply accepts_active|apply lookup_insert_eq].
  - intros other c r Hne (x & Hx & Ha & Hs). unfold holds. rewrite Hnodes, Hx.
    destruct (decide (r ∈ ids)).
    + exists (stored chunk_id chunk x). split; [done|]. simpl. split; [done|].
      by rewrite lookup_insert_ne.
    + by exists x.
Qed.

Lemma policy_place_chunk_covers self file_hash items i chunk :
  nodes_indexed self -> 1 <= replication_factor self -> 1 <= free self ->
  covers self file_hash items (records self file_hash) ->
  (forall ic, ic ∈ items -> fst ic <> i) ->
  let self' := policy_place_chunk self file_hash (i, chunk) in
  covers self' file_hash (items ++ [(i, chunk)]) (records self' file_hash)
  /\ od_get (metadata self') file_hash = Some (records self' file_hash)
  /\ free self <= free self' + replication_factor self.
Proof.
  intros Hi Hrf Hfree Hcov Hidx self'.
  destruct (policy_targets_ids self Hi) as (Hnd & Hlen & Hacc).
  set (ids := map node_id (policy_targets (nodes self) (replication_factor self))) in *.
  assert (Hne : ids <> []).
  { destruct (free_accepting self Hfree) as (x & Hx & Hax).
    unfold ids, policy_targets.
    destruct (replication_factor self) as [|n] eqn:En; [lia|].
    pose proof (policy_select_nonempty n (policy_ranking (nodes self)) x) as Hsel.
    destruct (policy_select (S n) (policy_ranking (nodes self))); [|done].
    exfalso. apply Hsel; [|done..]. by rewrite policy_ranking_perm. }
  destruct (fold_policy_store file_hash (chunk_id_of file_hash i) chunk ids self Hnd Hacc)
    as (Hrec & _ & Hkey & _).
  destruct (holds_fold_policy_store file_hash (chunk_id_of file_hash i) chunk ids self
              Hnd Hacc) as (Hnew & Hold).
  pose proof (free_fold_policy_store file_hash (chunk_id_of file_hash i) chunk ids self
                Hnd Hacc) as Hfr.
  change (fold_left _ ids self) with self' in *.
  split; [|split; [by apply Hkey|lia]].
  rewrite Hrec. apply covers_snoc; [|done|done].
  eapply covers_mono; [done|]. intros j c r Hin. apply Hold.
  intros Heq%chunk_id_of_inj. by apply (Hidx (j, c)).
Qed.

Lemma policy_place_chunk_evolves self file_hash ic :
  nodes_indexed self -> 1 <= replication_factor self ->
  evolves self (policy_place_chunk self file_hash ic).
Proof.
  intros Hi Hrf. rewrite <- place_chunk_policy by done. apply evolves_place_replicas.
Qed.

Lemma upload_covers file_hash chunks : forall k self items,
  nodes_indexed self -> 1 <= replication_factor self ->
  replication_factor self * length chunks <= free self ->
  covers self file_hash items (records self file_hash) ->
  (forall ic, ic ∈ items -> fst ic < k) ->
  let self' := fold_left (fun s ic => policy_place_chunk s file_hash ic)
                         (enumerate_from k chunks) self in
  covers self' file_hash (items ++ enumerate_from k chunks) (records self' file_hash)
  /\ (chunks <> [] -> od_get (metadata self') file_hash = Some (records self' file_hash)).
Proof.
  induction chunks as [|c chunks IH]; intros k self items Hi Hrf Hfree Hcov Hidx; cbn zeta.
  { simpl. by rewrite app_nil_r. }
  cbn [enumerate_from fold_left]. simpl in Hfree.
  destruct (policy_place_chunk_covers self file_hash items k c) as (Hcov1 & Hkey1 & Hfree1);
    [done|done|nia|done| |].
  { intros ic Hin. specialize (Hidx ic Hin). lia. }
  set (s1 := policy_place_chunk self file_hash (k, c)) in *.
  pose proof (policy_place_chunk_evolves self file_hash (k, c) Hi Hrf) as Hev.
  fold s1 in Hev.
  assert (Hrf1 : replication_factor s1 = replication_factor self) by apply Hev.
  destruct (IH (S k) s1 (items ++ [(k, c)])) as (Hcov2 & Hkey2).
  - by eapply evolves_nodes_indexed.
  - lia.
  - rewrite Hrf1. nia.
  - done.
  - intros ic [Hin|Hin%list_elem_of_singleton]%elem_of_app.
    + specialize (Hidx ic Hin). lia.
    + subst ic. simpl. lia.
  - rewrite <- app_assoc in Hcov2. split; [done|]. intros _.
    destruct chunks as [|c2 chunks]; [done|]. by apply Hkey2.
Qed.

(** C1, amended. For a content that is not empty, in a state where node
    ids are positions, the file id has no records yet and the active nodes
    have free room for [replication_factor] copies of every chunk,
    [upload_file] followed by [download_file] on the returned id gives back
    exactly the content. *)
Theorem upload_then_download (self : DFS) (filename : string) (content : bytes) :
  nodes_indexed self ->
  chunk_size self <> 0 ->
  1 <= replication_factor self ->
  records self (file_id filename) = [] ->
  content <> [] ->
  replication_factor self * chunk_count (length content) (chunk_size self) <= free self ->
  exists self',
    upload_file self filename content = Ok (file_id filename, self')
    /\ download_file self' (file_id filename) = Ok (Some content).
Proof.
  intros Hi Hcs Hrf Hnew Hne Hfree.
  rewrite upload_file_policy by done. unfold policy_upload.
  destruct (split_content_spec content (chunk_size self) Hcs)
    as (chunks & -> & Hcat & Htruthy & Hlen).
  simpl. eexists. split; [done|].
  destruct (upload_covers (file_id filename) chunks 0 self []) as (Hcov & Hkey);
    [done|done|by rewrite Hlen|rewrite Hnew; constructor|by intros ? ?%elem_of_nil|].
  rewrite <- Hcat. apply download_file_covers.
  - apply hexdigest_no_underscore.
  - intros ->. simpl in Hcat. congruence.
  - done.
  - apply Hkey. intros ->. simpl in Hcat. congruence.
  - exact Hcov.
Qed.

(* ================================================================= *)
(** * The file id, and the upload of an empty content *)

(** C8. The id that [upload_file] returns is [file_id filename], the SHA-256
    hex digest of the file name: two uploads of the same name, with any
    contents and from any states, return the same id. *)
Theorem upload_file_id_by_name (s1 s2 : DFS) (filename : string) (c1 c2 : bytes) :
  chunk_size s1 <> 0 -> chunk_size s2 <> 0 ->
  exists s1' s2',
    upload_file s1 filename c1 = Ok (file_id filename, s1')
    /\ upload_file s2 filename c2 = Ok (file_id filename, s2').
Proof.
  intros H1 H2. exists (after_upload s1 filename c1), (after_upload s2 filename c2).
  split; by apply upload_file_ok.
Qed.

Lemma download_file_unknown self file_hash :
  od_get (metadata self) file_hash = None -> download_file self file_hash = Ok None.
Proof. unfold download_file. by intros ->. Qed.

(** C10. Uploading an empty content returns the file id and leaves the
    state as it was: no chunk is stored and no record is made. If the id had
    no entry in the metadata, it still has none, and [download_file] answers
    [None], as it does for a file that was never uploaded. *)
Theorem upload_empty_content (self : DFS) (filename : string) :
  chunk_size self <> 0 ->
  upload_file self filename [] = Ok (file_id filename, self)
  /\ (od_get (metadata self) (file_id filename) = None ->
      download_file (after_upload self filename []) (file_id filename) = Ok None).
Proof.
  intros Hcs.
  assert (Hup : upload_file self filename [] = Ok (file_id filename, self)).
  { unfold upload_file. by rewrite split_content_empty. }
  split; [done|]. intros Hnone. unfold after_upload. rewrite Hup.
  by apply download_file_unknown.
Qed.

(* ================================================================= *)
(** * Well-formed metadata in every reachable state *)

Lemma od_set_elem_of {V} (d : odict V) k v k' v' :
  (k', v') ∈ od_set d k v -> (k', v') ∈ d \/ (k' = k /\ v' = v).
Proof.
  induction d as [|[k0 v0] d IH]; simpl.
  - intros [= -> ->]%list_elem_of_singleton. by right.
  - destruct (String.eqb_spec k0 k) as [->|Hne].
    + intros [[= -> ->]|Hin]%elem_of_cons; [by right|]. left. by right.
    + intros [[= -> ->]|Hin]%elem_of_cons; [left; by left|].
      destruct (IH Hin) as [?|?]; [left; by right|by right].
Qed.

Lemma od_get_elem_of {V} (d : odict V) k v : od_get d k = Some v -> (k, v) ∈ d.
Proof.
  induction d as [|[k0 v0] d IH]; simpl; [done|].
  destruct (String.eqb_spec k0 k) as [->|Hne].
  - intros [= ->]. by left.
  - intros H. right. by apply IH.
Qed.

Lemma records_elem_of self file_hash rec :
  rec ∈ records self file_hash ->
  exists recs, (file_hash, recs) ∈ metadata self /\ rec ∈ recs.
Proof.
  unfold records. destruct (od_get (metadata self) file_hash) as [recs|] eqn:E; simpl.
  - intros Hin. exists recs. split; [by apply od_get_elem_of|done].
  - by intros ?%elem_of_nil.
Qed.

Lemma metadata_wf_append self file_hash nid cid :
  metadata_wf self -> str_all not_underscore file_hash = true ->
  nid < length (nodes self) -> chunk_of file_hash cid ->
  metadata_wf (metadata_append self file_hash (nid, cid)).
Proof.
  intros Hwf Hfh Hnid Hcid fh recs Hin. simpl in *.
  apply od_set_elem_of in Hin as [Hin|[-> ->]]; [by apply Hwf|].
  split; [done|]. intros n c [Hin|[= -> ->]%list_elem_of_singleton]%elem_of_app; [|done].
  apply records_elem_of in Hin as (recs & Hrecs & Hin).
  by apply (Hwf _ _ Hrecs).
Qed.

Lemma metadata_wf_nodes self self' :
  metadata self' = metadata self -> length (nodes self') = length (nodes self) ->
  metadata_wf self -> metadata_wf self'.
Proof. intros Hm Hl Hwf fh recs. rewrite Hm, Hl. apply Hwf. Qed.

Lemma metadata_wf_set_node self r x :
  metadata_wf self -> metadata_wf (set_node self r x).
Proof. apply metadata_wf_nodes; [done|]. simpl. by rewrite length_insert. Qed.

Lemma metadata_wf_remove_stale self file_hash failed_node_id :
  str_all not_underscore file_hash = true ->
  metadata_wf self -> metadata_wf (remove_stale self file_hash failed_node_id).
Proof.
  intros Hfh Hwf fh recs Hin. simpl in *.
  apply od_set_elem_of in Hin as [Hin|[-> ->]]; [by apply Hwf|].
  split; [done|]. intros n c [_ Hin]%list_elem_of_filter.
  apply records_elem_of in Hin as (recs & Hrecs & Hin).
  by apply (Hwf _ _ Hrecs).
Qed.

Lemma place_replicas_wf order : forall self file_hash chunk_id chunk placed,
  nodes_indexed self -> metadata_wf self ->
  str_all not_underscore file_hash = true -> chunk_of file_hash chunk_id ->
  metadata_wf (place_replicas self order file_hash chunk_id chunk placed).
Proof.
  induction order as [|r order IH]; intros self file_hash chunk_id chunk placed Hi Hwf Hfh Hc;
    cbn [place_replicas]; [done|].
  destruct (nodes self !! r) as [x|] eqn:Hr; [|by apply IH].
  pose proof (store_chunk_node_id x chunk_id chunk) as Hid.
  pose proof (node_evolves_store x chunk_id chunk) as Hev.
  destruct (store_chunk x chunk_id chunk) as [[] x'] eqn:E; simpl in Hid, Hev;
    [|by apply IH].
  assert (Hwf' : metadata_wf (metadata_append (set_node self r x') file_hash
                                              (node_id x', chunk_id))).
  { apply metadata_wf_append; [by apply metadata_wf_set_node|done| |done].
    simpl. rewrite length_insert, Hid, (Hi r x Hr). by eapply lookup_lt_Some. }
  destruct (S placed =? replication_factor self)%nat; [done|].
  apply IH; [|done..].
  eapply evolves_nodes_indexed; [|done].
  eapply evolves_trans; [by eapply evolves_set_node|apply evolves_metadata_append].
Qed.

Lemma upload_file_wf self filename content file_hash self' :
  nodes_indexed self -> metadata_wf self ->
  upload_file self filename content = Ok (file_hash, self') -> metadata_wf self'.
Proof.
  intros Hi Hwf. unfold upload_file.
  destruct (split_content _ _) as [chunks|]; simpl; [|done]. intros [= _ <-].
  revert self Hi Hwf. generalize (enumerate chunks).
  induction l as [|ic ics IH]; intros self Hi Hwf; simpl; [done|].
  apply IH.
  - eapply evolves_nodes_indexed; [apply evolves_place_replicas|done].
  - apply place_replicas_wf; [done|done|apply hexdigest_no_underscore|by eexists].
Qed.

Lemma fail_node_wf self r : metadata_wf self -> metadata_wf (fail_node self r).
Proof.
  unfold fail_node. destruct (nodes self !! r); [|done]. apply metadata_wf_set_node.
Qed.

Lemma scan_body_wf self failed_node_id file_hash chunk_id rec self' evs :
  nodes_indexed self -> metadata_wf self ->
  str_all not_underscore file_hash = true -> chunk_of file_hash chunk_id ->
  scan_body self failed_node_id file_hash chunk_id rec = Ok (self', evs) ->
  metadata_wf self'.
Proof.
  intros Hi Hwf Hfh Hc. unfold scan_body. destruct rec as [source_id cid].
  destruct (_ && _); [|by intros [= <- <-]].
  unfold index. destruct (nodes self !! source_id) as [source|]; simpl; [|done].
  destruct (retrieve_chunk source chunk_id) as [data|]; [|by intros [= <- <-]].
  destruct (truthy data); [|by intros [= <- <-]].
  destruct (replicate_to _ _ _ _ _) as [[r x']|] eqn:E; [|by intros [= <- <-]].
  intros [= <- <-].
  apply replicate_to_Some in E as (k & x & -> & Hk & Hst & _).
  pose proof (store_chunk_node_id x chunk_id data) as Hid. rewrite Hst in Hid.
  simpl in Hid.
  apply metadata_wf_append; [by apply metadata_wf_set_node|done| |done].
  simpl. rewrite length_insert, Hid, (Hi k x Hk). by eapply lookup_lt_Some.
Qed.

Lemma scan_records_wf fuel : forall self failed_node_id file_hash chunk_id i,
  nodes_indexed self -> metadata_wf self ->
  str_all not_underscore file_hash = true -> chunk_of file_hash chunk_id ->
  metadata_wf
    (outcome_state (snd (scan_records fuel self failed_node_id file_hash chunk_id i))).
Proof.
  induction fuel as [|fuel IH]; intros self failed_node_id file_hash chunk_id i Hi Hwf Hfh Hc;
    simpl; [done|].
  destruct (records self file_hash !! i) as [rec|]; [|done].
  destruct (scan_body _ _ _ _ _) as [[self' evs]|e] eqn:E; [|done].
  specialize (IH self' failed_node_id file_hash chunk_id (S i)).
  destruct (scan_records fuel self' _ _ _ _) as [evs' out]. simpl in *.
  apply IH; [|by eapply scan_body_wf|done..].
  eapply evolves_nodes_indexed; [by eapply scan_body_evolves|done].
Qed.

Lemma recover_chunk_wf fuel self failed_node_id fc :
  nodes_indexed self -> metadata_wf self ->
  str_all not_underscore (fst fc) = true -> chunk_of (fst fc) (snd fc) ->
  metadata_wf (outcome_state (snd (recover_chunk fuel self failed_node_id fc))).
Proof.
  intros Hi Hwf Hfh Hc. unfold recover_chunk.
  pose proof (scan_records_wf fuel self failed_node_id (fst fc) (snd fc) 0 Hi Hwf Hfh Hc)
    as H.
  destruct (scan_records _ _ _ _ _ _) as [evs [s'|e s'|s']]; simpl in *; [|done..].
  by apply metadata_wf_remove_stale.
Qed.

Lemma recover_loop_wf fuel failed_node_id affected : forall self,
  nodes_indexed self -> metadata_wf self ->
  Forall (fun fc => str_all not_underscore (fst fc) = true /\ chunk_of (fst fc) (snd fc))
         affected ->
  metadata_wf (outcome_state (snd (recover_loop fuel self failed_node_id affected))).
Proof.
  induction affected as [|fc affected IH]; intros self Hi Hwf Hall; simpl; [done|].
  apply Forall_cons in Hall as [[Hfh Hc] Hall].
  pose proof (recover_chunk_wf fuel self failed_node_id fc Hi Hwf Hfh Hc) as H.
  pose proof (recover_chunk_evolves fuel self failed_node_id fc) as Hev.
  destruct (recover_chunk _ _ _ _) as [evs [s'|e s'|s']]; simpl in *; [|done..].
  specialize (IH s').
  destruct (recover_loop fuel s' failed_node_id affected) as [evs' out]; simpl in *.
  apply IH; [by eapply evolves_nodes_indexed|done..].
Qed.

Lemma affected_chunks_wf self failed_node_id :
  metadata_wf self ->
  Forall (fun fc => str_all not_underscore (fst fc) = true /\ chunk_of (fst fc) (snd fc))
         (affected_chunks self failed_node_id).
Proof.
  intros Hwf. apply Forall_forall. intros [fh cid] Hin.
  unfold affected_chunks in Hin. apply list_elem_of_In, in_flat_map in Hin
    as ([fh' recs] & Hitem%list_elem_of_In & Hin).
  apply in_map_iff in Hin as ([nid c] & [= <- <-] & Hrec%list_elem_of_In).
  apply list_elem_of_filter in Hrec as [_ Hrec]. simpl in *.
  destruct (Hwf _ _ Hitem) as [Hfh Hall]. split; [done|]. by apply (Hall nid c).
Qed.

Lemma recover_data_wf fuel self failed_node_id :
  nodes_indexed self -> metadata_wf self ->
  metadata_wf (outcome_state (snd (recover_data fuel self failed_node_id))).
Proof.
  intros Hi Hwf. apply recover_loop_wf; [done|done|by apply affected_chunks_wf].
Qed.

Lemma step_wf s s' : nodes_indexed s -> metadata_wf s -> step s s' -> metadata_wf s'.
Proof.
  intros Hi Hwf. destruct 1 as [s f c h s' H|s r|s fuel k evs s' H].
  - by eapply upload_file_wf.
  - by apply fail_node_wf.
  - pose proof (recover_data_wf fuel s k Hi Hwf) as H'. by rewrite H in H'.
Qed.

Lemma reachable_wf s : reachable s -> metadata_wf s.
Proof.
  induction 1 as [n rf|s s' Hr IH Hstep].
  - by intros fh recs ?%elem_of_nil.
  - apply reachable_inv in Hr as (Hi & _). by eapply step_wf.
Qed.

(* ================================================================= *)
(** * When download_file answers None *)

Lemma od_set_not_nil {V} (d : odict V) k v : od_set d k v <> [].
Proof. destruct d as [|[k0 v0] d]; simpl; [done|]. by destruct (String.eqb k0 k). Qed.

Lemma od_get_set_is_Some {V} (d : odict V) k v k' :
  is_Some (od_get d k') -> is_Some (od_get (od_set d k v) k').
Proof.
  destruct (String.eqb_spec k k') as [->|Hne].
  - rewrite od_get_set_eq. by eexists.
  - by rewrite od_get_set_ne.
Qed.

Lemma od_get_None_keys {V} (d : odict V) k : od_get d k = None <-> k ∉ map fst d.
Proof.
  induction d as [|[k0 v0] d IH]; simpl.
  - split; [intros _; apply not_elem_of_nil|done].
  - rewrite not_elem_of_cons. destruct (String.eqb_spec k0 k) as [->|Hne].
    + split; [done|]. by intros [? _].
    + rewrite IH. split; [by intros ?; split|by intros [_ ?]].
Qed.

Lemma od_set_keys_present {V} (d : odict V) k v :
  is_Some (od_get d k) -> map fst (od_set d k v) = map fst d.
Proof.
  induction d as [|[k0 v0] d IH]; simpl; [by intros [? ?]|].
  destruct (String.eqb_spec k0 k) as [->|Hne]; [done|].
  intros H. simpl. by rewrite IH.
Qed.

Lemma od_set_keys_distinct {V} (d : odict V) k v :
  NoDup (map fst d) -> NoDup (map fst (od_set d k v)).
Proof.
  intros Hnd. destruct (od_get d k) as [v0|] eqn:E.
  - by rewrite od_set_keys_present.
  - rewrite od_set_fresh, map_app by done. simpl.
    apply NoDup_app. split; [done|]. split; [|apply NoDup_singleton].
    intros k' Hk' ->%list_elem_of_singleton. by apply od_get_None_keys in E.
Qed.

Lemma od_get_distinct_elem {V} (d : odict V) k v :
  NoDup (map fst d) -> (k, v) ∈ d -> od_get d k = Some v.
Proof.
  induction d as [|[k0 v0] d IH]; simpl; [by intros _ ?%elem_of_nil|].
  intros [Hk0 Hnd]%NoDup_cons [[= -> ->]|Hin]%elem_of_cons.
  - by rewrite String.eqb_refl.
  - destruct (String.eqb_spec k0 k) as [->|Hne]; [|by apply IH].
    exfalso. apply Hk0. apply (list_elem_of_fmap_2 fst) in Hin. exact Hin.
Qed.

Lemma responsive_retrieved self recs nid cid :
  (nid, cid) ∈ recs -> responsive self (nid, cid) = true ->
  exists data, retrieved self recs cid data.
Proof.
  unfold responsive. cbn [fst snd]. intros Hin.
  destruct (nodes self !! nid) as [x|] eqn:Hx; [|done].
  destruct (retrieve_chunk x cid) as [data|] eqn:Hr; [|done].
  intros Ht. exists data, nid, x. done.
Qed.

(** The loop over the records does not raise when every record names a
    position of [self.nodes]. It collects, under the chunk ids that have a
    responsive record, data that such a record retrieves; it collects
    nothing exactly when no record is responsive. *)
Lemma fetch_chunks_ok self (all : list replica) recs : forall acc,
  (forall nid cid, (nid, cid) ∈ recs ->
     nid < length (nodes self) /\ (nid, cid) ∈ all) ->
  (forall k v, (k, v) ∈ acc -> retrieved self all k v) ->
  exists chunks,
    fetch_chunks self recs acc = Ok chunks
    /\ (forall k v, (k, v) ∈ chunks -> retrieved self all k v)
    /\ (forall k, is_Some (od_get acc k) -> is_Some (od_get chunks k))
    /\ (forall rec, rec ∈ recs -> responsive self rec = true ->
          is_Some (od_get chunks (snd rec)))
    /\ (chunks = [] <->
        acc = [] /\ forallb (fun rec => negb (responsive self rec)) recs = true).
Proof.
  induction recs as [|[nid cid] recs IH]; intros acc Hrecs Hacc.
  { exists acc. simpl. split; [done|]. split; [done|]. split; [done|].
    split; [by intros ? ?%elem_of_nil|tauto]. }
  destruct (Hrecs nid cid) as [Hnid Hall]; [by left|].
  apply lookup_lt_is_Some in Hnid as [x Hx].
  cbn [fetch_chunks forallb]. unfold index. rewrite Hx. cbn [rbind].
  assert (Hrecs' : forall n c, (n, c) ∈ recs ->
                     n < length (nodes self) /\ (n, c) ∈ all).
  { intros n c Hin. apply Hrecs. by right. }
  assert (Hresp : responsive self (nid, cid)
                  = match retrieve_chunk x cid with
                    | Some data => truthy data
                    | None => false
                    end).
  { unfold responsive. cbn [fst snd]. by rewrite Hx. }
  rewrite Hresp. clear Hresp.
  assert (Hskip : forall chunks : odict bytes,
    (forall rec, rec ∈ recs -> responsive self rec = true ->
       is_Some (od_get chunks (snd rec))) ->
    responsive self (nid, cid) = false ->
    forall rec, rec ∈ (nid, cid) :: recs -> responsive self rec = true ->
      is_Some (od_get chunks (snd rec))).
  { intros chunks Hcov Hno rec [->|Hin]%elem_of_cons Hr; [congruence|by apply Hcov]. }
  destruct (retrieve_chunk x cid) as [data|] eqn:Hret.
  - destruct (truthy data) eqn:Ht.
    + destruct (IH (od_set acc cid data) Hrecs') as (chunks & -> & Hch & Hmono & Hcov & Hiff).
      { intros k v [Hin|[-> ->]]%od_set_elem_of; [by apply Hacc|].
        by exists nid, x. }
      exists chunks. split; [done|]. split; [done|]. split; [|split].
      * intros k Hk. by apply Hmono, od_get_set_is_Some.
      * intros rec [->|Hin]%elem_of_cons Hr; [|by apply Hcov].
        apply Hmono. rewrite od_get_set_eq. by eexists.
      * simpl. split.
        -- intros [Habs _]%Hiff. by apply od_set_not_nil in Habs.
        -- intros [_ [=]].
    + destruct (IH acc Hrecs' Hacc) as (chunks & -> & Hch & Hmono & Hcov & Hiff).
      exists chunks. split; [done|]. split; [done|]. split; [done|]. split; [|exact Hiff].
      apply Hskip; [done|]. unfold responsive. cbn [fst snd]. by rewrite Hx, Hret.
  - destruct (IH acc Hrecs' Hacc) as (chunks & -> & Hch & Hmono & Hcov & Hiff).
    exists chunks. split; [done|]. split; [done|]. split; [done|]. split; [|exact Hiff].
    apply Hskip; [done|]. unfold responsive. cbn [fst snd]. by rewrite Hx, Hret.
Qed.

Lemma rmapM_chunk_seq_ok file_hash (chunks : odict bytes) :
  str_all not_underscore file_hash = true ->
  (forall k v, (k, v) ∈ chunks -> chunk_of file_hash k) ->
  exists keyed,
    rmapM (fun x : string * bytes => k <-! chunk_seq (fst x); Ok (k, x)) chunks = Ok keyed
    /\ map snd keyed = chunks
    /\ Forall (fun kx => chunk_seq (fst (snd kx)) = Ok (fst kx)) keyed.
Proof.
  intros Hfh. induction chunks as [|[k v] chunks IH]; intros Hall.
  { exists []. by repeat split. }
  destruct (Hall k v) as [i ->]; [by left|].
  destruct IH as (keyed & Hk & Hsnd & Hseq); [intros k' v' Hin; eapply Hall; by right|].
  exists ((Z.of_nat i, (chunk_id_of file_hash i, v)) :: keyed).
  cbn [rmapM fst]. rewrite chunk_seq_chunk_id_of by done. cbn [rbind].
  rewrite Hk. simpl. rewrite Hsnd. split; [done|]. split; [done|].
  constructor; [|done]. simpl. by apply chunk_seq_chunk_id_of.
Qed.

Lemma concat_truthy (l : list bytes) :
  l <> [] -> Forall (fun c => truthy c = true) l -> concat l <> [].
Proof.
  destruct l as [|c l]; [done|]. intros _ [Hc _]%Forall_cons. simpl.
  by destruct c.
Qed.

Lemma sorted_by_key {A} (key : A -> Z) (l : list A) :
  StronglySorted (fun a b => (key a <= key b)%Z) (sorted key l).
Proof.
  eapply StronglySorted_impl_elem;
    [|apply (sorted_strongly_sorted key (fun _ => 0))].
  - intros a b _ _. apply key_pos_le_key.
  - induction l; constructor; [done|]. by apply Forall_forall.
Qed.

Lemma od_get_Some_elem_of {V} (d : odict V) k :
  is_Some (od_get d k) -> exists v, (k, v) ∈ d.
Proof. intros [v Hv]. exists v. by apply od_get_elem_of. Qed.

(** The dict that the loop fills has every chunk id once. *)
Lemma fetch_chunks_keys_distinct self recs : forall acc chunks,
  NoDup (map fst acc) -> fetch_chunks self recs acc = Ok chunks ->
  NoDup (map fst chunks).
Proof.
  induction recs as [|[nid cid] recs IH]; intros acc chunks Hnd; cbn [fetch_chunks].
  { by intros [= <-]. }
  destruct (index (nodes self) nid) as [x|e]; cbn [rbind]; [|done].
  destruct (retrieve_chunk x cid) as [data|]; [|by apply IH].
  destruct (truthy data); [|by apply IH].
  apply IH. by apply od_set_keys_distinct.
Qed.

Lemma sorted_strictly {A} (key : A -> Z) (l : list A) :
  NoDup (map key l) ->
  StronglySorted (fun a b => (key a <= key b)%Z) l ->
  StronglySorted (fun a b => (key a < key b)%Z) l.
Proof.
  induction l as [|a l IH]; simpl; [constructor|].
  intros [Ha Hnd]%NoDup_cons [Hs Hall]%StronglySorted_inv.
  constructor; [by apply IH|].
  apply Forall_forall. intros b Hb.
  pose proof (proj1 (Forall_forall _ _) Hall b Hb) as Hle.
  simpl in *. destruct (decide (key a = key b)) as [Heq|Hne]; [|lia].
  exfalso. apply Ha. rewrite Heq. by apply (list_elem_of_fmap_2 key).
Qed.

(** The sequence numbers of chunk ids of one file differ when the chunk ids
    do. *)
Lemma chunk_seq_distinct file_hash (ks : list string) :
  str_all not_underscore file_hash = true ->
  Forall (chunk_of file_hash) ks -> NoDup ks -> NoDup (map chunk_seq ks).
Proof.
  intros Hfh Hall Hnd. apply (NoDup_fmap_2_strong chunk_seq); [|done].
  intros k1 k2 Hk1 Hk2.
  destruct (proj1 (Forall_forall _ _) Hall k1 Hk1) as [i ->].
  destruct (proj1 (Forall_forall _ _) Hall k2 Hk2) as [j ->].
  rewrite !chunk_seq_chunk_id_of by done. intros [= Hij]. f_equal. lia.
Qed.

(** C2, amended. In a reachable state [download_file] of a known file id
    raises nothing and answers [None] exactly when no record of the file is
    responsive. Otherwise it answers bytes that are not empty: the
    concatenation, by strictly ascending sequence number, of pieces that
    records of the file retrieve, exactly one piece for every chunk id that
    has a responsive record (no chunk id has two pieces, and no piece has a
    chunk id without such a record), whether or not every sequence number of
    the file is among them. *)
Theorem download_file_absent_iff (self : DFS) (file_hash : string) (recs : list replica) :
  reachable self ->
  od_get (metadata self) file_hash = Some recs ->
  exists res,
    download_file self file_hash = Ok res
    /\ (res = None <-> forallb (fun rec => negb (responsive self rec)) recs = true)
    /\ (forall data, res = Some data ->
          data <> []
          /\ exists pieces : list (Z * (string * bytes)),
               data = concat (map (fun p => snd (snd p)) pieces)
               /\ StronglySorted (fun a b => (fst a < fst b)%Z) pieces
               /\ NoDup (map (fun p => fst (snd p)) pieces)
               /\ Forall (fun p => chunk_seq (fst (snd p)) = Ok (fst p)
                                   /\ retrieved self recs (fst (snd p)) (snd (snd p)))
                         pieces
               /\ forall rec, rec ∈ recs -> responsive self rec = true ->
                    exists z v, (z, (snd rec, v)) ∈ pieces).
Proof.
  intros Hreach Hget. pose proof (reachable_wf _ Hreach) as Hwf.
  destruct (Hwf _ _ (od_get_elem_of _ _ _ Hget)) as [Hfh Hrecs].
  unfold download_file. rewrite Hget.
  destruct (fetch_chunks_ok self recs recs [])
    as (chunks & Hfetch & Hch & _ & Hcov & Hiff).
  { intros nid cid Hin. split; [by apply (Hrecs nid cid)|done]. }
  { by intros ? ? ?%elem_of_nil. }
  pose proof (fetch_chunks_keys_distinct self recs [] chunks (NoDup_nil_2) Hfetch) as Hkeys.
  rewrite Hfetch.
  cbn [rbind]. destruct chunks as [|item chunks].
  { exists None. split; [done|]. split; [|done]. split; [|done].
    intros _. by apply Hiff. }
  assert (Hof : forall k v, (k, v) ∈ item :: chunks -> chunk_of file_hash k).
  { intros k v (nid & x & Hin & _)%Hch. by apply (Hrecs nid k). }
  destruct (rmapM_chunk_seq_ok file_hash (item :: chunks) Hfh Hof)
    as (keyed & -> & Hsnd & Hseq).
  cbn [rbind]. eexists. split; [done|]. split.
  { split; [done|]. intros Hall. by pose proof (proj2 Hiff (conj eq_refl Hall)). }
  intros data [= <-]. unfold join.
  assert (Hkeyed : forall p, p ∈ sorted fst keyed ->
            chunk_seq (fst (snd p)) = Ok (fst p)
            /\ retrieved self recs (fst (snd p)) (snd (snd p))).
  { intros [z [k v]] Hin. rewrite sorted_perm in Hin. simpl. split.
    - rewrite Forall_forall in Hseq. by apply (Hseq (z, (k, v))).
    - apply Hch. rewrite <- Hsnd. apply list_elem_of_fmap. by exists (z, (k, v)). }
  assert (Hids : NoDup (map (fun p : Z * (string * bytes) => fst (snd p)) keyed)).
  { rewrite <- Hsnd, map_map in Hkeys. exact Hkeys. }
  assert (Hseqs : NoDup (map fst keyed)).
  { apply (NoDup_fmap_1 (fun z : Z => Ok z)).
    change (NoDup (map (fun z : Z => Ok z) (map fst keyed))). rewrite map_map.
    rewrite (map_ext_Forall _ (fun p : Z * (string * bytes) => chunk_seq (fst (snd p)))).
    - rewrite <- (map_map (fun p : Z * (string * bytes) => fst (snd p)) chunk_seq).
      apply (chunk_seq_distinct file_hash); [done| |done].
      apply Forall_forall. intros k ([z [k' v]] & -> & Hin)%list_elem_of_fmap. simpl.
      apply (Hof k' v). rewrite <- Hsnd. apply list_elem_of_fmap. by exists (z, (k', v)).
    - eapply Forall_impl; [exact Hseq|]. by intros p ->. }
  split.
  - apply concat_truthy.
    + intros Hnil. apply (f_equal length) in Hnil.
      rewrite length_map, (Permutation_length (sorted_perm fst keyed)) in Hnil.
      apply (f_equal length) in Hsnd. rewrite length_map in Hsnd. simpl in *. lia.
    + apply Forall_forall. intros c [p [-> Hin]]%list_elem_of_fmap.
      destruct (Hkeyed p Hin) as [_ (nid & x & _ & _ & _ & Ht)]. done.
  - exists (sorted fst keyed). split; [done|]. split; [|split].
    + apply sorted_strictly; [|apply sorted_by_key].
      change (NoDup (fst <$> sorted fst keyed)). by rewrite sorted_perm.
    + change (NoDup ((fun p : Z * (string * bytes) => fst (snd p)) <$> sorted fst keyed)).
      by rewrite sorted_perm.
    + split; [by apply Forall_forall|].
      intros rec Hin Hr.
      destruct (od_get_Some_elem_of _ _ (Hcov rec Hin Hr)) as (v & Hv).
      rewrite <- Hsnd in Hv. apply list_elem_of_fmap in Hv as ([z [k v']] & [= <- <-] & Hp).
      exists z, v. by rewrite sorted_perm.
Qed.

(* ================================================================= *)
(** * One record per node and chunk *)

(** Whatever the replication factor, the loop over the sorted nodes stores
    on a front part of the accepting nodes of the ranking. *)
Lemma place_replicas_select file_hash chunk_id chunk ranked : forall self placed,
  (forall x, x ∈ ranked -> nodes self !! node_id x = Some x) ->
  NoDup (map node_id ranked) ->
  exists needed,
    place_replicas self (map node_id ranked) file_hash chunk_id chunk placed
    = fold_left (policy_store file_hash chunk_id chunk)
        (map node_id (policy_select needed ranked)) self.
Proof.
  induction ranked as [|x ranked IH]; intros self placed Hx Hnd.
  { by exists 0. }
  cbn [map place_replicas]. rewrite (Hx x) by constructor.
  apply NoDup_cons in Hnd as [Hnotin Hnd].
  pose proof (store_chunk_accepts x chunk_id chunk) as Hacc.
  pose proof (store_chunk_node_id x chunk_id chunk) as Hid.
  destruct (store_chunk x chunk_id chunk) as [ok x'] eqn:E. simpl in Hacc, Hid.
  destruct ok.
  - set (self' := metadata_append (set_node self (node_id x) x') file_hash
                                  (node_id x', chunk_id)).
    assert (Hstore : policy_store file_hash chunk_id chunk self (node_id x) = self').
    { unfold policy_store. rewrite (Hx x) by constructor. rewrite E. simpl.
      unfold self'. by rewrite Hid. }
    destruct (S placed =? replication_factor self)%nat.
    + exists 1. cbn [policy_select]. rewrite <- Hacc. cbn [map fold_left].
      rewrite Hstore. by destruct ranked.
    + destruct (IH self' (S placed)) as (needed & ->); [|done|].
      * intros y Hy. simpl. rewrite list_lookup_insert_ne.
        -- apply Hx. by constructor.
        -- intros Heq. apply Hnotin. rewrite Heq. apply list_elem_of_fmap. eauto.
      * exists (S needed). cbn [policy_select]. rewrite <- Hacc. cbn [map fold_left].
        by rewrite Hstore.
  - destruct (IH self placed) as (needed & ->);
      [by intros y Hy; apply Hx; constructor|done|].
    exists needed. destruct needed as [|needed]; [by destruct ranked|].
    cbn [policy_select]. by rewrite <- Hacc.
Qed.

Lemma records_od_get self self' file_hash :
  od_get (metadata self') file_hash = od_get (metadata self) file_hash ->
  records self' file_hash = records self file_hash.
Proof. unfold records. by intros ->. Qed.

(** The records one chunk adds: its chunk id on distinct nodes. *)
Lemma place_chunk_records self file_hash ic :
  nodes_indexed self ->
  exists ids,
    NoDup ids
    /\ records (place_chunk self file_hash ic) file_hash
       = records self file_hash
         ++ map (fun r => (r, chunk_id_of file_hash (fst ic))) ids
    /\ forall other, other <> file_hash ->
         records (place_chunk self file_hash ic) other = records self other.
Proof.
  intros Hi. unfold place_chunk. rewrite nodes_by_load_policy by done.
  assert (Hel : forall x, x ∈ policy_ranking (nodes self) ->
                          nodes self !! node_id x = Some x).
  { intros x Hx. apply nodes_indexed_elem; [done|].
    revert Hx. by rewrite policy_ranking_perm. }
  assert (Hnd : NoDup (map node_id (policy_ranking (nodes self)))).
  { change (NoDup (node_id <$> policy_ranking (nodes self))).
    rewrite policy_ranking_perm.
    change (NoDup (map node_id (nodes self))).
    rewrite nodes_indexed_ids by done. apply NoDup_seq. }
  destruct (place_replicas_select file_hash (chunk_id_of file_hash (fst ic)) (snd ic)
              (policy_ranking (nodes self)) self 0 Hel Hnd) as (needed & ->).
  set (ids := map node_id (policy_select needed (policy_ranking (nodes self)))).
  assert (Hnd' : NoDup ids).
  { apply (sublist_NoDup _ (node_id <$> policy_ranking (nodes self))); [done|].
    apply (fmap_sublist node_id), policy_select_sublist. }
  destruct (fold_policy_store file_hash (chunk_id_of file_hash (fst ic)) (snd ic)
              ids self Hnd') as (Hrec & Hoth & _ & _).
  { intros r [x [-> Hx]]%list_elem_of_fmap.
    apply policy_select_elem in Hx as [Hx Hacc]. exists x. split; [by apply Hel|done]. }
  exists ids. split; [done|]. split; [done|].
  intros other Hne. by apply records_od_get, Hoth.
Qed.

Lemma place_chunks_distinct file_hash chunks : forall k self,
  nodes_indexed self -> records_distinct self ->
  (forall nid cid, (nid, cid) ∈ records self file_hash ->
     exists j, j < k /\ cid = chunk_id_of file_hash j) ->
  records_distinct (fold_left (fun s ic => place_chunk s file_hash ic)
                              (enumerate_from k chunks) self).
Proof.
  induction chunks as [|c chunks IH]; intros k self Hi Hd Hold; [done|].
  cbn [enumerate_from fold_left].
  destruct (place_chunk_records self file_hash (k, c) Hi) as (ids & Hnd & Hrec & Hoth).
  apply IH.
  - eapply evolves_nodes_indexed; [apply evolves_place_replicas|done].
  - intros fh. destruct (decide (fh = file_hash)) as [->|Hne];
      [|rewrite Hoth by done; apply Hd].
    rewrite Hrec. apply NoDup_app. split; [apply Hd|]. split.
    + intros [nid cid] Hin [r [[= -> Hcid] _]]%list_elem_of_fmap.
      destruct (Hold _ _ Hin) as (j & Hj & ->). simpl in Hcid.
      apply chunk_id_of_inj in Hcid. lia.
    + apply NoDup_fmap_2; [|done]. by intros r1 r2 [= ->].
  - intros nid cid. rewrite Hrec.
    intros [Hin|[r [[= -> ->] _]]%list_elem_of_fmap]%elem_of_app.
    + destruct (Hold _ _ Hin) as (j & Hj & ->). exists j. split; [lia|done].
    + exists k. split; [lia|done].
Qed.

Lemma fresh_invariant s : reachable_fresh s -> nodes_indexed s /\ records_distinct s.
Proof.
  induction 1 as [n rf|s s' _ [Hi Hd] Hstep].
  - split; [apply DFS_init_indexed|]. intros fh. apply NoDup_nil_2.
  - destruct Hstep as [s filename content h s' Hnew Hup|s r].
    + split; [eapply evolves_nodes_indexed; [by eapply upload_file_evolves|done]|].
      revert Hup. unfold upload_file.
      destruct (split_content _ _) as [chunks|]; simpl; [|done]. intros [= _ <-].
      apply place_chunks_distinct; [done|done|].
      intros nid cid. fold (file_id filename). rewrite Hnew. by intros ?%elem_of_nil.
    + split; [eapply evolves_nodes_indexed; [apply evolves_fail_node|done]|].
      intros fh. replace (records (fail_node s r) fh) with (records s fh); [apply Hd|].
      unfold fail_node. by destruct (nodes s !! r).
Qed.

(** C3, amended. In every state reached from a new [DFS] by uploads of
    file names whose id has no records yet, by downloads and by node
    failures, the records of every file id hold each pair of node id and
    chunk id at most once. *)
Theorem fresh_uploads_records_distinct (self : DFS) :
  reachable_fresh self -> records_distinct self.
Proof. intros H. by apply fresh_invariant in H as [_ ?]. Qed.

(* ================================================================= *)
(** * The order of appends and removal in recover_data *)

Lemma scan_body_events self failed_node_id file_hash chunk_id rec self' evs :
  scan_body self failed_node_id file_hash chunk_id rec = Ok (self', evs) ->
  exists appended,
    evs = map (EvAppend file_hash) appended
    /\ Forall (fun r : replica => snd r = chunk_id) appended
    /\ records self' file_hash = records self file_hash ++ appended.
Proof.
  unfold scan_body. destruct rec as [source_id cid].
  assert (Hskip : Ok (self, []) = Ok (self', evs) ->
    exists appended, evs = map (EvAppend file_hash) appended
      /\ Forall (fun r : replica => snd r = chunk_id) appended
      /\ records self' file_hash = records self file_hash ++ appended).
  { intros [= <- <-]. exists []. by rewrite app_nil_r. }
  destruct (_ && _); [|done].
  unfold index. destruct (nodes self !! source_id) as [source|]; simpl; [|done].
  destruct (retrieve_chunk source chunk_id) as [data|]; [|done].
  destruct (truthy data); [|done].
  destruct (replicate_to _ _ _ _ _) as [[r x']|]; [|done].
  intros [= <- <-]. exists [(node_id x', chunk_id)].
  split; [done|]. split; [by repeat constructor|].
  by rewrite records_metadata_append, String.eqb_refl.
Qed.

Lemma scan_records_events fuel : forall self failed_node_id file_hash chunk_id i,
  exists appended,
    fst (scan_records fuel self failed_node_id file_hash chunk_id i)
    = map (EvAppend file_hash) appended
    /\ Forall (fun r : replica => snd r = chunk_id) appended
    /\ records (outcome_state
                  (snd (scan_records fuel self failed_node_id file_hash chunk_id i)))
               file_hash
       = records self file_hash ++ appended.
Proof.
  induction fuel as [|fuel IH]; intros self failed_node_id file_hash chunk_id i; simpl.
  { exists []. by rewrite app_nil_r. }
  destruct (records self file_hash !! i) as [rec|];
    [|exists []; by rewrite app_nil_r].
  destruct (scan_body _ _ _ _ _) as [[self' evs]|e] eqn:E;
    [|exists []; by rewrite app_nil_r].
  apply scan_body_events in E as (app1 & -> & Hall1 & Hrec1).
  destruct (IH self' failed_node_id file_hash chunk_id (S i)) as (app2 & Hev & Hall2 & Hrec2).
  destruct (scan_records fuel self' _ _ _ _) as [evs' out]. simpl in *.
  exists (app1 ++ app2). rewrite Hev, Hrec2, Hrec1, map_app, app_assoc.
  split; [done|]. split; [by apply Forall_app|done].
Qed.

Lemma records_remove_stale self file_hash failed_node_id :
  records (remove_stale self file_hash failed_node_id) file_hash
  = filter (fun rec : replica => fst rec <> failed_node_id) (records self file_hash).
Proof. unfold records at 1. simpl. by rewrite od_get_set_eq. Qed.

(** C7, amended. The handling of one affected chunk first makes all its
    appends, each of a record of that chunk id, and only then, if the scan
    of the records came to its end, removes the records of the failed node:
    the removal is the last event, and it removes every record of the
    failed node in the file, whatever its chunk id. An interrupted or
    failing scan removes nothing. *)
Theorem recover_chunk_appends_then_removes
    (fuel : nat) (self : DFS) (failed_node_id : nat) (fc : string * string) :
  let run := recover_chunk fuel self failed_node_id fc in
  exists appended : list replica,
    Forall (fun r : replica => snd r = snd fc) appended
    /\ fst run = map (EvAppend (fst fc)) appended
                 ++ (if is_done (snd run) then [EvRemove (fst fc) failed_node_id] else [])
    /\ records (outcome_state (snd run)) (fst fc)
       = if is_done (snd run)
         then filter (fun rec : replica => fst rec <> failed_node_id)
                     (records self (fst fc) ++ appended)
         else records self (fst fc) ++ appended.
Proof.
  cbv zeta. unfold recover_chunk.
  destruct (scan_records_events fuel self failed_node_id (fst fc) (snd fc) 0)
    as (appended & Hev & Hall & Hrec).
  exists appended. split; [done|].
  destruct (scan_records _ _ _ _ _ _) as [evs [s'|e s'|s']]; simpl in *.
  - rewrite Hev. split; [done|]. by rewrite records_remove_stale, Hrec.
  - by rewrite app_nil_r.
  - by rewrite app_nil_r.
Qed.

(* ================================================================= *)
(** * Concrete runs *)

Lemma reachable_after_upload self filename content :
  reachable self -> reachable (after_upload self filename content).
Proof.
  intros Hr. unfold after_upload.
  destruct (upload_file self filename content) as [[h s']|e] eqn:E; [|done].
  eapply reach_step; [done|]. by eapply step_upload.
Qed.

Lemma reachable_fail_node self r : reachable self -> reachable (fail_node self r).
Proof. intros Hr. eapply reach_step; [done|]. apply step_fail. Qed.

Lemma reachable_dfs0 : reachable dfs0.
Proof. apply reach_init. Qed.

Lemma outcome_done (run : list event * outcome) :
  is_done (snd run) = true -> run = (fst run, Done (outcome_state (snd run))).
Proof. destruct run as [evs [s|e s|s]]; simpl; done. Qed.

(** C1, counterexample: an empty content, uploaded to a new [DFS()], is not
    given back: the claim asks for the zero bytes (that is [Some []]), the
    download answers [None]. *)
Lemma roundtrip_empty_content_counterexample :
  upload_file dfs0 "report.txt" [] = Ok (file_id "report.txt", dfs0)
  /\ download_file dfs0 (file_id "report.txt") = Ok None
  /\ download_file dfs0 (file_id "report.txt") <> Ok (Some []).
Proof. vm_compute. repeat split; done. Qed.

(** A second upload of a name with a shorter content leaves the later
    chunks of the first upload in place: the download gives 1 + 1024 + 452
    bytes, not the one byte uploaded last. *)
Lemma reupload_keeps_old_chunks :
  download_file
    (after_upload (after_upload dfs0 "a" (content_of_size 2500)) "a" (content_of_size 1))
    file_a
  = Ok (Some (content_of_size 1477)).
Proof. vm_compute. reflexivity. Qed.

Lemma upload_then_download_witness :
  exists self',
    upload_file dfs0 "report.txt" (content_of_size 2500)
    = Ok (file_id "report.txt", self')
    /\ download_file self' (file_id "report.txt") = Ok (Some (content_of_size 2500)).
Proof.
  apply (upload_then_download dfs0 "report.txt" (content_of_size 2500)).
  - apply DFS_init_indexed.
  - simpl. lia.
  - simpl. lia.
  - reflexivity.
  - vm_compute. discriminate.
  - vm_compute. lia.
Defined.

Lemma upload_file_follows_policy_witness :
  upload_file dfs0 "report.txt" (content_of_size 2500)
  = policy_upload dfs0 "report.txt" (content_of_size 2500)
  /\ nodes_by_load dfs0 = map node_id (policy_ranking (nodes dfs0))
  /\ StronglySorted rank_le (policy_ranking (nodes dfs0))
  /\ policy_ranking (nodes dfs0) ≡ₚ nodes dfs0.
Proof.
  apply (upload_file_follows_policy dfs0 "report.txt" (content_of_size 2500)).
  - apply DFS_init_indexed.
  - simpl. lia.
Defined.

(** With one ranking for the whole file the second chunk would go to nodes
    0 and 1 again; [upload_file] ranks again and puts it on nodes 2 and 3. *)
Lemma ranking_is_per_chunk :
  upload_file dfs0 "a" (content_of_size 1025)
  <> upload_ranked_once dfs0 "a" (content_of_size 1025)
  /\ records (after_upload dfs0 "a" (content_of_size 1025)) file_a
     = [(0, chunk_a 0); (1, chunk_a 0); (2, chunk_a 1); (3, chunk_a 1)].
Proof.
  split; [|vm_compute; reflexivity].
  intros Heq.
  assert (H : (fun r => match r with
                        | Ok (_, s) => records s file_a
                        | Raise _ => []
                        end) (upload_file dfs0 "a" (content_of_size 1025))
              = (fun r => match r with
                          | Ok (_, s) => records s file_a
                          | Raise _ => []
                          end) (upload_ranked_once dfs0 "a" (content_of_size 1025)))
    by (by rewrite Heq).
  vm_compute in H. discriminate H.
Qed.

(** With [replication_factor = 0] the count of placed replicas never equals
    the factor, and every accepting node gets the chunk. *)
Lemma zero_replication_factor_stores_everywhere :
  map fst (records (after_upload (DFS_init 3 0) "a" (content_of_size 1)) file_a)
  = [0; 1; 2].
Proof. vm_compute. reflexivity. Qed.

Lemma upload_file_id_by_name_witness :
  exists s1' s2',
    upload_file dfs0 "a" (content_of_size 1) = Ok (file_id "a", s1')
    /\ upload_file lost_first_chunk "a" (content_of_size 2500) = Ok (file_id "a", s2').
Proof.
  apply (upload_file_id_by_name dfs0 lost_first_chunk "a"
           (content_of_size 1) (content_of_size 2500)).
  - vm_compute. lia.
  - vm_compute. lia.
Defined.

Lemma upload_empty_content_witness :
  upload_file dfs0 "report.txt" [] = Ok (file_id "report.txt", dfs0)
  /\ (od_get (metadata dfs0) (file_id "report.txt") = None ->
      download_file (after_upload dfs0 "report.txt" []) (file_id "report.txt") = Ok None).
Proof.
  apply (upload_empty_content dfs0 "report.txt"). simpl. lia.
Defined.

Lemma reachable_lost_first_chunk : reachable lost_first_chunk.
Proof. do 2 apply reachable_fail_node. apply reachable_after_upload, reachable_dfs0. Qed.

(** C2, counterexample: after the upload of 1025 bytes and the failure of
    nodes 0 and 1, chunk 0 has no responsive replica, and [download_file]
    returns the one byte of chunk 1 instead of [None]. *)
Lemma download_partial_counterexample :
  reachable lost_first_chunk
  /\ records lost_first_chunk file_a
     = [(0, chunk_a 0); (1, chunk_a 0); (2, chunk_a 1); (3, chunk_a 1)]
  /\ responsive lost_first_chunk (0, chunk_a 0) = false
  /\ responsive lost_first_chunk (1, chunk_a 0) = false
  /\ download_file lost_first_chunk file_a = Ok (Some (content_of_size 1))
  /\ download_file lost_first_chunk file_a <> Ok None.
Proof.
  split; [apply reachable_lost_first_chunk|].
  vm_compute. repeat split; done.
Qed.

Lemma download_file_absent_iff_witness :
  exists res,
    download_file lost_first_chunk file_a = Ok res
    /\ (res = None <->
        forallb (fun rec => negb (responsive lost_first_chunk rec))
                (records lost_first_chunk file_a) = true)
    /\ (forall data, res = Some data ->
          data <> []
          /\ exists pieces : list (Z * (string * bytes)),
               data = concat (map (fun p => snd (snd p)) pieces)
               /\ StronglySorted (fun a b => (fst a < fst b)%Z) pieces
               /\ NoDup (map (fun p => fst (snd p)) pieces)
               /\ Forall (fun p => chunk_seq (fst (snd p)) = Ok (fst p)
                                   /\ retrieved lost_first_chunk
                                        (records lost_first_chunk file_a)
                                        (fst (snd p)) (snd (snd p)))
                         pieces
               /\ forall rec, rec ∈ records lost_first_chunk file_a ->
                    responsive lost_first_chunk rec = true ->
                    exists z v, (z, (snd rec, v)) ∈ pieces).
Proof.
  apply (download_file_absent_iff lost_first_chunk file_a
           (records lost_first_chunk file_a)).
  - apply reachable_lost_first_chunk.
  - vm_compute. reflexivity.
Defined.

(** C3, counterexample: the third upload of the same one-byte file stores
    on node 4 and then on node 0 again, and the record of node 0 for chunk 0
    is in the metadata twice. *)
Lemma duplicate_record_counterexample :
  reachable uploaded_thrice
  /\ records uploaded_thrice file_a
     = [(0, chunk_a 0); (1, chunk_a 0); (2, chunk_a 0);
        (3, chunk_a 0); (4, chunk_a 0); (0, chunk_a 0)]
  /\ ~ NoDup (records uploaded_thrice file_a).
Proof.
  split; [do 3 apply reachable_after_upload; apply reachable_dfs0|].
  assert (H : records uploaded_thrice file_a
              = [(0, chunk_a 0); (1, chunk_a 0); (2, chunk_a 0);
                 (3, chunk_a 0); (4, chunk_a 0); (0, chunk_a 0)])
    by (vm_compute; reflexivity).
  split; [done|]. rewrite H. intros [Hnotin _]%NoDup_cons.
  apply Hnotin. do 4 right. left.
Qed.

Lemma reachable_fresh_three_left_failed : reachable_fresh three_left_failed.
Proof.
  assert (H : reachable_fresh (fail_node (fail_node dfs0 3) 4)).
  { do 2 (eapply fresh_step; [|apply fresh_fail]). apply fresh_init. }
  eapply fresh_step; [|apply fresh_fail].
  eapply fresh_step; [exact H|].
  eapply (fresh_upload _ "a" (content_of_size (148 * 1024 + 1))); [reflexivity|].
  apply upload_file_ok. simpl. lia.
Qed.

Lemma duplicates_after_sound fuel self failed_node_id file_hash :
  duplicates_after fuel self failed_node_id file_hash = true ->
  let run := recover_data fuel self failed_node_id in
  run = (fst run, Done (outcome_state (snd run)))
  /\ ~ NoDup (records (outcome_state (snd run)) file_hash).
Proof.
  unfold duplicates_after. cbv zeta.
  intros [Hdone Hdup]%andb_prop. split; [by apply outcome_done|].
  apply negb_true_iff in Hdup. by apply bool_decide_eq_false_1 in Hdup.
Qed.

(** [recover_data] itself can record a pair twice, from a state reached by
    uploads of new names and failures only: with nodes 3 and 4 failed, a
    file of 149 chunks leaves nodes 0, 1, 2 with 100, 99 and 99 chunks; when
    node 0 fails, the recovery of chunk 0 appends the record of node 2 and
    then, scanning that new record, the record of node 1 once more. *)
Lemma recover_data_duplicates_record :
  exists evs self',
    reachable_fresh three_left_failed
    /\ recover_data 400 three_left_failed 0 = (evs, Done self')
    /\ ~ NoDup (records self' file_a).
Proof.
  assert (Hcheck : duplicates_after 400 three_left_failed 0 file_a = true)
    by (vm_compute; reflexivity).
  destruct (duplicates_after_sound _ _ _ _ Hcheck) as (Hrun & Hdup).
  do 2 eexists. split; [apply reachable_fresh_three_left_failed|].
  split; [exact Hrun|exact Hdup].
Qed.

Lemma fresh_uploads_records_distinct_witness :
  records_distinct (fail_node (after_upload dfs0 "a" (content_of_size 2500)) 0).
Proof.
  apply (fresh_uploads_records_distinct
           (fail_node (after_upload dfs0 "a" (content_of_size 2500)) 0)).
  eapply fresh_step; [|apply fresh_fail].
  eapply fresh_step; [apply fresh_init|].
  eapply (fresh_upload dfs0 "a" (content_of_size 2500)); [reflexivity|].
  apply upload_file_ok. simpl. lia.
Defined.

Lemma reachable_two_failed : reachable two_failed.
Proof. do 2 apply reachable_fail_node. apply reachable_after_upload, reachable_dfs0. Qed.

(** C7, counterexample: node 0 held chunks 0 and 2 of the file. Handling
    chunk 0 ends by removing both records of node 0; the record of chunk 2
    is gone before any replacement of chunk 2 was tried, and the append of
    the new record of chunk 2 comes after that removal. *)
Lemma removal_before_append_counterexample :
  reachable two_failed
  /\ affected_chunks two_failed 0 = [(file_a, chunk_a 0); (file_a, chunk_a 2)]
  /\ fst (recover_chunk 12 two_failed 0 (file_a, chunk_a 0)) = [EvRemove file_a 0]
  /\ records (outcome_state (snd (recover_chunk 12 two_failed 0 (file_a, chunk_a 0))))
             file_a
     = [(1, chunk_a 0); (2, chunk_a 1); (3, chunk_a 1); (4, chunk_a 2)]
  /\ take 2 (fst (recover_data 12 two_failed 0))
     = [EvRemove file_a 0; EvAppend file_a (2, chunk_a 2)].
Proof.
  split; [apply reachable_two_failed|].
  vm_compute. repeat split; reflexivity.
Qed.

Lemma reachable_nearly_full_failed : reachable nearly_full_failed.
Proof. apply reachable_fail_node, reachable_after_upload, reachable_dfs0. Qed.

Lemma over_replicates_sound fuel self failed_node_id file_hash chunk_id :
  over_replicates fuel self failed_node_id file_hash chunk_id = true ->
  let run := recover_data fuel self failed_node_id in
  let self' := outcome_state (snd run) in
  has_failed self failed_node_id = true
  /\ run = (fst run, Done self')
  /\ 1 < length (List.filter (is_append file_hash chunk_id) (fst run))
  /\ replication_factor self' < replica_count chunk_id (records self' file_hash).
Proof.
  unfold over_replicates. cbv zeta.
  intros [[[Hfailed Hdone]%andb_prop Happ]%andb_prop Hcount]%andb_prop.
  split; [done|]. split; [by apply outcome_done|].
  split; [by apply Nat.ltb_lt|by apply Nat.ltb_lt].
Qed.

(** C9. After a file of 249 chunks was uploaded to a new [DFS()] and node
    1 failed, [recover_data] for node 1 comes to its end, appends two new
    records for chunk 0 (on node 3, found from the record of node 0, and on
    node 4, found from the record just appended for node 3), and leaves
    three records for chunk 0, one more than the replication factor. *)
Theorem recovery_over_replicates :
  exists (self : DFS) (failed_node_id fuel : nat) (evs : list event) (self' : DFS)
         (file_hash chunk_id : string),
    reachable self
    /\ has_failed self failed_node_id = true
    /\ recover_data fuel self failed_node_id = (evs, Done self')
    /\ 1 < length (List.filter (is_append file_hash chunk_id) evs)
    /\ replication_factor self' < replica_count chunk_id (records self' file_hash).
Proof.
  assert (Hcheck : over_replicates 600 nearly_full_failed 1 file_a (chunk_a 0) = true)
    by (vm_compute; reflexivity).
  destruct (over_replicates_sound _ _ _ _ _ Hcheck) as (Hfailed & Hrun & Happ & Hcount).
  do 7 eexists. split; [apply reachable_nearly_full_failed|].
  split; [exact Hfailed|]. split; [exact Hrun|]. split; [exact Happ|exact Hcount].
Qed.

(* ================================================================= *)
(** * recover_data scans the records it appends *)

Local Opaque file_a chunk_a one_chunk_failed ping_pong_start.

Lemma scan_records_S fuel self failed_node_id file_hash chunk_id i :
  scan_records (S fuel) self failed_node_id file_hash chunk_id i
  = match records self file_hash !! i with
    | None => ([], Done self)
    | Some rec =>
        match scan_body self failed_node_id file_hash chunk_id rec with
        | Raise e => ([], Raised e self)
        | Ok (self', evs) =>
            let '(evs', out) :=
              scan_records fuel self' failed_node_id file_hash chunk_id (S i) in
            (evs ++ evs', out)
        end
    end.
Proof. reflexivity. Qed.

(** Scanning a record of node 1 copies the chunk to node 2, scanning a
    record of node 2 copies it to node 1; the nodes stay as they are, since
    both hold the chunk already, and one more record is appended. *)
Lemma scan_body_ping_pong self k :
  nodes self = nodes ping_pong_start -> k = 1 \/ k = 2 ->
  scan_body self 0 file_a (chunk_a 0) (k, chunk_a 0)
  = Ok (metadata_append self file_a (3 - k, chunk_a 0),
        [EvAppend file_a (3 - k, chunk_a 0)]).
Proof.
  destruct self as [ns rf md cs]. cbn [nodes]. intros -> [->| ->]; vm_compute; reflexivity.
Qed.

Lemma records_single self file_hash recs :
  metadata self = [(file_hash, recs)] -> records self file_hash = recs.
Proof. unfold records. intros ->. simpl. by rewrite String.eqb_refl. Qed.

Lemma metadata_append_single self file_hash recs rec :
  metadata self = [(file_hash, recs)] ->
  metadata (metadata_append self file_hash rec) = [(file_hash, recs ++ [rec])].
Proof.
  intros Hm. unfold metadata_append. cbn [metadata].
  rewrite (records_single _ _ _ Hm), Hm. simpl. by rewrite String.eqb_refl.
Qed.

Lemma ping_pong_next self i k recs :
  nodes self = nodes ping_pong_start ->
  metadata self = [(file_a, recs)] -> length recs = S i -> k = 1 \/ k = 2 ->
  ping_pong (metadata_append self file_a (3 - k, chunk_a 0)) (S i).
Proof.
  intros Hn Hm Hl Hk. split; [exact Hn|].
  exists (recs ++ [(3 - k, chunk_a 0)]), (3 - k).
  split; [apply metadata_append_single; exact Hm|].
  split; [rewrite length_app, Hl; cbn [length]; lia|].
  split; [|lia].
  rewrite lookup_app_r by lia. replace (S i - length recs) with 0 by lia. reflexivity.
Qed.

Lemma scan_records_ping_pong fuel : forall self i,
  ping_pong self i ->
  exists evs self', scan_records fuel self 0 file_a (chunk_a 0) i = (evs, OutOfFuel self').
Proof.
  induction fuel as [|fuel IH]; intros self i (Hn & recs & k & Hm & Hl & Hi & Hk).
  { exists [], self. reflexivity. }
  rewrite scan_records_S, (records_single _ _ _ Hm), Hi, (scan_body_ping_pong self k Hn Hk).
  destruct (IH _ (S i) (ping_pong_next self i k recs Hn Hm Hl Hk)) as (evs & s' & Heq).
  rewrite Heq. eexists. eexists. reflexivity.
Qed.

Lemma ping_pong_start_spec : ping_pong ping_pong_start 2.
Proof.
  split; [reflexivity|].
  exists (records ping_pong_start file_a), 2.
  split; [vm_compute; reflexivity|]. split; [vm_compute; reflexivity|].
  split; [vm_compute; reflexivity|]. right. reflexivity.
Qed.

Lemma one_chunk_failed_scan_0 :
  records one_chunk_failed file_a !! 0 = Some (0, chunk_a 0)
  /\ scan_body one_chunk_failed 0 file_a (chunk_a 0) (0, chunk_a 0)
     = Ok (one_chunk_failed, [])
  /\ records one_chunk_failed file_a !! 1 = Some (1, chunk_a 0)
  /\ scan_body one_chunk_failed 0 file_a (chunk_a 0) (1, chunk_a 0)
     = Ok (ping_pong_start, [EvAppend file_a (2, chunk_a 0)])
  /\ affected_chunks one_chunk_failed 0 = [(file_a, chunk_a 0)].
Proof. vm_compute. repeat split; reflexivity. Qed.

(** When node 0 fails after the upload of a one-byte file to a new [DFS()]
    and [recover_data(0)] is called, the loop over the records of the file
    never ends, whatever the fuel: the chunk is copied from node 1 to node
    2, the record appended for node 2 is scanned in turn and copies the
    chunk back to node 1, and so on, one more record each time. *)
Theorem recover_data_never_ends (fuel : nat) :
  exists evs self', recover_data fuel one_chunk_failed 0 = (evs, OutOfFuel self').
Proof.
  destruct one_chunk_failed_scan_0 as (Hr0 & Hb0 & Hr1 & Hb1 & Haff).
  unfold recover_data. rewrite Haff.
  cbn [recover_loop]. unfold recover_chunk. cbn [fst snd].
  assert (Hscan : exists evs self',
            scan_records fuel one_chunk_failed 0 file_a (chunk_a 0) 0
            = (evs, OutOfFuel self')).
  { destruct fuel as [|[|fuel]].
    - eexists. eexists. reflexivity.
    - rewrite scan_records_S, Hr0, Hb0. eexists. eexists. reflexivity.
    - rewrite scan_records_S, Hr0, Hb0, scan_records_S, Hr1, Hb1.
      destruct (scan_records_ping_pong fuel _ 2 ping_pong_start_spec)
        as (evs & s' & Heq).
      rewrite Heq. eexists. eexists. reflexivity. }
  destruct Hscan as (evs & s' & Heq). rewrite Heq. eexists. eexists. reflexivity.
Qed.

Local Transparent file_a chunk_a one_chunk_failed ping_pong_start.

(* ================================================================= *)
(** * Every operation is a sequence of elementary mutations *)

Lemma store_chunk_refused x chunk_id chunk :
  accepts x = false -> store_chunk x chunk_id chunk = (false, x).
Proof. unfold store_chunk, accepts. by intros ->. Qed.

Lemma split_content_bounds (content : bytes) cs chunks :
  split_content content cs = Ok chunks ->
  cs <> 0 /\ concat chunks = content
  /\ Forall (fun c : bytes => truthy c = true /\ length c <= cs) chunks
  /\ length chunks = chunk_count (length content) cs.
Proof.
  intros Hsplit.
  assert (Hcs : cs <> 0).
  { intros ->. unfold split_content, range in Hsplit. simpl in Hsplit. done. }
  split; [done|].
  destruct (split_content_spec content cs Hcs) as (chunks' & Heq & Hcat & Htr & Hlen).
  rewrite Hsplit in Heq. injection Heq as <-.
  split; [done|]. split; [|done].
  rewrite split_content_chunks in Hsplit by done. injection Hsplit as <-.
  apply Forall_forall. intros c Hc. split.
  - by eapply (proj1 (Forall_forall _ _) Htr).
  - apply list_elem_of_fmap in Hc as (k & -> & _). rewrite length_take. lia.
Qed.

Lemma place_replicas_mutations order : forall self file_hash chunk_id chunk placed,
  truthy chunk = true -> length chunk <= chunk_size self ->
  rtc mutation self (place_replicas self order file_hash chunk_id chunk placed).
Proof.
  induction order as [|r order IH]; intros self file_hash chunk_id chunk placed Htr Hlen;
    cbn [place_replicas]; [done|].
  destruct (nodes self !! r) as [x|] eqn:Hx; [|by apply IH].
  destruct (accepts x) eqn:Hacc.
  - rewrite store_chunk_accepted by done.
    assert (Hm : mutation self
              (metadata_append (set_node self r (stored chunk_id chunk x)) file_hash
                               (node_id (stored chunk_id chunk x), chunk_id))).
    { apply (mut_store self r x file_hash chunk_id chunk); auto. }
    destruct (S placed =? replication_factor self)%nat; [by apply rtc_once|].
    eapply rtc_l; [exact Hm|]. by apply IH.
  - rewrite store_chunk_refused by done. by apply IH.
Qed.

Lemma place_chunks_mutations file_hash ics : forall self,
  Forall (fun ic : nat * bytes =>
            truthy (snd ic) = true /\ length (snd ic) <= chunk_size self) ics ->
  rtc mutation self (fold_left (fun s ic => place_chunk s file_hash ic) ics self).
Proof.
  induction ics as [|ic ics IH]; intros self Hall; simpl; [done|].
  apply Forall_cons in Hall as [[Htr Hlen] Hall].
  etrans; [by apply place_replicas_mutations|].
  apply IH. eapply Forall_impl; [exact Hall|]. intros ic' [? ?]. split; [done|].
  pose proof (evolves_place_replicas (nodes_by_load self) self file_hash
                (chunk_id_of file_hash (fst ic)) (snd ic) 0) as (Hcs & _).
  unfold place_chunk. by rewrite Hcs.
Qed.

Lemma upload_file_mutations self filename content file_hash self' :
  upload_file self filename content = Ok (file_hash, self') -> rtc mutation self self'.
Proof.
  unfold upload_file.
  destruct (split_content content (chunk_size self)) as [chunks|] eqn:Hsplit; simpl; [|done].
  intros [= _ <-]. apply split_content_bounds in Hsplit as (_ & _ & Hall & _).
  apply place_chunks_mutations.
  apply Forall_forall. intros [i c] Hic. simpl.
  apply (proj1 (Forall_forall _ _) Hall).
  apply (list_elem_of_fmap_2 snd) in Hic.
  change (c ∈ map snd (enumerate_from 0 chunks)) in Hic.
  by rewrite enumerate_from_snd in Hic.
Qed.

Lemma fail_node_mutations self r : rtc mutation self (fail_node self r).
Proof.
  unfold fail_node. destruct (nodes self !! r) as [x|] eqn:Hx; [|done].
  apply rtc_once. by apply mut_fail.
Qed.

Lemma retrieve_chunk_Some x chunk_id data :
  retrieve_chunk x chunk_id = Some data ->
  active x = true /\ storage x !! chunk_id = Some data.
Proof. unfold retrieve_chunk. by destruct (active x). Qed.

(** What [scan_body] does when it changes the state: it copies the data
    that the source of the record holds to a node that accepts it, and
    appends the record of the copy. *)
Lemma scan_body_cases self failed_node_id file_hash chunk_id rec self' evs :
  scan_body self failed_node_id file_hash chunk_id rec = Ok (self', evs) ->
  (self' = self /\ evs = [])
  \/ exists source data r x,
       snd rec = chunk_id /\ fst rec <> failed_node_id
       /\ nodes self !! fst rec = Some source
       /\ active source = true /\ storage source !! chunk_id = Some data
       /\ truthy data = true
       /\ nodes self !! r = Some x /\ accepts x = true /\ node_id x <> fst rec
       /\ self' = metadata_append (set_node self r (stored chunk_id data x)) file_hash
                                  (node_id x, chunk_id)
       /\ evs = [EvAppend file_hash (node_id x, chunk_id)].
Proof.
  unfold scan_body. destruct rec as [source_id cid].
  destruct (String.eqb cid chunk_id && negb (source_id =? failed_node_id)%nat) eqn:Hc;
    [|intros [= <- <-]; by left].
  apply andb_prop in Hc as [Hcid Hsrc].
  apply String.eqb_eq in Hcid. apply negb_true_iff, Nat.eqb_neq in Hsrc.
  unfold index. destruct (nodes self !! source_id) as [source|] eqn:Hs; simpl; [|done].
  destruct (retrieve_chunk source chunk_id) as [data|] eqn:Hret;
    [|intros [= <- <-]; by left].
  destruct (truthy data) eqn:Htr; [|intros [= <- <-]; by left].
  destruct (replicate_to _ _ _ _ _) as [[r x']|] eqn:E; [|intros [= <- <-]; by left].
  intros [= <- <-]. right.
  apply replicate_to_Some in E as (k & x & -> & Hk & Hst & Hne).
  apply retrieve_chunk_Some in Hret as [Hact Hdata].
  assert (Hacc : accepts x = true).
  { rewrite <- (store_chunk_accepts x chunk_id data). by rewrite Hst. }
  rewrite store_chunk_accepted in Hst by done. injection Hst as <-.
  exists source, data, k, x. simpl. repeat split; done.
Qed.

Lemma scan_body_mutations self failed_node_id file_hash chunk_id rec self' evs :
  scan_body self failed_node_id file_hash chunk_id rec = Ok (self', evs) ->
  rtc mutation self self'.
Proof.
  intros [[-> _]|(source & data & r & x & _ & _ & Hs & _ & Hd & Htr & Hx & Hacc & _ & -> & _)]
    %scan_body_cases; [done|].
  apply rtc_once. apply mut_store; eauto 6.
Qed.

Lemma scan_records_mutations fuel : forall self failed_node_id file_hash chunk_id i,
  rtc mutation self
    (outcome_state (snd (scan_records fuel self failed_node_id file_hash chunk_id i))).
Proof.
  induction fuel as [|fuel IH]; intros self failed_node_id file_hash chunk_id i;
    simpl; [done|].
  destruct (records self file_hash !! i) as [rec|]; [|done].
  destruct (scan_body _ _ _ _ _) as [[self' evs]|e] eqn:E; [|done].
  specialize (IH self' failed_node_id file_hash chunk_id (S i)).
  destruct (scan_records fuel self' _ _ _ _) as [evs' out]. simpl in *.
  etrans; [by eapply scan_body_mutations|done].
Qed.

Lemma recover_chunk_mutations fuel self failed_node_id fc :
  rtc mutation self (outcome_state (snd (recover_chunk fuel self failed_node_id fc))).
Proof.
  unfold recover_chunk.
  pose proof (scan_records_mutations fuel self failed_node_id (fst fc) (snd fc) 0) as H.
  destruct (scan_records _ _ _ _ _ _) as [evs [s'|e s'|s']]; simpl in *; [|done..].
  eapply rtc_r; [done|apply mut_remove].
Qed.

Lemma recover_loop_mutations fuel failed_node_id affected : forall self,
  rtc mutation self (outcome_state (snd (recover_loop fuel self failed_node_id affected))).
Proof.
  induction affected as [|fc affected IH]; intros self; simpl; [done|].
  pose proof (recover_chunk_mutations fuel self failed_node_id fc) as H.
  destruct (recover_chunk _ _ _ _) as [evs [s'|e s'|s']]; simpl in *; [|done..].
  specialize (IH s'). destruct (recover_loop _ _ _ _) as [evs' out]. simpl in *.
  by etrans.
Qed.

Lemma recover_data_mutations fuel self failed_node_id :
  rtc mutation self (outcome_state (snd (recover_data fuel self failed_node_id))).
Proof. apply recover_loop_mutations. Qed.

Lemma step_mutations s s' : step s s' -> rtc mutation s s'.
Proof.
  intros [self filename content file_hash self'' Hup|self r|self fuel k evs self'' Hrec].
  - by eapply upload_file_mutations.
  - apply fail_node_mutations.
  - pose proof (recover_data_mutations fuel self k) as H. by rewrite Hrec in H.
Qed.

(** An invariant of the mutations that holds in a new [DFS] holds in every
    reachable state. *)
Lemma reachable_mutation_ind (P : DFS -> Prop) :
  (forall num_nodes rf, P (DFS_init num_nodes rf)) ->
  (forall s s', P s -> mutation s s' -> P s') ->
  forall s, reachable s -> P s.
Proof.
  intros Hinit Hmut s Hreach.
  induction Hreach as [n rf|s s' _ IH Hstep]; [apply Hinit|].
  apply step_mutations in Hstep. clear -IH Hstep Hmut.
  induction Hstep as [|s s1 s2 Hm _ IH2]; [done|]. apply IH2. by eapply Hmut.
Qed.

(* ================================================================= *)
(** * Invariants of the mutations *)

Lemma mutation_evolves s s' : mutation s s' -> evolves s s'.
Proof.
  intros [self r x file_hash chunk_id data Hx Hacc _ _|self file_hash k|self r x Hx].
  - eapply evolves_trans; [|apply evolves_metadata_append].
    eapply evolves_set_node; [done|].
    pose proof (node_evolves_store x chunk_id data) as H.
    by rewrite store_chunk_accepted in H.
  - apply evolves_remove_stale.
  - eapply evolves_set_node; [done|apply node_evolves_fail].
Qed.

Lemma mutation_keys_distinct s s' : mutation s s' -> keys_distinct s -> keys_distinct s'.
Proof.
  unfold keys_distinct.
  intros [self r x file_hash chunk_id data _ _ _ _|self file_hash k|self r x _] Hnd; simpl.
  - by apply od_set_keys_distinct.
  - by apply od_set_keys_distinct.
  - done.
Qed.

(** The node at [nid] after the node at [r] got one more chunk or failed. *)
Lemma lookup_set_node_storage self r x x' nid y cid :
  nodes self !! r = Some x -> dom (storage x) ⊆ dom (storage x') ->
  nodes self !! nid = Some y -> is_Some (storage y !! cid) ->
  exists y', nodes (set_node self r x') !! nid = Some y' /\ is_Some (storage y' !! cid).
Proof.
  intros Hx Hsub Hy Hcid. simpl. destruct (decide (nid = r)) as [->|Hne].
  - exists x'. rewrite list_lookup_insert_eq by (by eapply lookup_lt_Some).
    split; [done|]. assert (x = y) as -> by congruence.
    apply elem_of_dom, Hsub, elem_of_dom, Hcid.
  - exists y. by rewrite list_lookup_insert_ne.
Qed.

Lemma mutation_records_stored s s' :
  mutation s s' -> nodes_indexed s -> records_stored s -> records_stored s'.
Proof.
  intros [self r x file_hash chunk_id data Hx Hacc _ _|self file_hash k|self r x Hx]
    Hidx Hrs fh recs nid cid Hin Hrec.
  - assert (Hold : forall recs0, (fh, recs0) ∈ metadata self -> (nid, cid) ∈ recs0 ->
              exists y', nodes (set_node self r (stored chunk_id data x)) !! nid = Some y'
                         /\ is_Some (storage y' !! cid)).
    { intros recs0 Hin0 Hrec0. destruct (Hrs fh recs0 nid cid Hin0 Hrec0) as (y & Hy & Hc).
      eapply lookup_set_node_storage; [done| |done..]. simpl.
      rewrite dom_insert. set_solver. }
    simpl in Hin. apply od_set_elem_of in Hin as [Hin|[-> ->]]; [by eapply Hold|].
    apply elem_of_app in Hrec as [Hrec|[= -> ->]%list_elem_of_singleton].
    + apply records_elem_of in Hrec as (recs0 & Hin0 & Hrec0). by eapply Hold.
    + rewrite (Hidx r x Hx). exists (stored chunk_id data x). simpl.
      rewrite list_lookup_insert_eq by (by eapply lookup_lt_Some).
      split; [done|]. rewrite lookup_insert_eq. by eexists.
  - simpl in Hin. apply od_set_elem_of in Hin as [Hin|[-> ->]]; [by eapply Hrs|].
    apply list_elem_of_filter in Hrec as [_ Hrec].
    apply records_elem_of in Hrec as (recs0 & Hin0 & Hrec0). by eapply Hrs.
  - destruct (Hrs fh recs nid cid Hin Hrec) as (y & Hy & Hc).
    by eapply lookup_set_node_storage.
Qed.

Lemma truthy_length (b : bytes) : truthy b = true <-> 1 <= length b.
Proof. destruct b; simpl; split; (done || lia). Qed.

Lemma mutation_data_bounded s s' : mutation s s' -> data_bounded s -> data_bounded s'.
Proof.
  intros [self r x file_hash chunk_id data Hx Hacc Htr Hsrc|self file_hash k|self r x Hx]
    Hdb r' x' cid d; simpl.
  - destruct (decide (r' = r)) as [->|Hne].
    + rewrite list_lookup_insert_eq by (by eapply lookup_lt_Some).
      intros [= <-]. simpl. destruct (decide (cid = chunk_id)) as [->|Hc].
      * rewrite lookup_insert_eq. intros [= <-].
        apply truthy_length in Htr. split; [done|].
        destruct Hsrc as [?|(k & y & Hy & Hd)]; [done|]. by eapply Hdb.
      * rewrite lookup_insert_ne by done. intros Hd. by eapply Hdb.
    + rewrite list_lookup_insert_ne by done. intros Hy Hd. by eapply Hdb.
  - intros Hy Hd. by eapply Hdb.
  - destruct (decide (r' = r)) as [->|Hne].
    + rewrite list_lookup_insert_eq by (by eapply lookup_lt_Some).
      intros [= <-]. simpl. intros Hd. by eapply Hdb.
    + rewrite list_lookup_insert_ne by done. intros Hy Hd. by eapply Hdb.
Qed.

Lemma mutation_sound s s' : sound s -> mutation s s' -> sound s'.
Proof.
  intros (Hidx & Hk & Hrs & Hdb) Hm. split; [|split; [|split]].
  - eapply evolves_nodes_indexed; [by apply mutation_evolves|done].
  - by eapply mutation_keys_distinct.
  - by eapply mutation_records_stored.
  - by eapply mutation_data_bounded.
Qed.

Lemma DFS_init_sound num_nodes rf : sound (DFS_init num_nodes rf).
Proof.
  split; [apply DFS_init_indexed|]. split; [apply NoDup_nil_2|]. split.
  - intros fh recs nid cid Hin. simpl in Hin. by apply elem_of_nil in Hin.
  - intros r x cid data Hx. apply DFS_init_lookup in Hx as ->. simpl.
    by rewrite lookup_empty.
Qed.

Lemma reachable_sound s : reachable s -> sound s.
Proof.
  apply reachable_mutation_ind; [apply DFS_init_sound|]. intros ? ?. apply mutation_sound.
Qed.

(** ** What only grows *)

Lemma grows_refl s : grows s s.
Proof. split; [|done]. by apply Forall_Forall2_diag, Forall_forall. Qed.

Lemma grows_trans s1 s2 s3 : grows s1 s2 -> grows s2 s3 -> grows s1 s3.
Proof.
  intros [Hn12 Hk12] [Hn23 Hk23]. split; [|by auto].
  eapply Forall2_trans; [|done..]. intros x y z ? ?. set_solver.
Qed.

Lemma grows_set_node self r x x' :
  nodes self !! r = Some x -> dom (storage x) ⊆ dom (storage x') ->
  grows self (set_node self r x').
Proof.
  intros Hx Hsub. split; [|done]. simpl.
  apply Forall2_same_length_lookup. split; [by rewrite length_insert|].
  intros i y y' Hy Hy'. destruct (decide (i = r)) as [->|Hne].
  - rewrite list_lookup_insert_eq in Hy' by (by eapply lookup_lt_Some).
    by assert (x = y) as <- by congruence; assert (x' = y') as <- by congruence.
  - rewrite list_lookup_insert_ne in Hy' by done. by assert (y = y') as -> by congruence.
Qed.

Lemma grows_metadata_set self md :
  (forall fh, is_Some (od_get (metadata self) fh) -> is_Some (od_get md fh)) ->
  grows self (mkDFS (nodes self) (replication_factor self) md (chunk_size self)).
Proof. intros H. split; [|done]. by apply Forall_Forall2_diag, Forall_forall. Qed.

Lemma mutation_grows s s' : mutation s s' -> grows s s'.
Proof.
  intros [self r x file_hash chunk_id data Hx _ _ _|self file_hash k|self r x Hx].
  - eapply grows_trans.
    + apply (grows_set_node self r x (stored chunk_id data x) Hx). simpl.
      rewrite dom_insert. set_solver.
    + apply grows_metadata_set. intros fh. apply od_get_set_is_Some.
  - apply grows_metadata_set. intros fh. apply od_get_set_is_Some.
  - by apply (grows_set_node self r x (fail x) Hx).
Qed.

Lemma mutations_grow s s' : rtc mutation s s' -> grows s s'.
Proof.
  induction 1 as [|s1 s2 s3 Hm _ IH]; [apply grows_refl|].
  eapply grows_trans; [by apply mutation_grows|done].
Qed.

Lemma mutations_evolve s s' : rtc mutation s s' -> evolves s s'.
Proof.
  induction 1 as [|s1 s2 s3 Hm _ IH]; [apply evolves_refl|].
  eapply evolves_trans; [by apply mutation_evolves|done].
Qed.

(* ================================================================= *)
(** * Records, stored chunks and availability *)

Lemma sound_record self file_hash rec :
  sound self -> rec ∈ records self file_hash ->
  exists x data,
    nodes self !! fst rec = Some x /\ node_id x = fst rec
    /\ storage x !! snd rec = Some data
    /\ 1 <= length data <= chunk_size self
    /\ responsive self rec = active x.
Proof.
  intros (Hidx & _ & Hrs & Hdb) Hin. destruct rec as [nid cid].
  apply records_elem_of in Hin as (recs & Hrecs & Hin).
  destruct (Hrs file_hash recs nid cid Hrecs Hin) as (x & Hx & data & Hd).
  exists x, data. simpl. split; [done|]. split; [by apply Hidx|]. split; [done|].
  pose proof (Hdb nid x cid data Hx Hd) as Hlen. split; [done|].
  unfold responsive, retrieve_chunk. simpl. rewrite Hx.
  destruct (active x); [|done]. rewrite Hd. apply truthy_length. lia.
Qed.

Lemma download_file_None_iff self file_hash recs :
  metadata_wf self -> od_get (metadata self) file_hash = Some recs ->
  (exists res, download_file self file_hash = Ok res)
  /\ (download_file self file_hash = Ok None
      <-> forallb (fun rec => negb (responsive self rec)) recs = true).
Proof.
  intros Hwf Hget.
  destruct (Hwf _ _ (od_get_elem_of _ _ _ Hget)) as [Hfh Hrecs].
  unfold download_file. rewrite Hget.
  destruct (fetch_chunks_ok self recs recs [])
    as (chunks & -> & Hch & _ & _ & Hiff).
  { intros nid cid Hin. split; [by apply (Hrecs nid cid)|done]. }
  { by intros ? ? ?%elem_of_nil. }
  cbn [rbind]. destruct chunks as [|item chunks].
  { split; [by eexists|]. split; [|done]. intros _. by apply Hiff. }
  destruct (rmapM_chunk_seq_ok file_hash (item :: chunks) Hfh) as (keyed & -> & _ & _).
  { intros k v (nid & x & Hin & _)%Hch. by apply (Hrecs nid k). }
  cbn [rbind]. split; [by eexists|]. split; [done|].
  intros Hall. by pose proof (proj2 Hiff (conj eq_refl Hall)).
Qed.

(** X3. In every reachable state a record never dangles: the node it names
    exists, has the record's node id, and has data of 1 to 1024 bytes under
    the record's chunk id in its storage (nothing is ever deleted from a
    storage). So the replica answers a retrieve with data exactly when its
    node is active. *)
Theorem record_responsive_iff_active (self : DFS) (file_hash : string) (rec : replica) :
  reachable self -> rec ∈ records self file_hash ->
  exists x data,
    nodes self !! fst rec = Some x /\ node_id x = fst rec
    /\ storage x !! snd rec = Some data
    /\ 1 <= length data <= 1024
    /\ responsive self rec = active x.
Proof.
  intros Hreach Hin.
  destruct (sound_record self file_hash rec (reachable_sound _ Hreach) Hin)
    as (x & data & Hx & Hid & Hd & Hlen & Hresp).
  destruct (reachable_inv _ Hreach) as (_ & _ & Hcs). rewrite Hcs in Hlen.
  by exists x, data.
Qed.

(** X4. In every reachable state, [download_file] of a file id listed in
    the metadata raises nothing, and it answers [None] exactly when every
    node named by a record of the file has failed (in particular when the
    file has no record left). *)
Theorem download_file_none_iff_all_failed (self : DFS) (file_hash : string)
    (recs : list replica) :
  reachable self -> od_get (metadata self) file_hash = Some recs ->
  (exists res, download_file self file_hash = Ok res)
  /\ (download_file self file_hash = Ok None
      <-> forall rec, rec ∈ recs -> has_failed self (fst rec) = true).
Proof.
  intros Hreach Hget.
  destruct (download_file_None_iff self file_hash recs (reachable_wf _ Hreach) Hget)
    as [Hok Hiff].
  split; [done|]. rewrite Hiff, forallb_forall.
  assert (Hrec : forall rec, rec ∈ recs ->
            negb (responsive self rec) = has_failed self (fst rec)).
  { intros rec Hin.
    destruct (sound_record self file_hash rec (reachable_sound _ Hreach))
      as (x & data & Hx & _ & _ & _ & ->).
    - unfold records. by rewrite Hget.
    - unfold has_failed. by rewrite Hx. }
  split.
  - intros H rec Hin. rewrite <- Hrec by done. by apply H, list_elem_of_In.
  - intros H rec Hin%list_elem_of_In. rewrite Hrec by done. by apply H.
Qed.

(** X5. In every reachable state, whatever a node has in its storage is a
    chunk of 1 to 1024 bytes: [upload_file] stores slices of [chunk_size]
    bytes at most, never an empty one, and [recover_data] only copies what
    a node already holds. *)
Theorem stored_data_is_a_chunk (self : DFS) (r : nat) (x : Node) (chunk_id : string)
    (data : bytes) :
  reachable self -> nodes self !! r = Some x -> storage x !! chunk_id = Some data ->
  1 <= length data <= 1024.
Proof.
  intros Hreach Hx Hd.
  destruct (reachable_sound _ Hreach) as (_ & _ & _ & Hdb).
  destruct (reachable_inv _ Hreach) as (_ & _ & Hcs).
  rewrite <- Hcs. by eapply Hdb.
Qed.

(* ================================================================= *)
(** * get_status *)

Lemma status_files_fold (d : odict (list replica)) : forall acc : odict nat,
  NoDup (map fst acc ++ map fst d) ->
  fold_left (fun a (item : string * list replica) => od_set a (fst item) (length (snd item)))
            d acc
  = acc ++ map (fun item : string * list replica => (fst item, length (snd item))) d.
Proof.
  induction d as [|[k v] d IH]; intros acc Hnd; simpl; [by rewrite app_nil_r|].
  rewrite od_set_fresh.
  - rewrite IH; [by rewrite <- app_assoc|].
    rewrite map_app. simpl. by rewrite <- app_assoc.
  - apply od_get_None_keys. apply NoDup_app in Hnd as (_ & Hdisj & _).
    intros Hin. apply (Hdisj k Hin). by left.
Qed.

Lemma status_files_distinct self :
  keys_distinct self ->
  status_files (get_status self)
  = map (fun item : string * list replica => (fst item, length (snd item))) (metadata self).
Proof. intros Hnd. unfold get_status. simpl. by rewrite status_files_fold. Qed.

Lemma status_files_listed (d : odict (list replica)) : forall (acc : odict nat) k,
  is_Some (od_get (fold_left (fun a (item : string * list replica) =>
                                od_set a (fst item) (length (snd item))) d acc) k)
  <-> is_Some (od_get acc k) \/ is_Some (od_get d k).
Proof.
  induction d as [|[k0 v] d IH]; intros acc k; simpl.
  - split; [by left|]. intros [?|[? ?]]; done.
  - rewrite IH. destruct (String.eqb_spec k0 k) as [->|Hne].
    + rewrite od_get_set_eq. split; [intros _; right; by eexists|intros _; left; by eexists].
    + by rewrite od_get_set_ne.
Qed.

Lemma reachable_capacity s x : reachable s -> x ∈ nodes s -> capacity x = 100.
Proof.
  intros Hreach. revert x. pattern s. revert s Hreach. apply reachable_mutation_ind.
  - intros n rf x (r & Hx)%list_elem_of_lookup. by apply DFS_init_lookup in Hx as ->.
  - intros s s' IH Hm x' (r & Hx')%list_elem_of_lookup.
    destruct (mutation_evolves _ _ Hm) as (_ & _ & Hn).
    destruct (Forall2_lookup_r _ _ _ _ _ Hn Hx') as (x & Hx & Hev).
    destruct Hev as (_ & -> & _). apply IH. by eapply list_elem_of_lookup_2.
Qed.

(** X6. What [get_status] reports in a reachable state: the nodes in the
    order of their ids 0, 1, 2, ..; for every node a chunk count of 100 at
    most; and for every file id of the metadata, once and in the order of
    the metadata, the number of its replica records (not of its chunks). *)
Theorem get_status_reachable (self : DFS) :
  reachable self ->
  map status_id (status_nodes (get_status self)) = seq 0 (length (nodes self))
  /\ Forall (fun n => status_chunks n <= 100) (status_nodes (get_status self))
  /\ status_files (get_status self)
     = map (fun item : string * list replica => (fst item, length (snd item)))
           (metadata self)
  /\ NoDup (map fst (status_files (get_status self))).
Proof.
  intros Hreach.
  destruct (reachable_sound _ Hreach) as (Hidx & Hk & _ & _).
  destruct (reachable_inv _ Hreach) as (_ & Hcap & _).
  split; [|split; [|split]].
  - unfold get_status. simpl. rewrite map_map. simpl. by apply nodes_indexed_ids.
  - unfold get_status. simpl. apply Forall_forall.
    intros n (x & -> & Hx)%list_elem_of_fmap. simpl.
    rewrite <- (reachable_capacity self x Hreach Hx).
    by apply (proj1 (Forall_forall _ _) Hcap).
  - by apply status_files_distinct.
  - rewrite status_files_distinct, map_map by done. exact Hk.
Qed.

(** X7. From one operation to the next the status only moves one way: the
    same nodes are listed, a node shown as failed is never shown as active
    again, the chunk count of a node never decreases (also when
    [recover_data] removes records: nothing is deleted from a storage), and
    a file id once listed stays listed. *)
Theorem get_status_monotone (self self' : DFS) :
  step self self' ->
  map status_id (status_nodes (get_status self'))
  = map status_id (status_nodes (get_status self))
  /\ Forall2 (fun n n' => (status_active n' = true -> status_active n = true)
                          /\ status_chunks n <= status_chunks n')
             (status_nodes (get_status self)) (status_nodes (get_status self'))
  /\ forall file_hash,
       is_Some (od_get (status_files (get_status self)) file_hash) ->
       is_Some (od_get (status_files (get_status self')) file_hash).
Proof.
  intros Hstep%step_mutations.
  destruct (mutations_evolve _ _ Hstep) as (_ & _ & Hev).
  destruct (mutations_grow _ _ Hstep) as (Hdom & Hkeys).
  unfold get_status. simpl. split; [|split].
  - rewrite !map_map. simpl. clear Hdom.
    induction Hev as [|x x' l l' (Hid & _) _ IH]; simpl; [done|]. by rewrite Hid, IH.
  - apply Forall2_fmap. apply Forall2_same_length_lookup.
    split; [by eapply Forall2_length|]. intros i x x' Hx Hx'. simpl. split.
    + by apply (Forall2_lookup_lr _ _ _ _ _ _ Hev Hx Hx').
    + assert (Hsub : dom (storage x) ⊆ dom (storage x'))
        by apply (Forall2_lookup_lr _ _ _ _ _ _ Hdom Hx Hx').
      apply subseteq_size in Hsub. by rewrite !size_dom in Hsub.
  - intros fh. rewrite !status_files_listed.
    intros [[? ?]|?]; [done|]. right. by apply Hkeys.
Qed.

(* ================================================================= *)
(** * What a completed recover_data leaves *)

Lemma evolves_alive s s' r : evolves s s' -> alive s' r -> alive s r.
Proof.
  intros (_ & _ & Hn) (x' & Hx' & Hact).
  destruct (Forall2_lookup_r _ _ _ _ _ Hn Hx') as (x & Hx & Hev).
  exists x. split; [done|]. by apply Hev.
Qed.

Lemma records_set_node self r x file_hash :
  records (set_node self r x) file_hash = records self file_hash.
Proof. reflexivity. Qed.

(** One step of the scan: the records of the file get the records of
    [appended] (one at most) at their end, each of a node that is active,
    and the other files keep their entry. *)
Lemma scan_body_appended self failed_node_id file_hash chunk_id rec self' evs :
  nodes_indexed self ->
  scan_body self failed_node_id file_hash chunk_id rec = Ok (self', evs) ->
  exists appended,
    records self' file_hash = records self file_hash ++ appended
    /\ Forall (fun rec' : replica => alive self (fst rec')) appended
    /\ forall other, other <> file_hash ->
         od_get (metadata self') other = od_get (metadata self) other.
Proof.
  intros Hidx
    [[-> _]|(source & data & r & x & _ & _ & _ & _ & _ & _ & Hx & Hacc & _ & -> & _)]
    %scan_body_cases.
  { exists []. by rewrite app_nil_r. }
  exists [(node_id x, chunk_id)]. split; [|split].
  - by rewrite records_metadata_append, String.eqb_refl, records_set_node.
  - apply Forall_singleton. simpl. exists x. rewrite (Hidx r x Hx).
    split; [done|by apply accepts_active].
  - intros other Hne. by rewrite od_get_metadata_append_ne.
Qed.

Lemma scan_records_appended fuel : forall self failed_node_id file_hash chunk_id i,
  nodes_indexed self ->
  let self' :=
    outcome_state (snd (scan_records fuel self failed_node_id file_hash chunk_id i)) in
  exists appended,
    records self' file_hash = records self file_hash ++ appended
    /\ Forall (fun rec' : replica => alive self (fst rec')) appended
    /\ forall other, other <> file_hash ->
         od_get (metadata self') other = od_get (metadata self) other.
Proof.
  induction fuel as [|fuel IH]; intros self failed_node_id file_hash chunk_id i Hidx;
    cbn zeta; simpl.
  { exists []. by rewrite app_nil_r. }
  destruct (records self file_hash !! i) as [rec|];
    [|exists []; by rewrite app_nil_r].
  destruct (scan_body _ _ _ _ _) as [[s1 evs]|e] eqn:E;
    [|exists []; by rewrite app_nil_r].
  pose proof (scan_body_evolves _ _ _ _ _ _ _ E) as Hev.
  destruct (scan_body_appended _ _ _ _ _ _ _ Hidx E) as (app1 & Hrec1 & Hal1 & Hoth1).
  destruct (IH s1 failed_node_id file_hash chunk_id (S i)) as (app2 & Hrec2 & Hal2 & Hoth2).
  { by eapply evolves_nodes_indexed. }
  destruct (scan_records fuel s1 _ _ _ _) as [evs' out]. simpl in *.
  exists (app1 ++ app2). split; [|split].
  - by rewrite Hrec2, Hrec1, app_assoc.
  - apply Forall_app. split; [done|].
    eapply Forall_impl; [exact Hal2|]. intros rec'. by apply evolves_alive.
  - intros other Hne. by rewrite Hoth2, Hoth1.
Qed.

Lemma od_get_remove_stale_ne self file_hash failed_node_id other :
  other <> file_hash ->
  od_get (metadata (remove_stale self file_hash failed_node_id)) other
  = od_get (metadata self) other.
Proof. intros Hne. simpl. by rewrite od_get_set_ne. Qed.

Lemma recover_chunk_done fuel self failed_node_id fc evs self' :
  nodes_indexed self ->
  recover_chunk fuel self failed_node_id fc = (evs, Done self') ->
  exists appended,
    records self' (fst fc)
    = filter (fun rec : replica => fst rec <> failed_node_id)
             (records self (fst fc) ++ appended)
    /\ Forall (fun rec' : replica => alive self (fst rec')) appended
    /\ forall other, other <> fst fc ->
         od_get (metadata self') other = od_get (metadata self) other.
Proof.
  intros Hidx. unfold recover_chunk.
  destruct (scan_records_appended fuel self failed_node_id (fst fc) (snd fc) 0 Hidx)
    as (appended & Hrec & Hal & Hoth).
  destruct (scan_records _ _ _ _ _ _) as [evs0 [s0|e s0|s0]]; simpl in *; [|done..].
  intros [= _ <-]. exists appended. split; [|split].
  - by rewrite records_remove_stale, Hrec.
  - done.
  - intros other Hne. by rewrite od_get_remove_stale_ne, Hoth.
Qed.

Lemma filter_filter_app {A} (P : A -> Prop) `{forall x, Decision (P x)} (l1 l2 : list A) :
  filter P (filter P l1 ++ l2) = filter P (l1 ++ l2).
Proof.
  rewrite !filter_app. f_equal.
  induction l1 as [|x l1 IH]; [done|].
  rewrite filter_cons. destruct (decide (P x)) as [Hx|Hx]; [|done].
  rewrite filter_cons, decide_True by done. by rewrite IH.
Qed.

Lemma recover_loop_done fuel failed_node_id affected : forall self evs self',
  nodes_indexed self ->
  recover_loop fuel self failed_node_id affected = (evs, Done self') ->
  forall file_hash,
    (file_hash ∉ map fst affected -> records self' file_hash = records self file_hash)
    /\ (file_hash ∈ map fst affected ->
        exists appended,
          records self' file_hash
          = filter (fun rec : replica => fst rec <> failed_node_id)
                   (records self file_hash ++ appended)
          /\ Forall (fun rec' : replica => alive self (fst rec')) appended).
Proof.
  induction affected as [|fc affected IH]; intros self evs self' Hidx; simpl.
  { intros [= _ <-] fh. split; [done|]. by intros ?%elem_of_nil. }
  destruct (recover_chunk fuel self failed_node_id fc) as [evs1 [s1|e s1|s1]] eqn:E1;
    [|done..].
  destruct (recover_loop fuel s1 failed_node_id affected) as [evs2 out2] eqn:E2.
  intros [= _ ->] fh.
  pose proof (recover_chunk_evolves fuel self failed_node_id fc) as Hev.
  rewrite E1 in Hev. simpl in Hev.
  destruct (recover_chunk_done _ _ _ _ _ _ Hidx E1) as (app1 & Hrec1 & Hal1 & Hoth1).
  assert (Hidx1 : nodes_indexed s1) by (by eapply evolves_nodes_indexed).
  destruct (IH s1 evs2 self' Hidx1 E2 fh) as [Hout Hin].
  assert (Hother : fh <> fst fc -> records s1 fh = records self fh).
  { intros Hne. apply records_od_get. by apply Hoth1. }
  split.
  - intros Hnot. apply not_elem_of_cons in Hnot as [Hne Hnot].
    rewrite Hout by done. by apply Hother.
  - intros Hfh. destruct (decide (fh ∈ map fst affected)) as [Hlater|Hlater].
    + destruct (Hin Hlater) as (app2 & Hrec2 & Hal2).
      assert (Hal2' : Forall (fun rec' : replica => alive self (fst rec')) app2).
      { eapply Forall_impl; [exact Hal2|]. intros rec'. by apply evolves_alive. }
      destruct (decide (fh = fst fc)) as [->|Hne].
      * exists (app1 ++ app2). split; [|by apply Forall_app].
        by rewrite Hrec2, Hrec1, filter_filter_app, app_assoc.
      * exists app2. split; [|done]. by rewrite Hrec2, Hother.
    + apply elem_of_cons in Hfh as [->|Hfh]; [|done].
      exists app1. split; [|done]. by rewrite Hout.
Qed.

Lemma affected_chunks_files self failed_node_id file_hash :
  file_hash ∈ map fst (affected_chunks self failed_node_id)
  <-> exists recs rec, (file_hash, recs) ∈ metadata self /\ rec ∈ recs
                       /\ fst rec = failed_node_id.
Proof.
  unfold affected_chunks. split.
  - intros ([fh cid] & -> & Hin)%list_elem_of_fmap.
    apply list_elem_of_In, in_flat_map in Hin as ([fh' recs] & Hitem%list_elem_of_In & Hin).
    apply in_map_iff in Hin as (rec & [= <- <-] & Hrec%list_elem_of_In).
    apply list_elem_of_filter in Hrec as [Hk Hrec]. simpl. by exists recs, rec.
  - intros (recs & rec & Hitem & Hrec & Hk).
    apply list_elem_of_fmap. exists (file_hash, snd rec). split; [done|].
    apply list_elem_of_In, in_flat_map. exists (file_hash, recs).
    split; [by apply list_elem_of_In|]. apply in_map_iff. exists rec.
    split; [done|]. apply list_elem_of_In, list_elem_of_filter. by split.
Qed.

Lemma filter_all {A} (P : A -> Prop) `{forall x, Decision (P x)} (l : list A) :
  (forall x, x ∈ l -> P x) -> filter P l = l.
Proof.
  induction l as [|x l IH]; intros Hall; [done|].
  rewrite filter_cons, decide_True by (apply Hall; by left).
  rewrite IH; [done|]. intros y Hy. apply Hall. by right.
Qed.

Lemma recover_data_done fuel self failed_node_id evs self' file_hash :
  nodes_indexed self ->
  recover_data fuel self failed_node_id = (evs, Done self') ->
  exists appended,
    records self' file_hash
    = filter (fun rec : replica => fst rec <> failed_node_id)
             (records self file_hash ++ appended)
    /\ Forall (fun rec' : replica => alive self (fst rec')) appended.
Proof.
  intros Hidx Hrun. unfold recover_data in Hrun.
  destruct (recover_loop_done _ _ _ _ _ _ Hidx Hrun file_hash) as [Hout Hin].
  destruct (decide (file_hash ∈ map fst (affected_chunks self failed_node_id)))
    as [Haff|Haff]; [by apply Hin|].
  exists []. split; [|done]. rewrite app_nil_r, Hout by done.
  symmetry. apply filter_all. intros rec Hrec Hk. apply Haff.
  apply affected_chunks_files.
  apply records_elem_of in Hrec as (recs & Hitem & Hrec). by exists recs, rec.
Qed.

(** With no record of the node, there is nothing to recover. *)
Lemma recover_data_unrecorded fuel self failed_node_id :
  keys_distinct self -> unrecorded self failed_node_id ->
  recover_data fuel self failed_node_id = ([], Done self).
Proof.
  intros Hk Hun. unfold recover_data.
  assert (Haff : affected_chunks self failed_node_id = []); [|by rewrite Haff].
  destruct (affected_chunks self failed_node_id) as [|[fh cid] rest] eqn:E; [done|].
  exfalso.
  assert (Hfh : fh ∈ map fst (affected_chunks self failed_node_id))
    by (rewrite E; by left).
  apply affected_chunks_files in Hfh as (recs & rec & Hitem & Hrec & Hid).
  apply (Hun fh rec); [|done].
  unfold records. by rewrite (od_get_distinct_elem _ _ _ Hk Hitem).
Qed.

Lemma recover_data_unrecorded_after fuel self failed_node_id evs self' :
  nodes_indexed self ->
  recover_data fuel self failed_node_id = (evs, Done self') ->
  unrecorded self' failed_node_id.
Proof.
  intros Hidx Hrun fh rec Hrec.
  destruct (recover_data_done _ _ _ _ _ fh Hidx Hrun) as (appended & Heq & _).
  rewrite Heq in Hrec. by apply list_elem_of_filter in Hrec as [? _].
Qed.

(** X8. When [recover_data(k)] comes to its end, no record of node [k] is
    left in any file, and the records of every file are what they were, in
    the same order, followed by the records appended meanwhile, less the
    records of [k]: no record of another node is lost, and every record
    appended names a node that is active. *)
Theorem recover_data_postcondition (fuel : nat) (self : DFS) (failed_node_id : nat)
    (evs : list event) (self' : DFS) :
  nodes_indexed self ->
  recover_data fuel self failed_node_id = (evs, Done self') ->
  unrecorded self' failed_node_id
  /\ forall file_hash,
       exists appended,
         records self' file_hash
         = filter (fun rec : replica => fst rec <> failed_node_id)
                  (records self file_hash ++ appended)
         /\ Forall (fun rec : replica => alive self (fst rec)) appended.
Proof.
  intros Hidx Hrun. split; [by eapply recover_data_unrecorded_after|].
  intros fh. by eapply recover_data_done.
Qed.

(** X9. [recover_data] is idempotent where it terminates: in a reachable
    state, once [recover_data(k)] has come to its end, a second
    [recover_data(k)] finds no affected chunk, ends at once and changes
    nothing. *)
Theorem recover_data_idempotent (fuel fuel' : nat) (self : DFS) (failed_node_id : nat)
    (evs : list event) (self' : DFS) :
  reachable self ->
  recover_data fuel self failed_node_id = (evs, Done self') ->
  recover_data fuel' self' failed_node_id = ([], Done self').
Proof.
  intros Hreach Hrun.
  assert (Hreach' : reachable self').
  { eapply reach_step; [exact Hreach|]. by eapply step_recover. }
  apply recover_data_unrecorded.
  - by apply reachable_sound.
  - eapply recover_data_unrecorded_after; [|exact Hrun]. by apply reachable_inv.
Qed.

(* ================================================================= *)
(** * monitor_nodes *)

Lemma has_failed_spec self r :
  has_failed self r = true <-> exists x, nodes self !! r = Some x /\ active x = false.
Proof.
  unfold has_failed. destruct (nodes self !! r) as [x|].
  - rewrite negb_true_iff. split; [by exists x|]. by intros (? & [= <-] & ?).
  - split; [done|]. by intros (? & ? & _).
Qed.

Lemma evolves_has_failed s s' r : evolves s s' -> has_failed s r = true -> has_failed s' r = true.
Proof.
  intros (_ & _ & Hn) (x & Hx & Hact)%has_failed_spec. apply has_failed_spec.
  destruct (Forall2_lookup_l _ _ _ _ _ Hn Hx) as (x' & Hx' & Hev).
  exists x'. split; [done|]. destruct Hev as (_ & _ & Hre & _).
  destruct (active x'); [|done]. rewrite Hre in Hact; done.
Qed.

Lemma has_failed_not_alive self r : has_failed self r = true -> ~ alive self r.
Proof. intros (x & Hx & Hact)%has_failed_spec (y & Hy & Hact'). congruence. Qed.

(** ** recover_data changes no activity flag *)

Lemma activity_set_node self r x x' :
  nodes self !! r = Some x -> active x' = active x ->
  map active (nodes (set_node self r x')) = map active (nodes self).
Proof.
  intros Hx Hact. simpl.
  change (active <$> <[r := x']> (nodes self) = active <$> nodes self).
  rewrite list_fmap_insert, Hact. apply list_insert_id.
  by rewrite list_lookup_fmap, Hx.
Qed.

Lemma scan_body_activity self failed_node_id file_hash chunk_id rec self' evs :
  scan_body self failed_node_id file_hash chunk_id rec = Ok (self', evs) ->
  map active (nodes self') = map active (nodes self).
Proof.
  intros [[-> _]|(source & data & r & x & _ & _ & _ & _ & _ & _ & Hx & _ & _ & -> & _)]
    %scan_body_cases; [done|].
  by apply (activity_set_node self r x).
Qed.

Lemma scan_records_activity fuel : forall self failed_node_id file_hash chunk_id i,
  map active (nodes (outcome_state
                       (snd (scan_records fuel self failed_node_id file_hash chunk_id i))))
  = map active (nodes self).
Proof.
  induction fuel as [|fuel IH]; intros self failed_node_id file_hash chunk_id i;
    simpl; [done|].
  destruct (records self file_hash !! i) as [rec|]; [|done].
  destruct (scan_body _ _ _ _ _) as [[self' evs]|e] eqn:E; [|done].
  specialize (IH self' failed_node_id file_hash chunk_id (S i)).
  destruct (scan_records fuel self' _ _ _ _) as [evs' out]. simpl in *.
  rewrite IH. by eapply scan_body_activity.
Qed.

Lemma recover_chunk_activity fuel self failed_node_id fc :
  map active (nodes (outcome_state (snd (recover_chunk fuel self failed_node_id fc))))
  = map active (nodes self).
Proof.
  unfold recover_chunk.
  pose proof (scan_records_activity fuel self failed_node_id (fst fc) (snd fc) 0) as H.
  by destruct (scan_records _ _ _ _ _ _) as [evs [s'|e s'|s']].
Qed.

Lemma recover_loop_activity fuel failed_node_id affected : forall self,
  map active (nodes (outcome_state (snd (recover_loop fuel self failed_node_id affected))))
  = map active (nodes self).
Proof.
  induction affected as [|fc affected IH]; intros self; simpl; [done|].
  pose proof (recover_chunk_activity fuel self failed_node_id fc) as H.
  destruct (recover_chunk _ _ _ _) as [evs [s'|e s'|s']]; simpl in *; [|done..].
  specialize (IH s'). destruct (recover_loop _ _ _ _) as [evs' out]. simpl in *.
  by rewrite IH.
Qed.

Lemma activity_lookup s s' r x :
  map active (nodes s') = map active (nodes s) -> nodes s !! r = Some x ->
  exists x', nodes s' !! r = Some x' /\ active x' = active x.
Proof.
  intros Hmap Hx.
  assert (Ha : (active <$> nodes s') !! r = Some (active x)).
  { change (map active (nodes s') !! r = Some (active x)).
    rewrite Hmap. change ((active <$> nodes s) !! r = Some (active x)).
    by rewrite list_lookup_fmap, Hx. }
  rewrite list_lookup_fmap in Ha.
  destruct (nodes s' !! r) as [x'|]; [|done]. exists x'. split; [done|].
  by injection Ha.
Qed.

(** ** Failed nodes without records stay so *)

Lemma failed_unrecorded_recover fuel self failed_node_id evs self' r :
  nodes_indexed self -> has_failed self r = true -> unrecorded self r ->
  recover_data fuel self failed_node_id = (evs, Done self') ->
  has_failed self' r = true /\ unrecorded self' r.
Proof.
  intros Hidx Hf Hun Hrun. split.
  - pose proof (recover_data_evolves fuel self failed_node_id) as Hev.
    rewrite Hrun in Hev. by eapply evolves_has_failed.
  - intros fh rec Hrec.
    destruct (recover_data_done _ _ _ _ _ fh Hidx Hrun) as (appended & Heq & Hal).
    rewrite Heq in Hrec. apply list_elem_of_filter in Hrec as [_ Hrec].
    apply elem_of_app in Hrec as [Hrec|Hrec]; [by eapply Hun|].
    intros Hr. apply (has_failed_not_alive self r Hf). rewrite <- Hr.
    by apply (proj1 (Forall_forall _ _) Hal).
Qed.

Lemma unrecorded_metadata s s' r :
  metadata s' = metadata s -> unrecorded s r -> unrecorded s' r.
Proof. intros Hm Hun fh rec. unfold records. rewrite Hm. apply Hun. Qed.

Lemma fail_node_lookup self r r' x :
  nodes self !! r' = Some x ->
  nodes (fail_node self r) !! r' = Some (if decide (r' = r) then fail x else x).
Proof.
  intros Hx. unfold fail_node. destruct (decide (r' = r)) as [->|Hne].
  - rewrite Hx. simpl. by rewrite list_lookup_insert_eq by (by eapply lookup_lt_Some).
  - destruct (nodes self !! r) as [y|]; [|done]. simpl.
    by rewrite list_lookup_insert_ne.
Qed.

Lemma fail_node_metadata self r : metadata (fail_node self r) = metadata self.
Proof. unfold fail_node. by destruct (nodes self !! r). Qed.

Lemma monitor_loop_done fuel draw rs : forall self evs self',
  nodes_indexed self ->
  monitor_loop fuel self draw rs = (evs, Done self') ->
  (forall r x, nodes self !! r = Some x ->
     exists x', nodes self' !! r = Some x'
                /\ active x' = active x && negb (bool_decide (r ∈ rs) && draw r))
  /\ (forall r, r ∈ rs -> r < length (nodes self) -> draw r = true -> unrecorded self' r)
  /\ (forall r, has_failed self r = true -> unrecorded self r -> unrecorded self' r).
Proof.
  induction rs as [|r0 rs IH]; intros self evs self' Hidx; cbn [monitor_loop].
  { intros [= _ <-]. split; [|split]; [|by intros ? ?%elem_of_nil|done].
    intros r x Hx. exists x. split; [done|]. simpl. by rewrite andb_true_r. }
  destruct (nodes self !! r0) as [node|] eqn:Hr0.
  2:{ intros Hrun. destruct (IH _ _ _ Hidx Hrun) as (Hact & Hdrawn & Hkeep).
      split; [|split]; [| |done].
      - intros r x Hx. destruct (Hact r x Hx) as (x' & Hx' & Ha). exists x'.
        split; [done|]. rewrite Ha. do 3 f_equal. apply bool_decide_ext.
        rewrite elem_of_cons. split; [tauto|]. intros [->|?]; [congruence|done].
      - intros r [->|Hr]%elem_of_cons Hlt Hd; [|by apply Hdrawn].
        apply lookup_ge_None in Hr0. lia. }
  destruct (draw r0) eqn:Hd0.
  2:{ intros Hrun. destruct (IH _ _ _ Hidx Hrun) as (Hact & Hdrawn & Hkeep).
      split; [|split]; [| |done].
      - intros r x Hx. destruct (Hact r x Hx) as (x' & Hx' & Ha). exists x'.
        split; [done|]. rewrite Ha. f_equal.
        destruct (decide (r = r0)) as [->|Hne]; [by rewrite Hd0, !andb_false_r|].
        do 2 f_equal. apply bool_decide_ext. rewrite elem_of_cons. tauto.
      - intros r [->|Hr]%elem_of_cons Hlt Hd; [congruence|by apply Hdrawn]. }
  rewrite (Hidx r0 node Hr0).
  destruct (recover_data fuel (fail_node self r0) r0) as [evs1 [s2|e s2|s2]] eqn:Hrec;
    [|done..].
  destruct (monitor_loop fuel s2 draw rs) as [evs2 out] eqn:Hloop.
  intros [= _ ->].
  assert (Hidx1 : nodes_indexed (fail_node self r0)).
  { eapply evolves_nodes_indexed; [apply evolves_fail_node|done]. }
  pose proof (recover_data_evolves fuel (fail_node self r0) r0) as Hev2.
  rewrite Hrec in Hev2. simpl in Hev2.
  assert (Hidx2 : nodes_indexed s2) by (by eapply evolves_nodes_indexed).
  pose proof (recover_loop_activity fuel r0 (affected_chunks (fail_node self r0) r0)
                (fail_node self r0)) as Hact2.
  fold (recover_data fuel (fail_node self r0) r0) in Hact2. rewrite Hrec in Hact2.
  simpl in Hact2.
  destruct (IH _ _ _ Hidx2 Hloop) as (Hact & Hdrawn & Hkeep).
  assert (Hf0 : has_failed (fail_node self r0) r0 = true).
  { apply has_failed_spec. exists (fail node).
    by rewrite (fail_node_lookup self r0 r0 node Hr0), decide_True. }
  assert (Hlen : length (nodes s2) = length (nodes self)).
  { rewrite (evolves_length _ _ Hev2). apply evolves_length, evolves_fail_node. }
  split; [|split].
  - intros r x Hx.
    pose proof (fail_node_lookup self r0 r x Hx) as Hx1.
    destruct (activity_lookup _ _ r _ Hact2 Hx1) as (x2 & Hx2 & Ha2).
    destruct (Hact r x2 Hx2) as (x' & Hx' & Ha). exists x'. split; [done|].
    rewrite Ha, Ha2. destruct (decide (r = r0)) as [->|Hne].
    + rewrite (bool_decide_true (r0 ∈ r0 :: rs)) by (by left). rewrite Hd0. simpl.
      by rewrite andb_false_r.
    + do 3 f_equal. apply bool_decide_ext. rewrite elem_of_cons. tauto.
  - intros r Hr Hlt Hd. destruct (decide (r = r0)) as [->|Hne].
    + apply Hkeep.
      * by eapply evolves_has_failed.
      * exact (recover_data_unrecorded_after fuel _ r0 evs1 s2 Hidx1 Hrec).
    + apply elem_of_cons in Hr as [?|Hr]; [done|]. apply Hdrawn; [done|lia|done].
  - intros r Hf Hun.
    destruct (failed_unrecorded_recover fuel (fail_node self r0) r0 evs1 s2 r) as [Hf2 Hun2];
      [done| | |done|by apply Hkeep].
    + by eapply evolves_has_failed; [apply evolves_fail_node|].
    + eapply unrecorded_metadata; [apply fail_node_metadata|done].
Qed.

(** X10. One pass of [monitor_nodes] that comes to its end: a node is
    active afterwards exactly when it was active and its draw was negative
    (the draw is made for every node, failed or not), and no record of any
    file names a node whose draw was positive. *)
Theorem monitor_pass_done (fuel : nat) (self : DFS) (draw : nat -> bool)
    (evs : list event) (self' : DFS) :
  nodes_indexed self ->
  monitor_pass fuel self draw = (evs, Done self') ->
  forall r x, nodes self !! r = Some x ->
    exists x', nodes self' !! r = Some x'
               /\ active x' = active x && negb (draw r)
               /\ (draw r = true -> unrecorded self' r).
Proof.
  intros Hidx Hrun r x Hx. unfold monitor_pass in Hrun.
  destruct (monitor_loop_done _ _ _ _ _ _ Hidx Hrun) as (Hact & Hdrawn & _).
  assert (Hr : r ∈ seq 0 (length (nodes self))).
  { apply elem_of_seq. apply lookup_lt_Some in Hx. lia. }
  destruct (Hact r x Hx) as (x' & Hx' & Ha). exists x'. split; [done|]. split.
  - by rewrite Ha, bool_decide_true.
  - intros Hd. apply Hdrawn; [done| |done]. by eapply lookup_lt_Some.
Qed.

(* ================================================================= *)
(** * monitor_nodes while the failing nodes hold no records *)

Lemma bool_decide_cons_ne (r r0 : nat) (rs : list nat) :
  r <> r0 -> bool_decide (r ∈ r0 :: rs) = bool_decide (r ∈ rs).
Proof. intros Hne. apply bool_decide_ext. rewrite elem_of_cons. tauto. Qed.

Lemma fail_fail x : fail (fail x) = fail x.
Proof. reflexivity. Qed.

Lemma keys_distinct_metadata s s' :
  metadata s' = metadata s -> keys_distinct s -> keys_distinct s'.
Proof. unfold keys_distinct. by intros ->. Qed.

Lemma monitor_loop_idle fuel draw rs : forall self,
  nodes_indexed self -> keys_distinct self ->
  (forall r, r ∈ rs -> draw r = true -> unrecorded self r) ->
  exists self',
    monitor_loop fuel self draw rs = ([], Done self')
    /\ metadata self' = metadata self /\ nodes_indexed self'
    /\ forall r x, nodes self !! r = Some x ->
         nodes self' !! r
         = Some (if bool_decide (r ∈ rs) && draw r then fail x else x).
Proof.
  induction rs as [|r0 rs IH]; intros self Hidx Hk Hun; cbn [monitor_loop].
  { exists self. repeat split; try done. }
  assert (Hun' : forall r, r ∈ rs -> draw r = true -> unrecorded self r).
  { intros r Hr. apply Hun. by right. }
  assert (Hskip : forall self',
            (forall r x, nodes self !! r = Some x ->
               nodes self' !! r = Some (if bool_decide (r ∈ rs) && draw r then fail x else x)) ->
            (nodes self !! r0 = None \/ draw r0 = false) ->
            forall r x, nodes self !! r = Some x ->
              nodes self' !! r
              = Some (if bool_decide (r ∈ r0 :: rs) && draw r then fail x else x)).
  { intros self' Hn Hcase r x Hx. rewrite (Hn r x Hx).
    destruct (decide (r = r0)) as [->|Hne].
    - destruct Hcase as [?|Hd]; [congruence|]. by rewrite Hd, !andb_false_r.
    - by rewrite bool_decide_cons_ne. }
  destruct (nodes self !! r0) as [node|] eqn:Hr0.
  2:{ destruct (IH self Hidx Hk Hun') as (s' & Hrun & Hm & Hidx' & Hn).
      exists s'. repeat split; try done. apply Hskip; [done|by left]. }
  destruct (draw r0) eqn:Hd0.
  2:{ destruct (IH self Hidx Hk Hun') as (s' & Hrun & Hm & Hidx' & Hn).
      exists s'. repeat split; try done. apply Hskip; [done|by right]. }
  rewrite (Hidx r0 node Hr0).
  pose proof (fail_node_metadata self r0) as Hm1.
  assert (Hidx1 : nodes_indexed (fail_node self r0)).
  { eapply evolves_nodes_indexed; [apply evolves_fail_node|done]. }
  rewrite recover_data_unrecorded.
  2:{ by eapply keys_distinct_metadata. }
  2:{ eapply unrecorded_metadata; [done|]. apply Hun; [by left|done]. }
  destruct (IH (fail_node self r0)) as (s' & Hrun & Hm & Hidx' & Hn).
  { done. }
  { by eapply keys_distinct_metadata. }
  { intros r Hr Hd. eapply unrecorded_metadata; [done|]. by apply Hun'. }
  rewrite Hrun. exists s'. split; [done|]. split; [congruence|]. split; [done|].
  intros r x Hx. rewrite (Hn r _ (fail_node_lookup self r0 r x Hx)).
  destruct (decide (r = r0)) as [->|Hne].
  - rewrite (bool_decide_true (r0 ∈ r0 :: rs)) by (by left). rewrite Hd0. simpl.
    by destruct (bool_decide (r0 ∈ rs)).
  - by rewrite bool_decide_cons_ne.
Qed.

Lemma monitor_pass_idle fuel draw self :
  nodes_indexed self -> keys_distinct self ->
  (forall r, draw r = true -> unrecorded self r) ->
  exists self',
    monitor_pass fuel self draw = ([], Done self')
    /\ metadata self' = metadata self /\ nodes_indexed self'
    /\ forall r x, nodes self !! r = Some x ->
         nodes self' !! r = Some (if draw r then fail x else x).
Proof.
  intros Hidx Hk Hun. unfold monitor_pass.
  destruct (monitor_loop_idle fuel draw (seq 0 (length (nodes self))) self Hidx Hk)
    as (s' & Hrun & Hm & Hidx' & Hn).
  { intros r _. apply Hun. }
  exists s'. repeat split; try done. intros r x Hx. rewrite (Hn r x Hx).
  rewrite bool_decide_true; [done|].
  apply elem_of_seq. apply lookup_lt_Some in Hx. lia.
Qed.

Lemma monitor_nodes_idle fuel draws rounds : forall t self,
  nodes_indexed self -> keys_distinct self ->
  (forall t' r, t <= t' < t + rounds -> draws t' r = true -> unrecorded self r) ->
  exists self',
    monitor_nodes rounds fuel self draws t = ([], OutOfFuel self')
    /\ metadata self' = metadata self
    /\ forall r x, nodes self !! r = Some x ->
         nodes self' !! r
         = Some (if existsb (fun t' => draws t' r) (seq t rounds) then fail x else x).
Proof.
  induction rounds as [|rounds IH]; intros t self Hidx Hk Hun; cbn [monitor_nodes].
  { exists self. repeat split; done. }
  destruct (monitor_pass_idle fuel (draws t) self Hidx Hk)
    as (s1 & Hrun1 & Hm1 & Hidx1 & Hn1).
  { intros r. apply Hun. lia. }
  rewrite Hrun1.
  destruct (IH (S t) s1) as (s' & Hrun & Hm & Hn).
  { done. }
  { by eapply keys_distinct_metadata. }
  { intros t' r Ht Hd. eapply unrecorded_metadata; [done|]. apply (Hun t' r); [lia|done]. }
  rewrite Hrun. exists s'. split; [done|]. split; [congruence|].
  intros r x Hx. rewrite (Hn r _ (Hn1 r x Hx)). cbn [seq existsb].
  destruct (draws t r); simpl; [|done].
  by destruct (existsb _ _).
Qed.

(** X11. As long as the nodes it fails are named by no record, the
    monitoring loop only marks nodes as failed: after any number of passes
    it is still running, has logged no event, has left the metadata as it
    was, and a node is failed exactly if it was failed before or drawn in
    one of the passes; [recover_data] found nothing to do each time. *)
Theorem monitor_nodes_without_records (rounds fuel : nat) (self : DFS)
    (draws : nat -> nat -> bool) :
  nodes_indexed self -> keys_distinct self ->
  (forall t r, t < rounds -> draws t r = true -> unrecorded self r) ->
  exists self',
    monitor_nodes rounds fuel self draws 0 = ([], OutOfFuel self')
    /\ metadata self' = metadata self
    /\ forall r x, nodes self !! r = Some x ->
         nodes self' !! r
         = Some (if existsb (fun t => draws t r) (seq 0 rounds) then fail x else x).
Proof.
  intros Hidx Hk Hun. apply monitor_nodes_idle; [done..|].
  intros t r Ht. apply Hun. lia.
Qed.

(* ================================================================= *)
(** * What an upload leaves untouched *)

Lemma place_replicas_refused order : forall self file_hash chunk_id chunk placed,
  (forall r x, nodes self !! r = Some x -> accepts x = false) ->
  place_replicas self order file_hash chunk_id chunk placed = self.
Proof.
  induction order as [|r order IH]; intros self file_hash chunk_id chunk placed Hall;
    cbn [place_replicas]; [done|].
  destruct (nodes self !! r) as [x|] eqn:Hx; [|by apply IH].
  rewrite store_chunk_refused by (by eapply Hall). by apply IH.
Qed.

Lemma sum_list_elem {A} (f : A -> nat) (l : list A) x :
  x ∈ l -> f x <= sum_list (map f l).
Proof.
  induction l as [|y l IH]; [by intros ?%elem_of_nil|].
  intros [->|Hin]%elem_of_cons; simpl; [lia|]. specialize (IH Hin). lia.
Qed.

Lemma free_zero_refuses self r x :
  free self = 0 -> nodes self !! r = Some x -> accepts x = false.
Proof.
  intros Hfree Hx. destruct (accepts x) eqn:Hacc; [|done].
  apply room_accepts in Hacc.
  pose proof (sum_list_elem room (nodes self) x (list_elem_of_lookup_2 _ _ _ Hx)) as Hle.
  unfold free in Hfree. lia.
Qed.

(** X12. When no node has room (every node is failed or full),
    [upload_file] still returns the file id as for a success, and it has
    stored nothing and recorded nothing: the state is unchanged. *)
Theorem upload_file_without_room (self : DFS) (filename : string) (content : bytes) :
  chunk_size self <> 0 -> free self = 0 ->
  upload_file self filename content = Ok (file_id filename, self).
Proof.
  intros Hcs Hfree. rewrite upload_file_ok by done. f_equal. f_equal.
  unfold after_upload, upload_file.
  destruct (split_content content (chunk_size self)) as [chunks|]; simpl; [|done].
  induction (enumerate chunks) as [|ic ics IH]; simpl; [done|].
  unfold place_chunk at 2. rewrite place_replicas_refused; [done|].
  intros r x. by apply free_zero_refuses.
Qed.

(** ** Other files *)

Lemma chunk_id_of_file h1 h2 i j :
  str_all not_underscore h1 = true -> str_all not_underscore h2 = true ->
  chunk_id_of h1 i = chunk_id_of h2 j -> h1 = h2.
Proof.
  intros H1 H2 Heq.
  pose proof (split_chunk_id_of h1 i H1) as Hs1.
  rewrite Heq, (split_chunk_id_of h2 j H2) in Hs1. by injection Hs1.
Qed.

(** What a retrieve of [chunk_id] on the node at position [r] gives. *)
Lemma place_replicas_frame order : forall self file_hash chunk_id chunk placed,
  let self' := place_replicas self order file_hash chunk_id chunk placed in
  (forall other, other <> file_hash ->
     od_get (metadata self') other = od_get (metadata self) other)
  /\ forall r c, c <> chunk_id ->
       (fun x => retrieve_chunk x c) <$> nodes self' !! r
       = (fun x => retrieve_chunk x c) <$> nodes self !! r.
Proof.
  induction order as [|r0 order IH]; intros self file_hash chunk_id chunk placed;
    cbn zeta; cbn [place_replicas]; [done|].
  destruct (nodes self !! r0) as [x|] eqn:Hx; [|by apply IH].
  destruct (accepts x) eqn:Hacc.
  2:{ rewrite store_chunk_refused by done. by apply IH. }
  rewrite store_chunk_accepted by done.
  set (s1 := metadata_append (set_node self r0 (stored chunk_id chunk x)) file_hash
                             (node_id (stored chunk_id chunk x), chunk_id)).
  assert (Hs1 : (forall other, other <> file_hash ->
                   od_get (metadata s1) other = od_get (metadata self) other)
                /\ forall r c, c <> chunk_id ->
                     (fun x => retrieve_chunk x c) <$> nodes s1 !! r
                     = (fun x => retrieve_chunk x c) <$> nodes self !! r).
  { split.
    - intros other Hne. unfold s1. by rewrite od_get_metadata_append_ne.
    - intros r c Hc. unfold s1. simpl. destruct (decide (r = r0)) as [->|Hne].
      + rewrite list_lookup_insert_eq by (by eapply lookup_lt_Some).
        rewrite Hx. simpl. f_equal. unfold retrieve_chunk. simpl.
        by rewrite lookup_insert_ne.
      + by rewrite list_lookup_insert_ne. }
  destruct (S placed =? replication_factor self)%nat; [exact Hs1|].
  destruct (IH s1 file_hash chunk_id chunk (S placed)) as [Hm Hn].
  destruct Hs1 as [Hm1 Hn1]. split.
  - intros other Hne. by rewrite Hm, Hm1.
  - intros r c Hc. by rewrite Hn, Hn1.
Qed.

Lemma place_chunks_frame file_hash ics : forall self,
  let self' := fold_left (fun s ic => place_chunk s file_hash ic) ics self in
  (forall other, other <> file_hash ->
     od_get (metadata self') other = od_get (metadata self) other)
  /\ forall r c, ~ chunk_of file_hash c ->
       (fun x => retrieve_chunk x c) <$> nodes self' !! r
       = (fun x => retrieve_chunk x c) <$> nodes self !! r.
Proof.
  induction ics as [|ic ics IH]; intros self; cbn zeta; simpl; [done|].
  destruct (IH (place_chunk self file_hash ic)) as [Hm Hn].
  destruct (place_replicas_frame (nodes_by_load self) self file_hash
              (chunk_id_of file_hash (fst ic)) (snd ic) 0) as [Hm1 Hn1].
  fold (place_chunk self file_hash ic) in Hm1, Hn1. split.
  - intros other Hne. by rewrite Hm, Hm1.
  - intros r c Hc. rewrite Hn, Hn1; [done| |done].
    intros ->. apply Hc. by eexists.
Qed.

Lemma fetch_chunks_same self self' recs : forall acc,
  (forall nid cid, (nid, cid) ∈ recs ->
     (fun x => retrieve_chunk x cid) <$> nodes self' !! nid
     = (fun x => retrieve_chunk x cid) <$> nodes self !! nid) ->
  fetch_chunks self' recs acc = fetch_chunks self recs acc.
Proof.
  induction recs as [|[nid cid] recs IH]; intros acc Hsame; simpl; [done|].
  pose proof (Hsame nid cid (list_elem_of_here _ _)) as Hrec.
  assert (Hrest : forall acc', fetch_chunks self' recs acc' = fetch_chunks self recs acc').
  { intros acc'. apply IH. intros n c Hin. apply Hsame. by right. }
  unfold index.
  destruct (nodes self' !! nid) as [x'|], (nodes self !! nid) as [x|]; simpl in *;
    try done.
  injection Hrec as ->. destruct (retrieve_chunk x cid) as [data|]; [|apply Hrest].
  destruct (truthy data); apply Hrest.
Qed.

Lemma download_file_same self self' file_hash :
  od_get (metadata self') file_hash = od_get (metadata self) file_hash ->
  (forall nid cid, (nid, cid) ∈ records self file_hash ->
     (fun x => retrieve_chunk x cid) <$> nodes self' !! nid
     = (fun x => retrieve_chunk x cid) <$> nodes self !! nid) ->
  download_file self' file_hash = download_file self file_hash.
Proof.
  intros Hm Hsame. unfold download_file. rewrite Hm.
  destruct (od_get (metadata self) file_hash) as [recs|] eqn:Hget; [|done].
  rewrite (fetch_chunks_same self self' recs []); [done|].
  unfold records in Hsame. by rewrite Hget in Hsame.
Qed.

(** X13. An upload does not disturb the other files: in a reachable state,
    after [upload_file(filename, ..)] the records of every other file id
    are the same and [download_file] of it answers what it answered
    before. *)
Theorem upload_file_leaves_other_files (self : DFS) (filename : string) (content : bytes)
    (file_hash : string) :
  reachable self -> file_hash <> file_id filename ->
  records (after_upload self filename content) file_hash = records self file_hash
  /\ download_file (after_upload self filename content) file_hash
     = download_file self file_hash.
Proof.
  intros Hreach Hne. pose proof (reachable_wf _ Hreach) as Hwf.
  unfold after_upload, upload_file.
  destruct (split_content content (chunk_size self)) as [chunks|]; simpl; [|done].
  destruct (place_chunks_frame (Sha256.hexdigest filename) (enumerate chunks) self)
    as [Hm Hn].
  split; [by apply records_od_get, Hm|].
  apply download_file_same; [by apply Hm|].
  intros nid cid Hin. apply Hn. intros [i ->].
  apply records_elem_of in Hin as (recs & Hrecs & Hin).
  destruct (Hwf _ _ Hrecs) as [Hfh Hall].
  destruct (Hall nid _ Hin) as [_ [j Hj]].
  apply Hne. symmetry. eapply chunk_id_of_file; [| |exact Hj]; [|done].
  apply hexdigest_no_underscore.
Qed.

(* ================================================================= *)
(** * Full replication and the failures it survives *)

Lemma policy_select_zero ranked : policy_select 0 ranked = [].
Proof. by destruct ranked. Qed.

Lemma policy_select_full ranked : forall needed,
  needed <= length (filter (fun x => accepts x = true) ranked) ->
  length (policy_select needed ranked) = needed.
Proof.
  induction ranked as [|x ranked IH]; intros needed Hle.
  { simpl in Hle. assert (needed = 0) as -> by lia. done. }
  destruct needed as [|needed]; [done|].
  rewrite filter_cons in Hle. cbn [policy_select].
  destruct (accepts x) eqn:Hacc.
  - rewrite decide_True in Hle by done. simpl in *. rewrite IH; [done|lia].
  - rewrite decide_False in Hle by congruence. by apply IH.
Qed.

(** [good] lists positions of nodes that accept a store. *)
Lemma accepting_count self good :
  nodes_indexed self -> NoDup good ->
  (forall r, r ∈ good -> exists x, nodes self !! r = Some x /\ accepts x = true) ->
  length good
  <= length (filter (fun x => accepts x = true) (policy_ranking (nodes self))).
Proof.
  intros Hidx Hnd Hgood.
  rewrite <- (length_map node_id (filter _ _)).
  apply submseteq_length, NoDup_submseteq; [done|].
  intros r Hr. destruct (Hgood r Hr) as (x & Hx & Hacc).
  apply list_elem_of_fmap. exists x. split; [symmetry; by apply Hidx|].
  apply list_elem_of_filter. split; [done|].
  rewrite policy_ranking_perm. by eapply list_elem_of_lookup_2.
Qed.

Lemma replicated_mono self self' file_hash n items recs :
  replicated self file_hash n items recs ->
  (forall i chunk r, (i, chunk) ∈ items ->
     holds self (chunk_id_of file_hash i) chunk r ->
     holds self' (chunk_id_of file_hash i) chunk r) ->
  replicated self' file_hash n items recs.
Proof.
  induction 1 as [|items recs i chunk ids Hrep IH Hnd Hlen Hholds]; intros Hmono.
  { constructor. }
  apply replicated_snoc; [|done|done|].
  - apply IH. intros j c r Hin. apply Hmono. apply elem_of_app. by left.
  - intros r Hr. apply Hmono; [|by apply Hholds].
    apply elem_of_app. right. by left.
Qed.

Lemma replicated_covers self file_hash n items recs :
  1 <= n -> replicated self file_hash n items recs -> covers self file_hash items recs.
Proof.
  intros Hn. induction 1 as [|items recs i chunk ids Hrep IH Hnd Hlen Hholds].
  { constructor. }
  apply covers_snoc; [done| |done]. intros ->. simpl in Hlen. lia.
Qed.

Lemma replicated_length self file_hash n items recs :
  replicated self file_hash n items recs -> length recs = n * length items.
Proof.
  induction 1 as [|items recs i chunk ids Hrep IH Hnd Hlen Hholds]; [simpl; lia|].
  rewrite !length_app, length_map, IH, Hlen. simpl. lia.
Qed.

(** The placement of one chunk when [good] lists at least
    [replication_factor] positions of nodes with room. *)
Lemma policy_place_chunk_replicated self file_hash items i chunk good m :
  nodes_indexed self -> 1 <= replication_factor self ->
  NoDup good -> replication_factor self <= length good ->
  (forall r, r ∈ good -> exists x, nodes self !! r = Some x /\ S m <= room x) ->
  replicated self file_hash (replication_factor self) items (records self file_hash) ->
  (forall ic, ic ∈ items -> fst ic <> i) ->
  let self' := policy_place_chunk self file_hash (i, chunk) in
  replicated self' file_hash (replication_factor self) (items ++ [(i, chunk)])
             (records self' file_hash)
  /\ (forall r, r ∈ good -> exists x, nodes self' !! r = Some x /\ m <= room x).
Proof.
  intros Hi Hrf Hnd Hlen Hgood Hrep Hidx self'.
  destruct (policy_targets_ids self Hi) as (Hndi & _ & Hacc).
  set (ids := map node_id (policy_targets (nodes self) (replication_factor self))) in *.
  assert (Hfull : length ids = replication_factor self).
  { unfold ids, policy_targets. rewrite length_map. apply policy_select_full.
    etrans; [exact Hlen|]. apply accepting_count; [done..|].
    intros r Hr. destruct (Hgood r Hr) as (x & Hx & Hroom). exists x.
    split; [done|]. apply room_accepts. lia. }
  destruct (fold_policy_store file_hash (chunk_id_of file_hash i) chunk ids self Hndi Hacc)
    as (Hrec & _ & _ & Hnodes).
  destruct (holds_fold_policy_store file_hash (chunk_id_of file_hash i) chunk ids self
              Hndi Hacc) as (Hnew & Hold).
  change (fold_left _ ids self) with self' in *.
  split.
  - rewrite Hrec. apply replicated_snoc; [|done|done|done].
    eapply replicated_mono; [done|]. intros j c r Hin. apply Hold.
    intros Heq%chunk_id_of_inj. by apply (Hidx (j, c)).
  - intros r Hr. destruct (Hgood r Hr) as (x & Hx & Hroom).
    rewrite Hnodes, Hx. destruct (decide (r ∈ ids)); [|exists x; split; [done|lia]].
    exists (stored (chunk_id_of file_hash i) chunk x). split; [done|].
    pose proof (room_stored (chunk_id_of file_hash i) chunk x). lia.
Qed.

Lemma upload_replicated file_hash chunks : forall k self items good,
  nodes_indexed self -> 1 <= replication_factor self ->
  NoDup good -> replication_factor self <= length good ->
  (forall r, r ∈ good -> exists x, nodes self !! r = Some x /\ length chunks <= room x) ->
  replicated self file_hash (replication_factor self) items (records self file_hash) ->
  (forall ic, ic ∈ items -> fst ic < k) ->
  let self' := fold_left (fun s ic => policy_place_chunk s file_hash ic)
                         (enumerate_from k chunks) self in
  replicated self' file_hash (replication_factor self) (items ++ enumerate_from k chunks)
             (records self' file_hash).
Proof.
  induction chunks as [|c chunks IH]; intros k self items good Hi Hrf Hnd Hlen Hgood Hrep Hidx;
    cbn zeta.
  { simpl. by rewrite app_nil_r. }
  cbn [enumerate_from fold_left].
  destruct (policy_place_chunk_replicated self file_hash items k c good (length chunks))
    as (Hrep1 & Hgood1); [done..| |].
  { intros ic Hin. specialize (Hidx ic Hin). lia. }
  set (s1 := policy_place_chunk self file_hash (k, c)) in *.
  pose proof (policy_place_chunk_evolves self file_hash (k, c) Hi Hrf) as Hev.
  fold s1 in Hev.
  assert (Hrf1 : replication_factor s1 = replication_factor self) by apply Hev.
  rewrite <- Hrf1. rewrite <- Hrf1 in Hrep1.
  specialize (IH (S k) s1 (items ++ [(k, c)]) good).
  cbn zeta in IH. rewrite <- app_assoc in IH. apply IH; try done.
  - by eapply evolves_nodes_indexed.
  - lia.
  - lia.
  - intros ic [Hin|Hin%list_elem_of_singleton]%elem_of_app.
    + specialize (Hidx ic Hin). lia.
    + subst ic. simpl. lia.
Qed.

(** The ids of the nodes with room for [n] chunks. *)
Lemma roomy_positions self n :
  nodes_indexed self ->
  NoDup (map node_id (roomy self n))
  /\ forall r, r ∈ map node_id (roomy self n) ->
       exists x, nodes self !! r = Some x /\ n <= room x.
Proof.
  intros Hi. split.
  - apply (sublist_NoDup _ (node_id <$> nodes self)).
    + change (NoDup (map node_id (nodes self))).
      rewrite nodes_indexed_ids by done. apply NoDup_seq.
    + apply (fmap_sublist node_id). unfold roomy. apply sublist_filter.
  - intros r (x & -> & [Hroom Hx]%list_elem_of_filter)%list_elem_of_fmap.
    exists x. split; [by apply nodes_indexed_elem|done].
Qed.

Lemma upload_file_replicated self filename content :
  nodes_indexed self -> chunk_size self <> 0 -> 1 <= replication_factor self ->
  records self (file_id filename) = [] ->
  replication_factor self
  <= length (roomy self (chunk_count (length content) (chunk_size self))) ->
  exists chunks,
    split_content content (chunk_size self) = Ok chunks
    /\ replicated (after_upload self filename content) (file_id filename)
                  (replication_factor self) (enumerate chunks)
                  (records (after_upload self filename content) (file_id filename)).
Proof.
  intros Hi Hcs Hrf Hnew Hroomy.
  unfold after_upload. rewrite upload_file_policy by done. unfold policy_upload.
  destruct (split_content_spec content (chunk_size self) Hcs)
    as (chunks & Hsplit & _ & _ & Hlen).
  rewrite Hsplit. simpl. exists chunks. split; [done|].
  destruct (roomy_positions self (chunk_count (length content) (chunk_size self)) Hi)
    as [Hnd Hgood].
  apply (upload_replicated (file_id filename) chunks 0 self []
           (map node_id (roomy self (chunk_count (length content) (chunk_size self)))));
    try done.
  - by rewrite length_map.
  - by rewrite Hlen.
  - rewrite Hnew. constructor.
  - by intros ? ?%elem_of_nil.
Qed.

Lemma od_get_map_length (d : odict (list replica)) k :
  od_get (map (fun item : string * list replica => (fst item, length (snd item))) d) k
  = length <$> od_get d k.
Proof.
  induction d as [|[k0 v] d IH]; simpl; [done|]. by destruct (String.eqb k0 k).
Qed.

(** X14. An upload of a new name into a cluster that has at least
    [replication_factor] nodes with room for all the chunks of the file
    places every chunk on exactly [replication_factor] different nodes,
    in the order of the chunks, and [get_status] then shows for the file
    [replication_factor] times the number of chunks. *)
Theorem upload_file_replicates (self : DFS) (filename : string) (content : bytes) :
  reachable self -> 1 <= replication_factor self ->
  records self (file_id filename) = [] -> content <> [] ->
  replication_factor self <= length (roomy self (chunk_count (length content) 1024)) ->
  exists chunks,
    split_content content 1024 = Ok chunks
    /\ replicated (after_upload self filename content) (file_id filename)
                  (replication_factor self) (enumerate chunks)
                  (records (after_upload self filename content) (file_id filename))
    /\ od_get (status_files (get_status (after_upload self filename content)))
              (file_id filename)
       = Some (replication_factor self * chunk_count (length content) 1024).
Proof.
  intros Hreach Hrf Hnew Hne Hroomy.
  destruct (reachable_inv _ Hreach) as (Hi & _ & Hcs).
  rewrite <- Hcs in Hroomy.
  destruct (upload_file_replicated self filename content Hi) as (chunks & Hsplit & Hrep);
    [lia|done..|].
  rewrite Hcs in Hsplit. exists chunks. split; [done|]. split; [done|].
  pose proof (reachable_after_upload self filename content Hreach) as Hreach'.
  destruct (reachable_sound _ Hreach') as (_ & Hk & _ & _).
  rewrite status_files_distinct, od_get_map_length by done.
  apply replicated_length in Hrep.
  apply split_content_bounds in Hsplit as (_ & Hcat & _ & Hlen).
  unfold enumerate in Hrep.
  rewrite <- (length_map snd (enumerate_from 0 chunks)), enumerate_from_snd, Hlen in Hrep.
  unfold records in Hrep.
  set (n := chunk_count (length content) 1024) in *.
  destruct (od_get (metadata (after_upload self filename content)) (file_id filename))
    as [recs|]; simpl in Hrep; simpl; [by rewrite Hrep|].
  exfalso. assert (n = 0) as H0 by nia.
  rewrite H0 in Hlen. apply length_zero_iff_nil in Hlen. subst chunks.
  simpl in Hcat. congruence.
Qed.

(* ================================================================= *)
(** * Download after failures *)

Lemma fail_node_lookup_gen self r r' :
  nodes (fail_node self r) !! r'
  = (fun x => if decide (r' = r) then fail x else x) <$> nodes self !! r'.
Proof.
  destruct (nodes self !! r') as [x|] eqn:Hx.
  - by rewrite (fail_node_lookup self r r' x Hx).
  - simpl. apply lookup_ge_None. apply lookup_ge_None in Hx.
    by rewrite (evolves_length _ _ (evolves_fail_node self r)).
Qed.

Lemma fail_nodes_lookup rs : forall self r,
  nodes (fail_nodes self rs) !! r
  = (fun x => if bool_decide (r ∈ rs) then fail x else x) <$> nodes self !! r.
Proof.
  induction rs as [|r0 rs IH]; intros self r; simpl.
  { by destruct (nodes self !! r). }
  unfold fail_nodes in *. simpl. rewrite IH, fail_node_lookup_gen.
  destruct (nodes self !! r) as [x|]; simpl; [|done]. f_equal.
  destruct (decide (r = r0)) as [->|Hne].
  - rewrite (bool_decide_true (r0 ∈ r0 :: rs)) by (by left).
    by destruct (bool_decide (r0 ∈ rs)).
  - by rewrite bool_decide_cons_ne.
Qed.

Lemma fail_nodes_metadata rs : forall self, metadata (fail_nodes self rs) = metadata self.
Proof.
  induction rs as [|r0 rs IH]; intros self; [done|].
  unfold fail_nodes in *. simpl. by rewrite IH, fail_node_metadata.
Qed.

(** A block of records of one chunk, on nodes that all have the chunk in
    their storage: the inactive ones are passed over. *)
Lemma fetch_chunks_block_stored self chunk_id chunk ids rest acc :
  truthy chunk = true ->
  (forall r, r ∈ ids -> stores self chunk_id chunk r) ->
  fetch_chunks self (map (fun r => (r, chunk_id)) ids ++ rest) (od_set acc chunk_id chunk)
  = fetch_chunks self rest (od_set acc chunk_id chunk).
Proof.
  intros Htr. induction ids as [|r ids IH]; intros Hst; [done|].
  destruct (Hst r (list_elem_of_here _ _)) as (x & Hx & Hd).
  cbn [map app fetch_chunks]. unfold index. rewrite Hx. cbn [rbind].
  unfold retrieve_chunk. destruct (active x).
  - rewrite Hd, Htr, od_set_twice. apply IH. intros r' Hr'. apply Hst. by right.
  - apply IH. intros r' Hr'. apply Hst. by right.
Qed.

Lemma fetch_chunks_block_survivor self chunk_id chunk ids rest acc :
  truthy chunk = true ->
  (forall r, r ∈ ids -> stores self chunk_id chunk r) ->
  (exists r, r ∈ ids /\ alive self r) ->
  fetch_chunks self (map (fun r => (r, chunk_id)) ids ++ rest) acc
  = fetch_chunks self rest (od_set acc chunk_id chunk).
Proof.
  intros Htr. induction ids as [|r ids IH]; intros Hst (r1 & Hr1 & Hal).
  { by apply elem_of_nil in Hr1. }
  destruct (Hst r (list_elem_of_here _ _)) as (x & Hx & Hd).
  cbn [map app fetch_chunks]. unfold index. rewrite Hx. cbn [rbind].
  unfold retrieve_chunk. destruct (active x) eqn:Hact.
  - rewrite Hd, Htr. apply fetch_chunks_block_stored; [done|].
    intros r' Hr'. apply Hst. by right.
  - apply IH; [intros r' Hr'; apply Hst; by right|].
    exists r1. split; [|done]. apply elem_of_cons in Hr1 as [->|?]; [|done].
    destruct Hal as (y & Hy & Hact'). congruence.
Qed.

(** Among [n] different positions, fewer than [n] failures leave one out. *)
Lemma survivor (ids fs : list nat) :
  NoDup ids -> length fs < length ids -> exists r, r ∈ ids /\ r ∉ fs.
Proof.
  intros Hnd Hlen.
  destruct (decide (Forall (fun r => r ∈ fs) ids)) as [Hall|Hnot].
  - exfalso. rewrite Forall_forall in Hall.
    pose proof (submseteq_length _ _ (NoDup_submseteq _ _ Hnd Hall)). lia.
  - apply not_Forall_Exists in Hnot; [|apply _].
    apply Exists_exists in Hnot as (r & Hr & Hout). by exists r.
Qed.

Lemma replicated_fetch_failed self file_hash n fs items recs :
  replicated self file_hash n items recs ->
  length fs < n ->
  Forall (fun ic : nat * bytes => truthy (snd ic) = true) items ->
  forall rest acc,
    fetch_chunks (fail_nodes self fs) (recs ++ rest) acc
    = fetch_chunks (fail_nodes self fs) rest
        (fold_left (fun a ic => od_set a (chunk_id_of file_hash (fst ic)) (snd ic))
                   items acc).
Proof.
  intros Hrep Hfs.
  induction Hrep as [|items recs i chunk ids Hrep IH Hnd Hlen Hholds];
    intros Htr rest acc; [done|].
  apply Forall_app in Htr as [Htr1 Htr2]. rewrite Forall_singleton in Htr2. simpl in Htr2.
  rewrite <- app_assoc. rewrite (IH Htr1). rewrite fold_left_app. simpl.
  apply fetch_chunks_block_survivor; [done| |].
  - intros r Hr. destruct (Hholds r Hr) as (x & Hx & _ & Hd).
    exists (if bool_decide (r ∈ fs) then fail x else x).
    rewrite fail_nodes_lookup, Hx. split; [done|]. by destruct (bool_decide _).
  - destruct (survivor ids fs Hnd) as (r & Hr & Hout); [lia|].
    exists r. split; [done|]. destruct (Hholds r Hr) as (x & Hx & Hact & _).
    exists x. rewrite fail_nodes_lookup, Hx. split; [|done].
    simpl. by rewrite bool_decide_false.
Qed.

Lemma download_after_failures (self : DFS) (filename : string)
    (content : bytes) (failed : list nat) :
  nodes_indexed self -> chunk_size self <> 0 ->
  records self (file_id filename) = [] -> content <> [] ->
  replication_factor self
  <= length (roomy self (chunk_count (length content) (chunk_size self))) ->
  length failed < replication_factor self ->
  download_file (fail_nodes (after_upload self filename content) failed)
                (file_id filename)
  = Ok (Some content).
Proof.
  intros Hi Hcs Hnew Hne Hroomy Hfs.
  destruct (upload_file_replicated self filename content Hi) as (chunks & Hsplit & Hrep);
    [done|lia|done..|].
  set (s1 := after_upload self filename content) in *.
  apply split_content_bounds in Hsplit as (_ & Hcat & Hall & _).
  assert (Htr : Forall (fun c : bytes => truthy c = true) chunks).
  { eapply Forall_impl; [exact Hall|]. by intros c [? _]. }
  assert (Htri : Forall (fun ic : nat * bytes => truthy (snd ic) = true) (enumerate chunks)).
  { apply Forall_forall. intros [i c] Hic. simpl.
    apply (proj1 (Forall_forall _ _) Htr).
    apply (list_elem_of_fmap_2 snd) in Hic.
    change (c ∈ map snd (enumerate_from 0 chunks)) in Hic.
    by rewrite enumerate_from_snd in Hic. }
  assert (Hchunks : chunks <> []).
  { intros ->. simpl in Hcat. congruence. }
  assert (Hcov : covers s1 (file_id filename) (enumerate chunks)
                        (records s1 (file_id filename))).
  { eapply replicated_covers; [|exact Hrep]. lia. }
  assert (Hkey : od_get (metadata s1) (file_id filename)
                 = Some (records s1 (file_id filename))).
  { unfold records.
    destruct (od_get (metadata s1) (file_id filename)) as [recs|] eqn:Hget; [done|].
    exfalso. apply (covers_nonempty _ _ _ _ Hcov).
    - unfold enumerate. by destruct chunks.
    - unfold records. by rewrite Hget. }
  transitivity (download_file s1 (file_id filename)).
  - unfold download_file. rewrite fail_nodes_metadata, Hkey.
    pose proof (replicated_fetch_failed s1 (file_id filename) _ failed _ _ Hrep Hfs Htri
                  [] []) as Hfailed.
    pose proof (covers_fetch s1 (file_id filename) _ _ Hcov Htri [] []) as Hlive.
    rewrite app_nil_r in Hfailed, Hlive. by rewrite Hfailed, Hlive.
  - rewrite <- Hcat. apply download_file_covers; try done.
    apply hexdigest_no_underscore.
Qed.

(** X15. After an upload of a new name into a cluster that has at least
    [replication_factor] nodes with room for all the chunks of the file,
    the failure of any nodes, fewer than [replication_factor] of them,
    loses nothing: [download_file] still returns the content, without any
    recovery. *)
Theorem download_file_survives_failures (self : DFS) (filename : string)
    (content : bytes) (failed : list nat) :
  reachable self -> records self (file_id filename) = [] -> content <> [] ->
  replication_factor self <= length (roomy self (chunk_count (length content) 1024)) ->
  length failed < replication_factor self ->
  download_file (fail_nodes (after_upload self filename content) failed)
                (file_id filename)
  = Ok (Some content).
Proof.
  intros Hreach Hnew Hne Hroomy Hfs.
  destruct (reachable_inv _ Hreach) as (Hi & _ & Hcs).
  apply download_after_failures; try done; [lia|by rewrite Hcs].
Qed.

(* ================================================================= *)
(** * When recover_data does not terminate *)

Lemma steady_accepts chunk_id x : steady chunk_id x -> accepts x = true.
Proof.
  intros [Hact Hroom]. unfold accepts. rewrite Hact, andb_true_r.
  apply Nat.ltb_lt. destruct Hroom as [?|[? _]]; lia.
Qed.

Lemma steady_stored chunk_id data x :
  steady chunk_id x -> steady chunk_id (stored chunk_id data x).
Proof.
  intros [Hact Hroom]. split; [done|]. right. simpl. split.
  - destruct Hroom as [Hlt|[Hlt Hin]].
    + pose proof (size_insert_le (storage x) chunk_id data). lia.
    + by rewrite map_size_insert_Some.
  - rewrite lookup_insert_eq. by eexists.
Qed.

Lemma replicate_to_finds ns : forall r source_id chunk_id data p x,
  ns !! p = Some x -> active x = true -> node_id x <> source_id -> accepts x = true ->
  is_Some (replicate_to ns r source_id chunk_id data).
Proof.
  induction ns as [|y ns IH]; intros r source_id chunk_id data p x Hp Hact Hne Hacc;
    [done|].
  cbn [replicate_to].
  destruct (active y && negb (node_id y =? source_id)%nat) eqn:Hc.
  - destruct (accepts y) eqn:Hy.
    + rewrite store_chunk_accepted by done. by eexists.
    + rewrite store_chunk_refused by done.
      destruct p as [|p]; [simpl in Hp; congruence|]. by eapply IH.
  - destruct p as [|p]; [|by eapply IH].
    simpl in Hp. injection Hp as ->. rewrite Hact in Hc. simpl in Hc.
    apply negb_false_iff, Nat.eqb_eq in Hc. done.
Qed.

Lemma scan_body_ok self failed_node_id file_hash chunk_id rec :
  fst rec < length (nodes self) ->
  exists self' evs, scan_body self failed_node_id file_hash chunk_id rec = Ok (self', evs).
Proof.
  intros Hlt. unfold scan_body. destruct rec as [source_id cid]. simpl in Hlt.
  destruct (_ && _); [|by eexists _, _].
  unfold index. destruct (lookup_lt_is_Some_2 _ _ Hlt) as [source ->]. simpl.
  destruct (retrieve_chunk source chunk_id) as [data|]; [|by eexists _, _].
  destruct (truthy data); [|by eexists _, _].
  destruct (replicate_to _ _ _ _ _) as [[r x']|]; by eexists _, _.
Qed.

(** The scan of a record of the chunk on an active node that has data for
    it, while some other node accepts: a record is appended. *)
Lemma scan_body_appends self failed_node_id file_hash chunk_id c x data p y :
  c <> failed_node_id ->
  nodes self !! c = Some x -> active x = true ->
  storage x !! chunk_id = Some data -> truthy data = true ->
  nodes self !! p = Some y -> active y = true -> node_id y <> c -> accepts y = true ->
  exists r z,
    nodes self !! r = Some z /\ accepts z = true
    /\ scan_body self failed_node_id file_hash chunk_id (c, chunk_id)
       = Ok (metadata_append (set_node self r (stored chunk_id data z)) file_hash
                             (node_id z, chunk_id),
             [EvAppend file_hash (node_id z, chunk_id)]).
Proof.
  intros Hk Hx Hact Hd Htr Hy Hya Hyc Hyacc. unfold scan_body.
  rewrite String.eqb_refl. apply Nat.eqb_neq in Hk. rewrite Hk. simpl.
  unfold index. rewrite Hx. simpl. unfold retrieve_chunk. rewrite Hact, Hd, Htr.
  destruct (replicate_to_finds (nodes self) 0 c chunk_id data p y Hy Hya Hyc Hyacc)
    as [[r z'] Hrep].
  rewrite Hrep.
  apply replicate_to_Some in Hrep as (k & z & -> & Hz & Hst & _).
  assert (Hacc : accepts z = true).
  { rewrite <- (store_chunk_accepts z chunk_id data). by rewrite Hst. }
  rewrite store_chunk_accepted in Hst by done. injection Hst as <-.
  exists k, z. by repeat split.
Qed.

Lemma lookup_set_node self r x r' :
  nodes (set_node self r x) !! r'
  = if decide (r' = r) then (fun _ => x) <$> nodes self !! r' else nodes self !! r'.
Proof.
  simpl. destruct (decide (r' = r)) as [->|Hne].
  - destruct (nodes self !! r) as [y|] eqn:Hy.
    + by rewrite list_lookup_insert_eq by (by eapply lookup_lt_Some).
    + simpl. apply lookup_ge_None. rewrite length_insert. by apply lookup_ge_None.
  - by rewrite list_lookup_insert_ne.
Qed.

(** After the append of a record of the chunk stored on an accepting node,
    the scan still goes on, now towards the record just appended. *)
Lemma scan_goes_on_append self failed_node_id file_hash chunk_id i r z data :
  scan_goes_on self failed_node_id file_hash chunk_id i ->
  i < length (records self file_hash) ->
  nodes self !! r = Some z -> accepts z = true -> truthy data = true ->
  scan_goes_on (metadata_append (set_node self r (stored chunk_id data z)) file_hash
                                (node_id z, chunk_id))
               failed_node_id file_hash chunk_id (S i).
Proof.
  intros (Hidx & Hrange & Hk & (a & b & xa & xb & Hab & Ha & Hb & Hsa & Hsb) & _)
    Hi Hz Hacc Htr.
  set (s1 := metadata_append _ _ _).
  assert (Hev : evolves self s1).
  { eapply evolves_trans; [|apply evolves_metadata_append].
    eapply evolves_set_node; [done|].
    pose proof (node_evolves_store z chunk_id data) as H.
    by rewrite store_chunk_accepted in H. }
  assert (Hn : forall r', nodes s1 !! r'
                = if decide (r' = r) then (fun _ => stored chunk_id data z) <$> nodes self !! r'
                  else nodes self !! r').
  { intros r'. unfold s1. apply lookup_set_node. }
  assert (Hrec : records s1 file_hash = records self file_hash ++ [(node_id z, chunk_id)]).
  { unfold s1. by rewrite records_metadata_append, String.eqb_refl, records_set_node. }
  assert (Hst : forall p x, nodes self !! p = Some x -> steady chunk_id x ->
            exists x', nodes s1 !! p = Some x' /\ steady chunk_id x').
  { intros p x Hp Hs. rewrite Hn, Hp. destruct (decide (p = r)) as [->|Hne].
    - exists (stored chunk_id data z). split; [done|].
      apply steady_stored. by assert (x = z) as <- by congruence.
    - by exists x. }
  split; [by eapply evolves_nodes_indexed|]. split; [|split; [|split]].
  - intros rec. rewrite Hrec, (evolves_length _ _ Hev).
    intros [Hrec' | ->%list_elem_of_singleton]%elem_of_app; [by apply Hrange|].
    simpl. rewrite (Hidx r z Hz). by eapply lookup_lt_Some.
  - intros Hal. apply Hk. by eapply evolves_alive.
  - destruct (Hst a xa Ha Hsa) as (xa' & Ha' & Hsa').
    destruct (Hst b xb Hb Hsb) as (xb' & Hb' & Hsb').
    by exists a, b, xa', xb'.
  - exists (length (records self file_hash)), r, (stored chunk_id data z), data.
    split; [lia|]. split.
    { rewrite Hrec, lookup_app_r, Nat.sub_diag by lia. simpl. by rewrite (Hidx r z Hz). }
    split; [rewrite Hn, decide_True, Hz by done; done|].
    split; [simpl; by apply accepts_active|]. split; [|done].
    simpl. apply lookup_insert_eq.
Qed.

Lemma scan_goes_on_step self failed_node_id file_hash chunk_id i :
  scan_goes_on self failed_node_id file_hash chunk_id i ->
  exists rec self' evs,
    records self file_hash !! i = Some rec
    /\ scan_body self failed_node_id file_hash chunk_id rec = Ok (self', evs)
    /\ scan_goes_on self' failed_node_id file_hash chunk_id (S i).
Proof.
  intros Hinv.
  pose proof Hinv as
    (Hidx & Hrange & Hk & (a & b & xa & xb & Hab & Ha & Hb & Hsa & Hsb)
     & (j & c & x & data & Hij & Hj & Hx & Hact & Hd & Htr)).
  assert (Hlen : i < length (records self file_hash)).
  { apply lookup_lt_Some in Hj. lia. }
  destruct (lookup_lt_is_Some_2 _ _ Hlen) as [rec Hrec]. exists rec.
  destruct (decide (i = j)) as [->|Hne].
  - assert (rec = (c, chunk_id)) as -> by congruence.
    assert (Hck : c <> failed_node_id).
    { intros ->. apply Hk. by exists x. }
    assert (Hother : exists p y, nodes self !! p = Some y /\ active y = true
                                 /\ node_id y <> c /\ accepts y = true).
    { destruct (decide (a = c)) as [->|Hac].
      - exists b, xb. split; [done|]. split; [apply Hsb|].
        split; [by rewrite (Hidx b xb Hb)|by eapply steady_accepts].
      - exists a, xa. split; [done|]. split; [apply Hsa|].
        split; [by rewrite (Hidx a xa Ha)|by eapply steady_accepts]. }
    destruct Hother as (p & y & Hy & Hya & Hyc & Hyacc).
    destruct (scan_body_appends self failed_node_id file_hash chunk_id c x data p y)
      as (r & z & Hz & Hacc & Hbody); try done.
    eexists _, _. split; [done|]. split; [exact Hbody|].
    by apply scan_goes_on_append.
  - destruct (scan_body_ok self failed_node_id file_hash chunk_id rec) as (s1 & evs & Hbody).
    { apply Hrange. by eapply list_elem_of_lookup_2. }
    exists s1, evs. split; [done|]. split; [done|].
    destruct (scan_body_cases _ _ _ _ _ _ _ Hbody)
      as [[-> _]|(source & d & r & z & _ & _ & _ & _ & _ & Htr' & Hz & Hacc & _ & -> & _)].
    + split; [done|]. split; [done|]. split; [done|].
      split; [by exists a, b, xa, xb|]. exists j, c, x, data. repeat split; try done. lia.
    + by apply scan_goes_on_append.
Qed.

Lemma scan_records_goes_on fuel : forall self failed_node_id file_hash chunk_id i,
  scan_goes_on self failed_node_id file_hash chunk_id i ->
  exists evs self',
    scan_records fuel self failed_node_id file_hash chunk_id i = (evs, OutOfFuel self').
Proof.
  induction fuel as [|fuel IH]; intros self failed_node_id file_hash chunk_id i Hinv.
  { by exists [], self. }
  destruct (scan_goes_on_step _ _ _ _ _ Hinv) as (rec & s1 & evs1 & Hrec & Hbody & Hinv1).
  destruct (IH _ _ _ _ _ Hinv1) as (evs & s' & Hrun).
  rewrite scan_records_S, Hrec, Hbody, Hrun. by eexists _, _.
Qed.

Lemma affected_chunks_elem self failed_node_id file_hash chunk_id :
  (file_hash, chunk_id) ∈ affected_chunks self failed_node_id
  <-> exists recs, (file_hash, recs) ∈ metadata self /\ (failed_node_id, chunk_id) ∈ recs.
Proof.
  unfold affected_chunks. split.
  - intros Hin.
    apply list_elem_of_In, in_flat_map in Hin as ([fh' recs] & Hitem%list_elem_of_In & Hin).
    apply in_map_iff in Hin as ([nid cid] & [= <- <-] & Hrec%list_elem_of_In).
    apply list_elem_of_filter in Hrec as [Hk Hrec]. simpl in *. subst nid. by exists recs.
  - intros (recs & Hitem & Hrec).
    apply list_elem_of_In, in_flat_map. exists (file_hash, recs).
    split; [by apply list_elem_of_In|]. apply in_map_iff.
    exists (failed_node_id, chunk_id).
    split; [done|]. apply list_elem_of_In, list_elem_of_filter. by split.
Qed.

Lemma two_steady self chunk_id :
  nodes_indexed self -> 2 <= length (roomy self 2) ->
  exists a b xa xb, a <> b /\ nodes self !! a = Some xa /\ nodes self !! b = Some xb
                    /\ steady chunk_id xa /\ steady chunk_id xb.
Proof.
  intros Hidx Hlen. destruct (roomy_positions self 2 Hidx) as [Hnd Hgood].
  rewrite <- (length_map node_id) in Hlen.
  destruct (map node_id (roomy self 2)) as [|a [|b rest]]; simpl in Hlen; [lia..|].
  destruct (Hgood a) as (xa & Ha & Hra); [by left|].
  destruct (Hgood b) as (xb & Hb & Hrb); [right; by left|].
  apply NoDup_cons in Hnd as [Hab _].
  assert (Hsteady : forall x, 2 <= room x -> steady chunk_id x).
  { intros x Hr. unfold room in Hr. destruct (active x) eqn:Hact; [|lia].
    split; [done|]. left. lia. }
  exists a, b, xa, xb. split; [|by auto].
  intros ->. apply Hab. by left.
Qed.

Lemma recover_data_goes_on (self : DFS) (failed_node_id : nat) (fuel : nat) :
  sound self -> metadata_wf self ->
  has_failed self failed_node_id = true ->
  (exists file_hash chunk_id, (failed_node_id, chunk_id) ∈ records self file_hash) ->
  (forall file_hash chunk_id, (failed_node_id, chunk_id) ∈ records self file_hash ->
     exists c, (c, chunk_id) ∈ records self file_hash /\ alive self c) ->
  2 <= length (roomy self 2) ->
  exists evs self', recover_data fuel self failed_node_id = (evs, OutOfFuel self').
Proof.
  intros Hsound Hwf Hfailed (fh0 & cid0 & Hrec0) Hlive Hroomy.
  pose proof Hsound as (Hidx & Hkeys & _ & _).
  unfold recover_data.
  destruct (affected_chunks self failed_node_id) as [|[fh cid] rest] eqn:Haff.
  { exfalso. apply records_elem_of in Hrec0 as (recs & Hitem & Hrec0).
    assert (Hin : (fh0, cid0) ∈ affected_chunks self failed_node_id)
      by (apply affected_chunks_elem; by exists recs).
    rewrite Haff in Hin. by apply elem_of_nil in Hin. }
  assert (Hin : (fh, cid) ∈ affected_chunks self failed_node_id)
    by (rewrite Haff; by left).
  apply affected_chunks_elem in Hin as (recs & Hitem & Hrec).
  assert (Hrecs : records self fh = recs).
  { unfold records. by rewrite (od_get_distinct_elem _ _ _ Hkeys Hitem). }
  rewrite <- Hrecs in Hrec.
  destruct (Hlive fh cid Hrec) as (c & Hc & Hal).
  assert (Hinv : scan_goes_on self failed_node_id fh cid 0).
  { split; [done|]. split; [|split; [|split]].
    - intros [nid cid'] Hr. rewrite Hrecs in Hr.
      by apply (proj2 (Hwf fh recs Hitem) nid cid').
    - by apply has_failed_not_alive.
    - by apply two_steady.
    - apply list_elem_of_lookup in Hc as (j & Hj).
      destruct (sound_record self fh (c, cid) Hsound)
        as (x & data & Hx & _ & Hd & Hlen & _).
      { by eapply list_elem_of_lookup_2. }
      simpl in *. destruct Hal as (x' & Hx' & Hact).
      assert (x' = x) as -> by congruence.
      exists j, c, x, data. repeat split; try done; [lia|]. apply truthy_length. lia. }
  destruct (scan_records_goes_on fuel _ _ _ _ _ Hinv) as (evs & s' & Hrun).
  cbn [recover_loop]. unfold recover_chunk. cbn [fst snd]. rewrite Hrun.
  by eexists _, _.
Qed.

(** X16. The ordinary recovery does not terminate. In a reachable state in
    which node [k] has failed and is named by some record, every chunk
    recorded on [k] has a record on a node that is still active, and two
    nodes have room for two more chunks each, [recover_data(k)] never comes
    to its end, whatever the fuel: the loop over the records of the first
    affected file visits the records it appends itself, and each visit
    copies the chunk once more and appends one more record. *)
Theorem recover_data_diverges (self : DFS) (failed_node_id : nat) (fuel : nat) :
  reachable self ->
  has_failed self failed_node_id = true ->
  (exists file_hash chunk_id, (failed_node_id, chunk_id) ∈ records self file_hash) ->
  (forall file_hash chunk_id, (failed_node_id, chunk_id) ∈ records self file_hash ->
     exists c, (c, chunk_id) ∈ records self file_hash /\ alive self c) ->
  2 <= length (roomy self 2) ->
  exists evs self', recover_data fuel self failed_node_id = (evs, OutOfFuel self').
Proof.
  intros Hreach. apply recover_data_goes_on; [by apply reachable_sound|by apply reachable_wf].
Qed.

(* ================================================================= *)
(** * The monitoring loop at the first failure of a node with records *)

Lemma monitor_loop_skip fuel draw rs : forall self,
  (forall r, r ∈ rs -> draw r = false) ->
  monitor_loop fuel self draw rs = ([], Done self).
Proof.
  induction rs as [|r rs IH]; intros self Hno; cbn [monitor_loop]; [done|].
  rewrite (Hno r) by (by left).
  destruct (nodes self !! r); apply IH; intros r' Hr'; apply Hno; by right.
Qed.

Lemma monitor_loop_app fuel draw rs1 rs2 self :
  (forall r, r ∈ rs1 -> draw r = false) ->
  monitor_loop fuel self draw (rs1 ++ rs2) = monitor_loop fuel self draw rs2.
Proof.
  induction rs1 as [|r rs1 IH]; intros Hno; [done|].
  cbn [app monitor_loop]. rewrite (Hno r) by (by left).
  destruct (nodes self !! r); apply IH; intros r' Hr'; apply Hno; by right.
Qed.

Lemma alive_fail_node self r c : c <> r -> alive self c -> alive (fail_node self r) c.
Proof.
  intros Hne (x & Hx & Hact). exists x.
  by rewrite (fail_node_lookup self r c x Hx), decide_False.
Qed.

(** X17. The monitoring loop does not get past the first failure of a node
    that holds replicated chunks. In a reachable state, if [r] is the first
    node drawn in a pass, some record names [r], every chunk recorded on
    [r] has a record on another node that is active, and two nodes other
    than [r] have room for two more chunks, then the pass never comes to
    its end: [recover_data(r)] runs for ever. *)
Theorem monitor_pass_hangs (fuel : nat) (self : DFS) (draw : nat -> bool) (r : nat) :
  reachable self ->
  draw r = true -> (forall r', r' < r -> draw r' = false) ->
  (exists file_hash chunk_id, (r, chunk_id) ∈ records self file_hash) ->
  (forall file_hash chunk_id, (r, chunk_id) ∈ records self file_hash ->
     exists c, c <> r /\ (c, chunk_id) ∈ records self file_hash /\ alive self c) ->
  2 <= length (roomy (fail_node self r) 2) ->
  exists evs self', monitor_pass fuel self draw = (evs, OutOfFuel self').
Proof.
  intros Hreach Hdraw Hfirst (fh0 & cid0 & Hrec0) Hlive Hroomy.
  destruct (reachable_inv _ Hreach) as (Hidx & _ & _).
  pose proof (reachable_wf _ Hreach) as Hwf.
  assert (Hlt : r < length (nodes self)).
  { apply records_elem_of in Hrec0 as (recs & Hitem & Hrec0).
    by apply (proj2 (Hwf fh0 recs Hitem) r cid0). }
  destruct (lookup_lt_is_Some_2 _ _ Hlt) as [node Hnode].
  unfold monitor_pass.
  replace (length (nodes self)) with (r + S (length (nodes self) - S r)) by lia.
  rewrite seq_app, monitor_loop_app.
  2:{ intros r' Hr'%elem_of_seq. apply Hfirst. lia. }
  cbn [seq monitor_loop]. simpl. rewrite Hnode, Hdraw, (Hidx r node Hnode).
  assert (Hrecs : forall fh, records (fail_node self r) fh = records self fh).
  { intros fh. unfold records. by rewrite fail_node_metadata. }
  destruct (recover_data_goes_on (fail_node self r) r fuel) as (evs & s' & Hrun).
  - by apply reachable_sound, reachable_fail_node.
  - by apply reachable_wf, reachable_fail_node.
  - apply has_failed_spec. exists (fail node).
    by rewrite (fail_node_lookup self r r node Hnode), decide_True.
  - exists fh0, cid0. by rewrite Hrecs.
  - intros fh cid. rewrite Hrecs. intros Hrec.
    destruct (Hlive fh cid Hrec) as (c & Hne & Hc & Hal).
    exists c. split; [done|]. by apply alive_fail_node.
  - done.
  - rewrite Hrun. by eexists _, _.
Qed.

(* ================================================================= *)
(** * Nodes, chunks and chunk ids *)

(** X18. A chunk that a node accepted is what [retrieve_chunk] returns for
    its id, the other ids are retrieved as before; once the node has
    failed, [retrieve_chunk] returns [None] for every id and every store is
    refused, although the data is still in the storage. *)
Theorem retrieve_chunk_after_store (self : Node) (chunk_id : string) (data : bytes) :
  fst (store_chunk self chunk_id data) = true ->
  let self' := snd (store_chunk self chunk_id data) in
  retrieve_chunk self' chunk_id = Some data
  /\ (forall other, other <> chunk_id ->
        retrieve_chunk self' other = retrieve_chunk self other)
  /\ (forall other, retrieve_chunk (fail self') other = None)
  /\ (forall other data', store_chunk (fail self') other data' = (false, fail self'))
  /\ storage (fail self') !! chunk_id = Some data.
Proof.
  intros Hok self'. rewrite store_chunk_accepts in Hok.
  unfold self'. rewrite store_chunk_accepted by done.
  pose proof (accepts_active _ Hok) as Hact. cbn [snd].
  unfold retrieve_chunk. simpl. rewrite Hact. repeat split.
  - apply lookup_insert_eq.
  - intros other Hne. by rewrite lookup_insert_ne.
  - intros other data'. by apply store_chunk_inactive.
  - apply lookup_insert_eq.
Qed.

(** X19. The chunking of [upload_file] loses nothing: with a chunk size of
    zero the [range] raises [ValueError]; otherwise the chunks, in order,
    concatenate to the content, there are ceil(len / chunk_size) of them,
    none is empty, and all but the last have exactly [chunk_size] bytes. *)
Theorem split_content_lossless (content : bytes) (chunk_size : nat) :
  match split_content content chunk_size with
  | Raise e => chunk_size = 0 /\ e = ValueError
  | Ok chunks =>
      chunk_size <> 0
      /\ concat chunks = content
      /\ length chunks = chunk_count (length content) chunk_size
      /\ Forall (fun c : bytes => 1 <= length c <= chunk_size) chunks
      /\ forall i c, chunks !! i = Some c -> S i < length chunks ->
           length c = chunk_size
  end.
Proof.
  destruct (decide (chunk_size = 0)) as [->|Hcs]; [done|].
  destruct (split_content content chunk_size) as [chunks|e] eqn:Hsplit.
  2:{ by rewrite split_content_ok in Hsplit. }
  pose proof Hsplit as (_ & Hcat & Hall & Hlen)%split_content_bounds.
  split; [done|]. split; [done|]. split; [done|]. split.
  - eapply Forall_impl; [exact Hall|]. intros c [Htr ?]. split; [|done].
    by apply truthy_length.
  - rewrite split_content_chunks in Hsplit by done. injection Hsplit as <-.
    intros i c Hi Hlast. rewrite length_map, length_seq in Hlast.
    change (((fun k => take chunk_size (drop (k * chunk_size) content))
               <$> seq 0 (chunk_count (length content) chunk_size)) !! i = Some c) in Hi.
    rewrite list_lookup_fmap, lookup_seq_lt in Hi by lia. simpl in Hi.
    injection Hi as <-. rewrite length_take, length_drop.
    pose proof (chunk_count_tight (length content) chunk_size (S i) Hcs Hlast).
    simpl in *. lia.
Qed.

(** X20. The sequence number that [download_file] parses out of a chunk id
    is the index [upload_file] built the id from, whatever the file name,
    and two chunk ids are equal only for the same file id and the same
    index. *)
Theorem chunk_id_round_trip (filename filename' : string) (i j : nat) :
  chunk_seq (chunk_id_of (file_id filename) i) = Ok (Z.of_nat i)
  /\ (chunk_id_of (file_id filename) i = chunk_id_of (file_id filename') j ->
      file_id filename = file_id filename' /\ i = j).
Proof.
  split; [apply chunk_seq_upload|]. intros Heq.
  assert (Hfile : file_id filename = file_id filename').
  { eapply chunk_id_of_file; [| |exact Heq]; apply hexdigest_no_underscore. }
  split; [done|]. rewrite Hfile in Heq. by apply chunk_id_of_inj in Heq.
Qed.

(* ================================================================= *)
(** * recover_data in a cluster without room *)

Lemma replicate_to_none ns : forall r source_id chunk_id data,
  (forall x, x ∈ ns -> accepts x = false) ->
  replicate_to ns r source_id chunk_id data = None.
Proof.
  induction ns as [|y ns IH]; intros r source_id chunk_id data Hall; [done|].
  cbn [replicate_to]. rewrite store_chunk_refused by (apply Hall; by left).
  destruct (_ && _); apply IH; intros x Hx; apply Hall; by right.
Qed.

Lemma scan_body_no_room self failed_node_id file_hash chunk_id rec :
  free self = 0 -> fst rec < length (nodes self) ->
  scan_body self failed_node_id file_hash chunk_id rec = Ok (self, []).
Proof.
  intros Hfree Hlt. unfold scan_body. destruct rec as [source_id cid]. simpl in Hlt.
  destruct (_ && _); [|done].
  unfold index. destruct (lookup_lt_is_Some_2 _ _ Hlt) as [source ->]. simpl.
  destruct (retrieve_chunk source chunk_id) as [data|]; [|done].
  destruct (truthy data); [|done].
  rewrite replicate_to_none; [done|].
  intros x (r & Hx)%list_elem_of_lookup. by eapply free_zero_refuses.
Qed.

Lemma scan_records_no_room fuel : forall self failed_node_id file_hash chunk_id i,
  free self = 0 ->
  (forall rec, rec ∈ records self file_hash -> fst rec < length (nodes self)) ->
  length (records self file_hash) - i < fuel ->
  scan_records fuel self failed_node_id file_hash chunk_id i = ([], Done self).
Proof.
  induction fuel as [|fuel IH]; intros self failed_node_id file_hash chunk_id i
    Hfree Hrange Hfuel; [lia|].
  rewrite scan_records_S.
  destruct (records self file_hash !! i) as [rec|] eqn:Hrec; [|done].
  rewrite scan_body_no_room; [|done|by eapply Hrange, list_elem_of_lookup_2].
  rewrite IH; [done..|]. apply lookup_lt_Some in Hrec. lia.
Qed.

Lemma filter_twice {A} (P : A -> Prop) `{forall x, Decision (P x)} (l : list A) :
  filter P (filter P l) = filter P l.
Proof. pose proof (filter_filter_app P l []) as Heq. by rewrite !app_nil_r in Heq. Qed.

Lemma records_remove_stale_cases self file_hash failed_node_id other :
  records (remove_stale self file_hash failed_node_id) other
  = if decide (other = file_hash)
    then filter (fun rec : replica => fst rec <> failed_node_id) (records self other)
    else records self other.
Proof.
  destruct (decide (other = file_hash)) as [->|Hne]; [apply records_remove_stale|].
  by apply records_od_get, od_get_remove_stale_ne.
Qed.

Lemma recover_loop_no_room fuel failed_node_id affected : forall self,
  free self = 0 ->
  (forall file_hash rec, rec ∈ records self file_hash -> fst rec < length (nodes self)) ->
  (forall file_hash, length (records self file_hash) < fuel) ->
  exists evs self',
    recover_loop fuel self failed_node_id affected = (evs, Done self')
    /\ nodes self' = nodes self
    /\ Forall (fun e => exists file_hash, e = EvRemove file_hash failed_node_id) evs
    /\ forall file_hash,
         records self' file_hash
         = if decide (file_hash ∈ map fst affected)
           then filter (fun rec : replica => fst rec <> failed_node_id)
                       (records self file_hash)
           else records self file_hash.
Proof.
  induction affected as [|[fh cid] affected IH]; intros self Hfree Hrange Hfuel.
  { exists [], self. repeat split; try done. }
  cbn [recover_loop]. unfold recover_chunk. cbn [fst snd].
  rewrite scan_records_no_room; [|done|by apply Hrange|specialize (Hfuel fh); lia].
  set (s1 := remove_stale self fh failed_node_id).
  assert (Hrec1 : forall other, records s1 other
            = if decide (other = fh)
              then filter (fun rec : replica => fst rec <> failed_node_id)
                          (records self other)
              else records self other) by apply records_remove_stale_cases.
  destruct (IH s1) as (evs & s' & Hrun & Hn & Hevs & Hrecs).
  - exact Hfree.
  - intros other rec. rewrite Hrec1.
    destruct (decide (other = fh)); [|apply Hrange].
    intros [_ Hin]%list_elem_of_filter. by eapply Hrange.
  - intros other. rewrite Hrec1. destruct (decide (other = fh)); [|apply Hfuel].
    eapply Nat.le_lt_trans; [apply length_filter|apply Hfuel].
  - rewrite Hrun. eexists _, s'. split; [done|]. split; [done|]. split.
    { simpl. apply Forall_cons. split; [by eexists|done]. }
    intros other. rewrite Hrecs, Hrec1. cbn [map fst].
    destruct (decide (other = fh)) as [->|Hne].
    + rewrite (decide_True (P := fh ∈ fh :: map fst affected)) by (by left).
      destruct (decide (fh ∈ map fst affected)); [|done].
      apply filter_twice.
    + destruct (decide (other ∈ map fst affected)) as [Hin|Hout].
      * by rewrite decide_True by (by right).
      * rewrite decide_False; [done|]. by intros [?|?]%elem_of_cons.
Qed.

(** X21. In a cluster without room (every node failed or full), with fuel
    for one scan of the longest record list, [recover_data(k)] comes to
    its end without a single copy: the nodes are unchanged, the only events
    are removals, and the records of every file are what they were less
    those of node [k]. The replicas of [k] are dropped, not replaced. *)
Theorem recover_data_without_room (fuel : nat) (self : DFS) (failed_node_id : nat) :
  reachable self -> free self = 0 ->
  (forall file_hash, length (records self file_hash) < fuel) ->
  exists evs self',
    recover_data fuel self failed_node_id = (evs, Done self')
    /\ nodes self' = nodes self
    /\ Forall (fun e => exists file_hash, e = EvRemove file_hash failed_node_id) evs
    /\ forall file_hash,
         records self' file_hash
         = filter (fun rec : replica => fst rec <> failed_node_id)
                  (records self file_hash).
Proof.
  intros Hreach Hfree Hfuel. pose proof (reachable_wf _ Hreach) as Hwf.
  destruct (recover_loop_no_room fuel failed_node_id
              (affected_chunks self failed_node_id) self Hfree)
    as (evs & s' & Hrun & Hn & Hevs & Hrecs); [|done|].
  { intros fh [nid cid] (recs & Hitem & Hrec)%records_elem_of.
    by apply (proj2 (Hwf fh recs Hitem) nid cid). }
  exists evs, s'. split; [done|]. split; [done|]. split; [done|].
  intros fh. rewrite Hrecs.
  destruct (decide (fh ∈ map fst (affected_chunks self failed_node_id)))
    as [Haff|Haff]; [done|].
  symmetry. apply filter_all. intros rec Hrec Hk. apply Haff.
  apply affected_chunks_files.
  apply records_elem_of in Hrec as (recs & Hitem & Hrec). by exists recs, rec.
Qed.

(* ================================================================= *)
(** * The routes *)

Lemma download_file_Some_not_empty self file_hash data :
  metadata_wf self -> download_file self file_hash = Ok (Some data) -> data <> [].
Proof.
  intros Hwf. unfold download_file.
  destruct (od_get (metadata self) file_hash) as [recs|] eqn:Hget; [|done].
  destruct (Hwf _ _ (od_get_elem_of _ _ _ Hget)) as [Hfh Hrecs].
  destruct (fetch_chunks_ok self recs recs []) as (chunks & -> & Hch & _).
  { intros nid cid Hin. split; [by apply (Hrecs nid cid)|done]. }
  { by intros ? ? ?%elem_of_nil. }
  cbn [rbind]. destruct chunks as [|item chunks]; [done|].
  destruct (rmapM_chunk_seq_ok file_hash (item :: chunks) Hfh) as (keyed & -> & Hsnd & _).
  { intros k v (nid & x & Hin & _)%Hch. by apply (Hrecs nid k). }
  cbn [rbind]. intros [= <-]. unfold join. apply concat_truthy.
  - intros Hnil. apply (f_equal length) in Hnil.
    rewrite length_map, (Permutation_length (sorted_perm fst keyed)) in Hnil.
    apply (f_equal length) in Hsnd. rewrite length_map in Hsnd. simpl in *. lia.
  - apply Forall_forall. intros c [p [-> Hin]]%list_elem_of_fmap.
    rewrite sorted_perm in Hin.
    assert (Hitem : snd p ∈ item :: chunks).
    { rewrite <- Hsnd. apply list_elem_of_fmap. by exists p. }
    destruct (snd p) as [k v] eqn:Hp. simpl.
    by destruct (Hch k v Hitem) as (nid & x & _ & _ & _ & Ht).
Qed.

(** X23. The download route in a reachable state never fails with an
    exception. It answers 404 exactly when [download_file] returns [None]
    (the id is unknown, or every node named by its records has failed), and
    otherwise 200 with the bytes that [download_file] returns, which are
    never empty, as an attachment named file_<file_hash>. *)
Theorem download_route (dfs : DFS) (file_hash : string) :
  reachable dfs ->
  (download_file dfs file_hash = Ok None
   /\ download dfs file_hash
      = Ok (mkResponse 404 (Text "File not found or unavailable")))
  \/ exists data,
       data <> [] /\ download_file dfs file_hash = Ok (Some data)
       /\ download dfs file_hash
          = Ok (mkResponse 200 (Attachment ("file_" +:+ file_hash) data)).
Proof.
  intros Hreach. pose proof (reachable_wf _ Hreach) as Hwf.
  assert (Hok : exists res, download_file dfs file_hash = Ok res).
  { destruct (od_get (metadata dfs) file_hash) as [recs|] eqn:Hget.
    - by destruct (download_file_None_iff dfs file_hash recs Hwf Hget) as [? _].
    - exists None. by apply download_file_unknown. }
  destruct Hok as [[data|] Hres]; unfold download; rewrite Hres; cbn [rbind].
  - right. exists data.
    pose proof (download_file_Some_not_empty dfs file_hash data Hwf Hres) as Hne.
    split; [done|]. split; [done|]. destruct data; [done|]. done.
  - by left.
Qed.

(** X24. Upload and download through the routes. In a reachable state, an
    upload of a new name, with a file name and a content that are not
    empty, into a cluster that has at least [replication_factor] nodes
    with room for all the chunks, is answered with 200 and the file id in
    the text, and a download of that id is then answered with 200 and
    exactly the content. *)
Theorem upload_then_download_routes (dfs : DFS) (filename : string) (content : bytes) :
  reachable dfs -> filename <> "" -> content <> [] ->
  records dfs (file_id filename) = [] ->
  1 <= replication_factor dfs ->
  replication_factor dfs <= length (roomy dfs (chunk_count (length content) 1024)) ->
  exists dfs',
    upload dfs filename content
    = Ok (mkResponse 200 (Text ("File uploaded successfully. Hash: " +:+ file_id filename)),
          dfs')
    /\ download dfs' (file_id filename)
       = Ok (mkResponse 200 (Attachment ("file_" +:+ file_id filename) content)).
Proof.
  intros Hreach Hname Hne Hnew Hrf Hroomy.
  destruct (reachable_inv _ Hreach) as (Hi & _ & Hcs).
  exists (after_upload dfs filename content). split.
  - unfold upload. apply String.eqb_neq in Hname. rewrite Hname. cbn [negb].
    rewrite upload_file_ok by lia. done.
  - unfold download.
    rewrite <- Hcs in Hroomy.
    pose proof (download_after_failures dfs filename content [] Hi) as Hdown.
    unfold fail_nodes in Hdown. cbn [fold_left length] in Hdown.
    rewrite Hdown; [|lia|done..|lia]. cbn [rbind]. by destruct content.
Qed.

(** X25. The two ways an upload request stores nothing. A part with an
    empty file name is answered with 400 and the state is left as it is. A
    part with a file name and an empty content is answered with 200 and
    the file id, like a success, yet the state is left as it is: if the id
    was unknown before, a download of it is then answered with 404. *)
Theorem upload_route_stores_nothing (dfs : DFS) (filename : string) (content : bytes) :
  reachable dfs ->
  upload dfs "" content = Ok (mkResponse 400 (Text "No file uploaded"), dfs)
  /\ (filename <> "" ->
      upload dfs filename []
      = Ok (mkResponse 200 (Text ("File uploaded successfully. Hash: " +:+ file_id filename)),
            dfs)
      /\ (od_get (metadata dfs) (file_id filename) = None ->
          download dfs (file_id filename)
          = Ok (mkResponse 404 (Text "File not found or unavailable")))).
Proof.
  intros Hreach. destruct (reachable_inv _ Hreach) as (_ & _ & Hcs).
  split; [done|]. intros Hname. split.
  - unfold upload. apply String.eqb_neq in Hname. rewrite Hname. cbn [negb].
    unfold upload_file. rewrite split_content_empty by lia. done.
  - intros Hnone. unfold download. by rewrite download_file_unknown.
Qed.

(* ================================================================= *)
(** * Load balancing *)

(** A node that accepts and is not selected comes after every selected
    node in the ranking. *)
Lemma policy_select_before ranked : forall needed y z,
  StronglySorted rank_le ranked ->
  y ∈ policy_select needed ranked -> z ∈ ranked -> accepts z = true ->
  z ∉ policy_select needed ranked -> rank_le y z.
Proof.
  induction ranked as [|x ranked IH]; intros needed y z Hsorted Hy Hz Hacc Hout.
  { by apply elem_of_nil in Hz. }
  apply StronglySorted_inv in Hsorted as [Hsorted Hx].
  destruct needed as [|needed]; [by apply elem_of_nil in Hy|].
  cbn [policy_select] in Hy, Hout. destruct (accepts x) eqn:Hax.
  - apply not_elem_of_cons in Hout as [Hzx Hout].
    apply elem_of_cons in Hz as [?|Hz]; [done|].
    apply elem_of_cons in Hy as [->|Hy].
    + by apply (proj1 (Forall_forall _ _) Hx).
    + by eapply IH.
  - apply elem_of_cons in Hz as [->|Hz]; [congruence|]. by eapply IH.
Qed.

Lemma rank_le_size y z : rank_le y z -> size (storage y) <= size (storage z).
Proof. intros [?|[? _]]; lia. Qed.

(** What the placement of one chunk does: it stores on a front part of the
    accepting nodes of the ranking and records these stores. *)
Lemma place_chunk_effect self file_hash ic :
  nodes_indexed self ->
  exists needed,
    let selected := policy_select needed (policy_ranking (nodes self)) in
    let ids := map node_id selected in
    let self' := place_chunk self file_hash ic in
    records self' file_hash
    = records self file_hash ++ map (fun r => (r, chunk_id_of file_hash (fst ic))) ids
    /\ (forall other, other <> file_hash -> records self' other = records self other)
    /\ (forall r, nodes self' !! r
          = if decide (r ∈ ids)
            then stored (chunk_id_of file_hash (fst ic)) (snd ic) <$> nodes self !! r
            else nodes self !! r)
    /\ (forall x, x ∈ nodes self -> node_id x ∈ ids <-> x ∈ selected).
Proof.
  intros Hi. unfold place_chunk. rewrite nodes_by_load_policy by done.
  assert (Hel : forall x, x ∈ policy_ranking (nodes self) ->
                          nodes self !! node_id x = Some x).
  { intros x Hx. apply nodes_indexed_elem; [done|].
    revert Hx. by rewrite policy_ranking_perm. }
  assert (Hnd : NoDup (map node_id (policy_ranking (nodes self)))).
  { change (NoDup (node_id <$> policy_ranking (nodes self))).
    rewrite policy_ranking_perm.
    change (NoDup (map node_id (nodes self))).
    rewrite nodes_indexed_ids by done. apply NoDup_seq. }
  destruct (place_replicas_select file_hash (chunk_id_of file_hash (fst ic)) (snd ic)
              (policy_ranking (nodes self)) self 0 Hel Hnd) as (needed & ->).
  exists needed. cbn zeta.
  set (selected := policy_select needed (policy_ranking (nodes self))).
  set (ids := map node_id selected).
  assert (Hnd' : NoDup ids).
  { apply (sublist_NoDup _ (node_id <$> policy_ranking (nodes self))); [done|].
    apply (fmap_sublist node_id), policy_select_sublist. }
  destruct (fold_policy_store file_hash (chunk_id_of file_hash (fst ic)) (snd ic)
              ids self Hnd') as (Hrec & Hoth & _ & Hnodes).
  { intros r [x [-> Hx]]%list_elem_of_fmap.
    apply policy_select_elem in Hx as [Hx Hacc]. exists x. split; [by apply Hel|done]. }
  split; [done|]. split; [intros other Hne; by apply records_od_get, Hoth|].
  split; [done|].
  intros x Hx. split.
  - intros (y & Hid & Hy)%list_elem_of_fmap.
    pose proof (Hel y (proj1 (policy_select_elem _ _ _ Hy))) as Hly.
    pose proof (nodes_indexed_elem self x Hi Hx) as Hlx.
    rewrite Hid in Hlx. by assert (x = y) as -> by congruence.
  - intros Hsel. apply list_elem_of_fmap. by exists x.
Qed.

Lemma size_stored_fresh chunk_id chunk x :
  storage x !! chunk_id = None ->
  size (storage (stored chunk_id chunk x)) = S (size (storage x)).
Proof. intros Hnone. simpl. by apply map_size_insert_None. Qed.

(** One chunk more keeps the active nodes balanced. *)
Lemma place_chunk_balanced self file_hash ic cap :
  nodes_indexed self -> capacity_ok self ->
  (forall x, x ∈ nodes self -> capacity x = cap) ->
  (forall x, x ∈ nodes self -> storage x !! chunk_id_of file_hash (fst ic) = None) ->
  balanced self -> balanced (place_chunk self file_hash ic).
Proof.
  intros Hi Hcap Hunif Hfresh [m Hm].
  destruct (place_chunk_effect self file_hash ic Hi) as (needed & _ & _ & Hnodes & Hsel).
  cbn zeta in Hnodes, Hsel.
  set (selected := policy_select needed (policy_ranking (nodes self))) in *.
  set (ids := map node_id selected) in *.
  set (cid := chunk_id_of file_hash (fst ic)) in *.
  assert (Hselected : forall y, y ∈ selected -> y ∈ nodes self /\ accepts y = true).
  { intros y [Hy Hacc]%policy_select_elem. split; [|done].
    revert Hy. by rewrite policy_ranking_perm. }
  (* the nodes of the new state *)
  assert (Hnew : forall x', x' ∈ nodes (place_chunk self file_hash ic) ->
            (exists x, x ∈ selected /\ x' = stored cid (snd ic) x)
            \/ (x' ∈ nodes self /\ x' ∉ selected)).
  { intros x' (r & Hr)%list_elem_of_lookup. rewrite Hnodes in Hr.
    destruct (nodes self !! r) as [x|] eqn:Hx; [|by destruct (decide (r ∈ ids))].
    pose proof (list_elem_of_lookup_2 _ _ _ Hx) as Hxin.
    pose proof (Hi r x Hx) as Hid. rewrite <- Hid in Hr.
    destruct (decide (node_id x ∈ ids)) as [Hin|Hout]; simpl in Hr; injection Hr as <-.
    - left. exists x. split; [by apply Hsel|done].
    - right. split; [done|]. intros Hs. apply Hout. by apply Hsel. }
  assert (Hbound : forall y, y ∈ selected -> m <= size (storage y) <= S m).
  { intros y Hy. destruct (Hselected y Hy) as [Hin Hacc].
    apply Hm; [done|by apply accepts_active]. }
  destruct (decide (Exists (fun y => size (storage y) = S m) selected)) as [Hex|Hno].
  - apply Exists_exists in Hex as (y0 & Hy0 & Hload).
    destruct (Hselected y0 Hy0) as [Hy0in Hy0acc].
    exists (S m). intros x' Hx' Hact.
    destruct (Hnew x' Hx') as [(x & Hx & ->)|[Hxin Hout]].
    + destruct (Hselected x Hx) as [Hxin _].
      rewrite size_stored_fresh by (by apply Hfresh).
      specialize (Hbound x Hx). lia.
    + specialize (Hm x' Hxin Hact). split; [|lia].
      destruct (accepts x') eqn:Hacc.
      * assert (Hle : rank_le y0 x').
        { eapply (policy_select_before (policy_ranking (nodes self)) needed);
            [apply policy_ranking_sorted|done| |done|done].
          by rewrite policy_ranking_perm. }
        apply rank_le_size in Hle. lia.
      * exfalso. unfold accepts in Hacc, Hy0acc. rewrite Hact, andb_true_r in Hacc.
        apply andb_prop in Hy0acc as [Hy0lt _].
        apply Nat.ltb_ge in Hacc. apply Nat.ltb_lt in Hy0lt.
        rewrite (Hunif x' Hxin) in Hacc. rewrite (Hunif y0 Hy0in) in Hy0lt. lia.
  - exists m. intros x' Hx' Hact.
    destruct (Hnew x' Hx') as [(x & Hx & ->)|[Hxin Hout]]; [|by apply Hm].
    destruct (Hselected x Hx) as [Hxin _].
    rewrite size_stored_fresh by (by apply Hfresh).
    specialize (Hbound x Hx).
    assert (size (storage x) <> S m); [|lia].
    intros Heq. apply Hno. apply Exists_exists. by exists x.
Qed.

(** The storage of the nodes after one chunk more. *)
Lemma place_chunk_storage self file_hash ic x' chunk_id :
  nodes_indexed self -> x' ∈ nodes (place_chunk self file_hash ic) ->
  chunk_id <> chunk_id_of file_hash (fst ic) ->
  exists x, x ∈ nodes self /\ capacity x' = capacity x
            /\ storage x' !! chunk_id = storage x !! chunk_id.
Proof.
  intros Hi (r & Hr)%list_elem_of_lookup Hne.
  destruct (place_chunk_effect self file_hash ic Hi) as (needed & _ & _ & Hnodes & _).
  cbn zeta in Hnodes. rewrite Hnodes in Hr.
  destruct (nodes self !! r) as [x|] eqn:Hx; [|by destruct (decide _)].
  exists x. split; [by eapply list_elem_of_lookup_2|].
  destruct (decide _); simpl in Hr; injection Hr as <-; [|done].
  split; [done|]. simpl. by rewrite lookup_insert_ne.
Qed.

Lemma place_chunks_balanced file_hash chunks cap : forall k self,
  nodes_indexed self -> capacity_ok self ->
  (forall x, x ∈ nodes self -> capacity x = cap) ->
  (forall x i, x ∈ nodes self -> k <= i -> storage x !! chunk_id_of file_hash i = None) ->
  balanced self ->
  balanced (fold_left (fun s ic => place_chunk s file_hash ic)
                      (enumerate_from k chunks) self).
Proof.
  induction chunks as [|c chunks IH]; intros k self Hi Hcap Hunif Hfresh Hbal; [done|].
  cbn [enumerate_from fold_left].
  pose proof (evolves_place_replicas (nodes_by_load self) self file_hash
                (chunk_id_of file_hash k) c 0) as Hev.
  fold (place_chunk self file_hash (k, c)) in Hev.
  apply IH.
  - by eapply evolves_nodes_indexed.
  - by eapply evolves_capacity_ok.
  - intros x' Hx'.
    destruct (place_chunk_storage self file_hash (k, c) x' EmptyString Hi Hx')
      as (x & Hx & -> & _); [|by apply Hunif].
    unfold chunk_id_of. simpl. by destruct file_hash.
  - intros x' i Hx' Hki.
    destruct (place_chunk_storage self file_hash (k, c) x' (chunk_id_of file_hash i) Hi Hx')
      as (x & Hx & _ & ->).
    + intros Heq%chunk_id_of_inj. simpl in Heq. lia.
    + apply Hfresh; [done|lia].
  - apply (place_chunk_balanced self file_hash (k, c) cap); try done.
    intros x Hx. apply Hfresh; [done|]. simpl. lia.
Qed.

Lemma place_chunks_stored_recorded file_hash ics : forall self,
  nodes_indexed self -> stored_recorded self ->
  stored_recorded (fold_left (fun s ic => place_chunk s file_hash ic) ics self).
Proof.
  induction ics as [|ic ics IH]; intros self Hi Hsr; [done|]. cbn [fold_left].
  apply IH.
  { eapply evolves_nodes_indexed; [apply evolves_place_replicas|done]. }
  destruct (place_chunk_effect self file_hash ic Hi) as (needed & Hrec & Hoth & Hnodes & _).
  cbn zeta in Hrec, Hoth, Hnodes.
  set (ids := map node_id (policy_select needed (policy_ranking (nodes self)))) in *.
  assert (Hold : forall r cid fh, (r, cid) ∈ records self fh ->
            exists fh', (r, cid) ∈ records (place_chunk self file_hash ic) fh').
  { intros r cid fh Hin. exists fh. destruct (decide (fh = file_hash)) as [->|Hne].
    - rewrite Hrec. apply elem_of_app. by left.
    - by rewrite Hoth. }
  intros r x' cid Hr Hcid. rewrite Hnodes in Hr.
  destruct (nodes self !! r) as [x|] eqn:Hx; [|by destruct (decide _)].
  destruct (decide (r ∈ ids)) as [Hin|Hout]; simpl in Hr; injection Hr as <-.
  - destruct (decide (cid = chunk_id_of file_hash (fst ic))) as [->|Hne].
    + exists file_hash. rewrite Hrec. apply elem_of_app. right.
      apply list_elem_of_fmap. by exists r.
    + simpl in Hcid. rewrite lookup_insert_ne in Hcid by done.
      destruct (Hsr r x cid Hx Hcid) as (fh & Hfh). by eapply Hold.
  - destruct (Hsr r x cid Hx Hcid) as (fh & Hfh). by eapply Hold.
Qed.

Lemma reachable_fresh_reachable s : reachable_fresh s -> reachable s.
Proof.
  induction 1 as [n rf|s s' _ IH Hstep]; [apply reach_init|].
  eapply reach_step; [exact IH|].
  destruct Hstep as [s filename content h s' _ Hup|s r];
    [by eapply step_upload|apply step_fail].
Qed.

Lemma fresh_balanced s : reachable_fresh s -> stored_recorded s /\ balanced s.
Proof.
  induction 1 as [n rf|s s' Hfresh [Hsr Hbal] Hstep].
  { split.
    - intros r x cid Hx. apply DFS_init_lookup in Hx as ->. simpl.
      rewrite lookup_empty. by intros [? ?].
    - exists 0. intros x (r & Hx)%list_elem_of_lookup _.
      apply DFS_init_lookup in Hx as ->. simpl. rewrite map_size_empty. lia. }
  pose proof (reachable_fresh_reachable _ Hfresh) as Hreach.
  destruct (reachable_inv _ Hreach) as (Hi & Hcap & _).
  pose proof (reachable_wf _ Hreach) as Hwf.
  destruct Hstep as [s filename content h s' Hnew Hup|s r].
  - revert Hup. unfold upload_file.
    destruct (split_content _ _) as [chunks|]; simpl; [|done]. intros [= _ <-].
    fold (file_id filename). split; [by apply place_chunks_stored_recorded|].
    apply (place_chunks_balanced (file_id filename) chunks 100 0); try done.
    + intros x Hx. by apply (reachable_capacity s).
    + intros x i (r & Hx)%list_elem_of_lookup _.
      destruct (storage x !! chunk_id_of (file_id filename) i) as [data|] eqn:Hd; [|done].
      exfalso. destruct (Hsr r x _ Hx (mk_is_Some _ _ Hd)) as (fh & Hrec).
      pose proof Hrec as (recs & Hitem & Hin)%records_elem_of.
      destruct (Hwf fh recs Hitem) as [Hfh Hall].
      destruct (Hall r _ Hin) as [_ [j Hj]].
      assert (fh = file_id filename) as ->.
      { symmetry. eapply chunk_id_of_file; [| |exact Hj]; [|done].
        apply hexdigest_no_underscore. }
      rewrite Hnew in Hrec. by apply elem_of_nil in Hrec.
  - split.
    + intros r' x' cid. rewrite fail_node_lookup_gen.
      destruct (nodes s !! r') as [x|] eqn:Hx; [|done]. simpl. intros [= <-] Hcid.
      destruct (Hsr r' x cid Hx) as (fh & Hrec).
      { by destruct (decide (r' = r)). }
      exists fh. unfold records. by rewrite fail_node_metadata.
    + destruct Hbal as [m Hm]. exists m.
      intros x' (r' & Hx')%list_elem_of_lookup Hact.
      rewrite fail_node_lookup_gen in Hx'.
      destruct (nodes s !! r') as [x|] eqn:Hx; [|done]. simpl in Hx'.
      injection Hx' as <-. destruct (decide (r' = r)); [done|].
      apply Hm; [by eapply list_elem_of_lookup_2|done].
Qed.

(** X26. Load balancing. In every state reached from a new [DFS] by
    uploads of new names and node failures, the chunk counts of any two
    active nodes differ by one at most, whatever the replication factor
    and however full the nodes are. (The statement is about uploads and
    failures only: [recover_data] copies to the first node that accepts,
    not to the least loaded.) *)
Theorem uploads_keep_nodes_balanced (self : DFS) :
  reachable_fresh self -> balanced self.
Proof. intros Hfresh. by apply fresh_balanced in Hfresh as [_ ?]. Qed.

(* ================================================================= *)
(** * What a completed recover_data keeps *)

Lemma forallb_false_elem {A} (f : A -> bool) (l : list A) :
  forallb f l <> true -> exists x, x ∈ l /\ f x = false.
Proof.
  induction l as [|x l IH]; simpl; [done|].
  destruct (f x) eqn:Hx; simpl.
  - intros (y & Hy & Hfy)%IH. exists y. split; [by right|done].
  - intros _. exists x. split; [by left|done].
Qed.

Lemma recover_data_keeps fuel self failed_node_id evs self' file_hash rec :
  reachable self -> has_failed self failed_node_id = true ->
  recover_data fuel self failed_node_id = (evs, Done self') ->
  rec ∈ records self file_hash -> responsive self rec = true ->
  rec ∈ records self' file_hash /\ responsive self' rec = true.
Proof.
  intros Hreach Hfailed Hrun Hrec Hresp.
  destruct (reachable_inv _ Hreach) as (Hidx & _ & _).
  assert (Hreach' : reachable self').
  { eapply reach_step; [exact Hreach|]. by eapply step_recover. }
  destruct (sound_record self file_hash rec (reachable_sound _ Hreach) Hrec)
    as (x & data & Hx & _ & _ & _ & Hact).
  rewrite Hresp in Hact.
  assert (Hne : fst rec <> failed_node_id).
  { intros Heq. apply (has_failed_not_alive _ _ Hfailed). rewrite <- Heq. by exists x. }
  assert (Hrec' : rec ∈ records self' file_hash).
  { destruct (recover_data_done _ _ _ _ _ file_hash Hidx Hrun) as (appended & -> & _).
    apply list_elem_of_filter. split; [done|]. apply elem_of_app. by left. }
  split; [done|].
  destruct (sound_record self' file_hash rec (reachable_sound _ Hreach') Hrec')
    as (x' & data' & Hx' & _ & _ & _ & ->).
  pose proof (recover_loop_activity fuel failed_node_id
                (affected_chunks self failed_node_id) self) as Hsame.
  fold (recover_data fuel self failed_node_id) in Hsame. rewrite Hrun in Hsame.
  destruct (activity_lookup _ _ _ _ Hsame Hx) as (y & Hy & Hya).
  simpl in Hy. assert (y = x') as -> by congruence. congruence.
Qed.

(** X27. A completed [recover_data(k)] of a failed node loses no replica
    that can be read: every record that answered a retrieve with data
    before is still a record of the file and still answers with data, so a
    file that [download_file] could return is not made unavailable by the
    recovery. *)
Theorem recover_data_keeps_replicas (fuel : nat) (self : DFS) (failed_node_id : nat)
    (evs : list event) (self' : DFS) (file_hash : string) :
  reachable self -> has_failed self failed_node_id = true ->
  recover_data fuel self failed_node_id = (evs, Done self') ->
  (forall rec, rec ∈ records self file_hash -> responsive self rec = true ->
     rec ∈ records self' file_hash /\ responsive self' rec = true)
  /\ (download_file self file_hash <> Ok None ->
      download_file self' file_hash <> Ok None).
Proof.
  intros Hreach Hfailed Hrun.
  assert (Hkeeps : forall rec, rec ∈ records self file_hash -> responsive self rec = true ->
            rec ∈ records self' file_hash /\ responsive self' rec = true).
  { intros rec. by eapply recover_data_keeps. }
  split; [done|]. intros Hsome Hnone.
  assert (Hreach' : reachable self').
  { eapply reach_step; [exact Hreach|]. by eapply step_recover. }
  destruct (od_get (metadata self) file_hash) as [recs|] eqn:Hget.
  2:{ apply Hsome. by apply download_file_unknown. }
  destruct (download_file_None_iff self file_hash recs (reachable_wf _ Hreach) Hget)
    as [_ Hiff].
  assert (Hex : exists rec, rec ∈ recs /\ negb (responsive self rec) = false).
  { apply forallb_false_elem. intros Hall. apply Hsome. by apply Hiff. }
  destruct Hex as (rec & Hrec & Hresp). apply negb_false_iff in Hresp.
  destruct (Hkeeps rec) as [Hrec' Hresp']; [|done|].
  { unfold records. by rewrite Hget. }
  unfold records in Hrec'.
  destruct (od_get (metadata self') file_hash) as [recs'|] eqn:Hget';
    [|by apply elem_of_nil in Hrec'].
  destruct (download_file_None_iff self' file_hash recs' (reachable_wf _ Hreach') Hget')
    as [_ Hiff'].
  apply Hiff' in Hnone. rewrite forallb_forall in Hnone.
  specialize (Hnone rec (proj1 (list_elem_of_In _ _) Hrec')).
  by rewrite Hresp' in Hnone.
Qed.

(* ================================================================= *)
(** * What an upload appends *)

Lemma policy_place_chunk_appends self file_hash i chunk :
  nodes_indexed self ->
  exists ids,
    length ids <= replication_factor self
    /\ (forall r, r ∈ ids -> r < length (nodes self))
    /\ records (policy_place_chunk self file_hash (i, chunk)) file_hash
       = records self file_hash ++ map (fun r => (r, chunk_id_of file_hash i)) ids.
Proof.
  intros Hi. destruct (policy_targets_ids self Hi) as (Hnd & Hlen & Hacc).
  set (ids := map node_id (policy_targets (nodes self) (replication_factor self))) in *.
  destruct (fold_policy_store file_hash (chunk_id_of file_hash i) chunk ids self Hnd Hacc)
    as (Hrec & _).
  exists ids. split; [done|]. split; [|exact Hrec].
  intros r Hr. destruct (Hacc r Hr) as (x & Hx & _). by eapply lookup_lt_Some.
Qed.

(** What the placement of one chunk appends: one record per node that
    stored the chunk, on different nodes of the cluster, and no more than
    [replication_factor] of them when the factor is 1 or more (with a
    factor of 0 the count never meets the factor, and every node that
    accepts gets the chunk). *)
Lemma place_chunk_appends self file_hash ic :
  nodes_indexed self ->
  exists ids,
    NoDup ids
    /\ (forall r, r ∈ ids -> r < length (nodes self))
    /\ (1 <= replication_factor self -> length ids <= replication_factor self)
    /\ records (place_chunk self file_hash ic) file_hash
       = records self file_hash ++ map (fun r => (r, chunk_id_of file_hash (fst ic))) ids.
Proof.
  intros Hi. destruct (place_chunk_effect self file_hash ic Hi) as (needed & H).
  cbn zeta in H. destruct H as (Hrec & _ & _ & _).
  set (selected := policy_select needed (policy_ranking (nodes self))) in *.
  exists (map node_id selected). split; [|split; [|split; [|exact Hrec]]].
  - apply (sublist_NoDup _ (node_id <$> policy_ranking (nodes self))).
    + change (NoDup (node_id <$> policy_ranking (nodes self))).
      rewrite policy_ranking_perm.
      change (NoDup (map node_id (nodes self))).
      rewrite nodes_indexed_ids by done. apply NoDup_seq.
    + apply (fmap_sublist node_id), policy_select_sublist.
  - intros r (x & -> & Hx)%list_elem_of_fmap.
    apply policy_select_elem in Hx as [Hx _]. rewrite policy_ranking_perm in Hx.
    apply (nodes_indexed_elem self x Hi) in Hx. by eapply lookup_lt_Some.
  - intros Hrf. destruct ic as [i chunk].
    destruct (policy_place_chunk_appends self file_hash i chunk Hi) as (ids & Hlen & _ & Hrec').
    rewrite <- place_chunk_policy in Hrec' by done. rewrite Hrec in Hrec'.
    apply app_inv_head in Hrec'. apply (f_equal length) in Hrec'.
    rewrite !length_map in Hrec'. rewrite length_map. simpl in *. lia.
Qed.

Lemma filter_none {A} (P : A -> Prop) `{forall x, Decision (P x)} (l : list A) :
  (forall x, x ∈ l -> ~ P x) -> filter P l = [].
Proof.
  induction l as [|x l IH]; intros Hall; [done|].
  rewrite filter_cons, decide_False by (apply Hall; by left).
  apply IH. intros y Hy. apply Hall. by right.
Qed.

Lemma place_chunks_append file_hash chunks : forall k self,
  nodes_indexed self ->
  exists appended,
    records (fold_left (fun s ic => place_chunk s file_hash ic)
                       (enumerate_from k chunks) self) file_hash
    = records self file_hash ++ appended
    /\ Forall (fun rec : replica =>
                 fst rec < length (nodes self)
                 /\ exists i, k <= i < k + length chunks
                              /\ snd rec = chunk_id_of file_hash i) appended
    /\ (1 <= replication_factor self ->
        forall i, length (filter (fun rec : replica => snd rec = chunk_id_of file_hash i)
                                 appended)
                  <= replication_factor self).
Proof.
  induction chunks as [|c chunks IH]; intros k self Hi.
  { exists []. simpl. rewrite app_nil_r. split; [done|]. split; [done|]. intros _ i. lia. }
  cbn [enumerate_from fold_left].
  destruct (place_chunk_appends self file_hash (k, c) Hi) as (ids & _ & Hids & Hlen & Hrec).
  set (s1 := place_chunk self file_hash (k, c)) in *.
  pose proof (evolves_place_replicas (nodes_by_load self) self file_hash
                (chunk_id_of file_hash k) c 0) as Hev.
  change (evolves self s1) in Hev.
  assert (Hrf1 : replication_factor s1 = replication_factor self) by apply Hev.
  destruct (IH (S k) s1) as (appended & Hrec2 & Hall2 & Hcount2).
  { by eapply evolves_nodes_indexed. }
  exists (map (fun r => (r, chunk_id_of file_hash k)) ids ++ appended).
  split; [by rewrite Hrec2, Hrec, app_assoc|]. split.
  - apply Forall_app. split.
    + apply Forall_forall. intros rec (r & -> & Hr)%list_elem_of_fmap. simpl.
      split; [by apply Hids|]. exists k. split; [lia|done].
    + eapply Forall_impl; [exact Hall2|]. intros rec [Hlt (i & Hi' & Hcid)].
      rewrite (evolves_length _ _ Hev) in Hlt. split; [done|].
      exists i. split; [simpl; lia|done].
  - intros Hrf i. rewrite filter_app, length_app.
    destruct (decide (i = k)) as [->|Hne].
    + rewrite (filter_none _ appended).
      * simpl. rewrite Nat.add_0_r. etrans; [apply length_filter|].
        rewrite length_map. by apply Hlen.
      * intros rec Hin Hcid.
        destruct (proj1 (Forall_forall _ _) Hall2 rec Hin) as [_ (j & Hj & Hcid')].
        rewrite Hcid in Hcid'. apply chunk_id_of_inj in Hcid'. lia.
    + rewrite (filter_none _ (map _ ids)).
      * simpl. rewrite <- Hrf1. apply Hcount2. by rewrite Hrf1.
      * intros rec (r & -> & _)%list_elem_of_fmap Hcid. simpl in Hcid.
        apply chunk_id_of_inj in Hcid. done.
Qed.

(** X22. In a state where every node has its position in [self.nodes] as
    its id, [upload_file] only appends to the records of the file: the old
    records stay, in their order (a second upload of a name does not
    replace the first), whatever the replication factor and the chunk size
    (with a chunk size of 0 the upload raises, and nothing is appended).
    Every record it appends is for a node of the cluster and a chunk index
    below the number of chunks. With a replication factor of 1 or more, at
    most [replication_factor] of the appended records are for any one chunk
    index. *)
Theorem upload_file_appends_at_most (self : DFS) (filename : string) (content : bytes) :
  nodes_indexed self ->
  exists appended,
    records (after_upload self filename content) (file_id filename)
    = records self (file_id filename) ++ appended
    /\ Forall (fun rec : replica =>
                 fst rec < length (nodes self)
                 /\ exists i, i < chunk_count (length content) (chunk_size self)
                              /\ snd rec = chunk_id_of (file_id filename) i) appended
    /\ (1 <= replication_factor self ->
        forall i,
          length (filter (fun rec : replica => snd rec = chunk_id_of (file_id filename) i)
                         appended)
          <= replication_factor self).
Proof.
  intros Hi. unfold after_upload, upload_file.
  destruct (split_content content (chunk_size self)) as [chunks|e] eqn:Hsplit; cbn [rbind].
  - apply split_content_bounds in Hsplit as (_ & _ & _ & Hlen).
    destruct (place_chunks_append (file_id filename) chunks 0 self Hi)
      as (appended & Hrec & Hall & Hcount).
    exists appended. split; [exact Hrec|]. split; [|exact Hcount].
    eapply Forall_impl; [exact Hall|]. intros rec [Hlt (i & Hi' & Hcid)].
    split; [done|]. exists i. split; [lia|done].
  - exists []. rewrite app_nil_r. split; [done|]. split; [done|]. intros _ i. simpl. lia.
Qed.

(* ================================================================= *)
(** * Instances on concrete runs *)

Lemma reachable_one_chunk : reachable one_chunk.
Proof. apply reachable_after_upload, reachable_dfs0. Qed.

Lemma reachable_one_chunk_failed : reachable one_chunk_failed.
Proof. apply reachable_fail_node, reachable_one_chunk. Qed.

Lemma reachable_pair_one_chunk : reachable pair_one_chunk.
Proof. apply reachable_after_upload, reach_init. Qed.

Lemma reachable_pair_failed : reachable pair_failed.
Proof. apply reachable_fail_node, reachable_pair_one_chunk. Qed.

Lemma reachable_pair_all_failed : reachable pair_all_failed.
Proof. apply reachable_fail_node, reachable_pair_failed. Qed.

Lemma pair_failed_run :
  recover_data 3 pair_failed 0
  = (fst (recover_data 3 pair_failed 0), Done pair_recovered).
Proof. apply outcome_done. vm_compute. reflexivity. Qed.

Lemma pair_monitored_run :
  monitor_pass 3 pair_one_chunk node_0_fails
  = (fst (monitor_pass 3 pair_one_chunk node_0_fails), Done pair_monitored).
Proof. apply outcome_done. vm_compute. reflexivity. Qed.

Lemma one_chunk_metadata :
  metadata one_chunk = [(file_a, [(0, chunk_a 0); (1, chunk_a 0)])].
Proof. vm_compute. reflexivity. Qed.

Lemma one_chunk_failed_metadata :
  metadata one_chunk_failed = [(file_a, [(0, chunk_a 0); (1, chunk_a 0)])].
Proof. vm_compute. reflexivity. Qed.

Lemma pair_all_failed_metadata :
  metadata pair_all_failed = [(file_a, [(0, chunk_a 0); (1, chunk_a 0)])].
Proof. vm_compute. reflexivity. Qed.

Lemma one_chunk_nodes_0 : nodes one_chunk !! 0 = Some node_0_with_chunk.
Proof. vm_compute. reflexivity. Qed.

Lemma pair_one_chunk_nodes_0 : nodes pair_one_chunk !! 0 = Some node_0_with_chunk.
Proof. vm_compute. reflexivity. Qed.

Lemma one_chunk_alive_1 : alive one_chunk 1.
Proof. eexists. split; [vm_compute; reflexivity|reflexivity]. Qed.

Lemma one_chunk_failed_alive_1 : alive one_chunk_failed 1.
Proof. eexists. split; [vm_compute; reflexivity|reflexivity]. Qed.

Lemma node_0_with_chunk_storage :
  storage node_0_with_chunk !! chunk_a 0 = Some (content_of_size 1).
Proof. unfold node_0_with_chunk, stored. cbn [storage]. apply lookup_insert_eq. Qed.

Lemma pair_all_failed_full : chunk_size pair_all_failed <> 0 /\ free pair_all_failed = 0.
Proof. split; [vm_compute; discriminate|vm_compute; reflexivity]. Qed.

Lemma file_a_not_b : file_a <> file_id "b".
Proof. apply String.eqb_neq. vm_compute. reflexivity. Qed.

Lemma dfs0_roomy :
  replication_factor dfs0
  <= length (roomy dfs0 (chunk_count (length (content_of_size 2500)) 1024)).
Proof. vm_compute. lia. Qed.

Lemma content_2500_not_empty : content_of_size 2500 <> [].
Proof. vm_compute. discriminate. Qed.

Lemma one_chunk_failed_0 : has_failed one_chunk_failed 0 = true.
Proof. vm_compute. reflexivity. Qed.

Lemma pair_failed_0 : has_failed pair_failed 0 = true.
Proof. vm_compute. reflexivity. Qed.

Lemma one_chunk_failed_roomy : 2 <= length (roomy one_chunk_failed 2).
Proof. vm_compute. lia. Qed.

Lemma one_chunk_fail_0_roomy : 2 <= length (roomy (fail_node one_chunk 0) 2).
Proof. vm_compute. lia. Qed.

Lemma one_chunk_params : 1 <= replication_factor one_chunk /\ chunk_size one_chunk <> 0.
Proof. split; [vm_compute; lia|vm_compute; discriminate]. Qed.

Lemma name_a_not_empty : "a" <> EmptyString.
Proof. discriminate. Qed.

Lemma dfs0_unrecorded r : unrecorded dfs0 r.
Proof. intros fh rec Hrec. by apply elem_of_nil in Hrec. Qed.

Local Opaque file_a chunk_a one_chunk one_chunk_failed pair_one_chunk pair_failed
  pair_recovered pair_all_failed pair_monitored node_0_with_chunk.

(** The records of a state that knows one file only. *)
Lemma records_single_elem self file_hash recs other rec :
  metadata self = [(file_hash, recs)] -> rec ∈ records self other ->
  other = file_hash /\ rec ∈ recs.
Proof.
  intros Hm. unfold records. rewrite Hm. simpl.
  destruct (String.eqb_spec file_hash other) as [->|Hne]; [done|].
  by intros ?%elem_of_nil.
Qed.

Lemma records_single_length self file_hash recs other :
  metadata self = [(file_hash, recs)] -> length (records self other) <= length recs.
Proof.
  intros Hm. unfold records. rewrite Hm. simpl.
  destruct (String.eqb file_hash other); simpl; lia.
Qed.

Lemma one_chunk_records_0 : (0, chunk_a 0) ∈ records one_chunk file_a.
Proof. rewrite (records_single _ _ _ one_chunk_metadata). by left. Qed.

Lemma one_chunk_failed_records_0 : (0, chunk_a 0) ∈ records one_chunk_failed file_a.
Proof. rewrite (records_single _ _ _ one_chunk_failed_metadata). by left. Qed.

(** Node 1 is active and has a record for whatever chunk node 0 has one. *)
Lemma one_chunk_other_replica self other chunk_id :
  metadata self = [(file_a, [(0, chunk_a 0); (1, chunk_a 0)])] ->
  alive self 1 ->
  (0, chunk_id) ∈ records self other ->
  exists c, c <> 0 /\ (c, chunk_id) ∈ records self other /\ alive self c.
Proof.
  intros Hm Hal Hrec.
  destruct (records_single_elem _ _ _ _ _ Hm Hrec) as [-> Hin].
  exists 1. split; [done|]. split; [|done].
  rewrite (records_single _ _ _ Hm).
  apply elem_of_cons in Hin as [Heq|Hin].
  - rewrite (f_equal snd Heq : chunk_id = chunk_a 0). right. left.
  - apply list_elem_of_singleton in Hin. apply (f_equal fst) in Hin. discriminate Hin.
Qed.


Lemma od_get_single self file_hash recs :
  metadata self = [(file_hash, recs)] -> od_get (metadata self) file_hash = Some recs.
Proof. intros ->. simpl. by rewrite String.eqb_refl. Qed.

Lemma one_chunk_failed_live file_hash chunk_id :
  (0, chunk_id) ∈ records one_chunk_failed file_hash ->
  exists c, (c, chunk_id) ∈ records one_chunk_failed file_hash /\ alive one_chunk_failed c.
Proof.
  intros Hrec.
  destruct (one_chunk_other_replica _ _ _ one_chunk_failed_metadata
              one_chunk_failed_alive_1 Hrec) as (c & _ & Hc & Hal).
  by exists c.
Qed.

Lemma pair_all_failed_records file_hash : length (records pair_all_failed file_hash) < 3.
Proof.
  pose proof (records_single_length _ _ _ file_hash pair_all_failed_metadata) as Hle.
  simpl in Hle. lia.
Qed.

(** Witness of X3: the record of node 0 after the upload of "a". *)
Lemma record_responsive_iff_active_witness :
  exists x data,
    nodes one_chunk !! fst (0, chunk_a 0) = Some x /\ node_id x = fst (0, chunk_a 0)
    /\ storage x !! snd (0, chunk_a 0) = Some data
    /\ 1 <= length data <= 1024
    /\ responsive one_chunk (0, chunk_a 0) = active x.
Proof.
  exact (record_responsive_iff_active one_chunk file_a (0, chunk_a 0)
           reachable_one_chunk one_chunk_records_0).
Defined.

(** Witness of X4: the file "a" after node 0 failed. *)
Lemma download_file_none_iff_all_failed_witness :
  (exists res, download_file one_chunk_failed file_a = Ok res)
  /\ (download_file one_chunk_failed file_a = Ok None
      <-> forall rec, rec ∈ [(0, chunk_a 0); (1, chunk_a 0)] ->
            has_failed one_chunk_failed (fst rec) = true).
Proof.
  exact (download_file_none_iff_all_failed one_chunk_failed file_a _
           reachable_one_chunk_failed (od_get_single _ _ _ one_chunk_failed_metadata)).
Defined.

(** Witness of X5: the byte that node 0 stores after the upload of "a". *)
Lemma stored_data_is_a_chunk_witness : 1 <= length (content_of_size 1) <= 1024.
Proof.
  exact (stored_data_is_a_chunk one_chunk 0 node_0_with_chunk (chunk_a 0)
           (content_of_size 1) reachable_one_chunk one_chunk_nodes_0
           node_0_with_chunk_storage).
Defined.

(** Witness of X6: the status after the upload of "a". *)
Lemma get_status_reachable_witness :
  map status_id (status_nodes (get_status one_chunk)) = seq 0 (length (nodes one_chunk))
  /\ Forall (fun n => status_chunks n <= 100) (status_nodes (get_status one_chunk))
  /\ status_files (get_status one_chunk)
     = map (fun item : string * list replica => (fst item, length (snd item)))
           (metadata one_chunk)
  /\ NoDup (map fst (status_files (get_status one_chunk))).
Proof. exact (get_status_reachable one_chunk reachable_one_chunk). Defined.

(** Witness of X7: the step is the failure of node 0. *)
Lemma get_status_monotone_witness :
  map status_id (status_nodes (get_status (fail_node one_chunk 0)))
  = map status_id (status_nodes (get_status one_chunk))
  /\ Forall2 (fun n n' => (status_active n' = true -> status_active n = true)
                          /\ status_chunks n <= status_chunks n')
             (status_nodes (get_status one_chunk))
             (status_nodes (get_status (fail_node one_chunk 0)))
  /\ forall file_hash,
       is_Some (od_get (status_files (get_status one_chunk)) file_hash) ->
       is_Some (od_get (status_files (get_status (fail_node one_chunk 0))) file_hash).
Proof.
  exact (get_status_monotone one_chunk (fail_node one_chunk 0) (step_fail one_chunk 0)).
Defined.

(** Witness of X8: the recovery of node 0 in the pair. *)
Lemma recover_data_postcondition_witness :
  unrecorded pair_recovered 0
  /\ forall file_hash,
       exists appended,
         records pair_recovered file_hash
         = filter (fun rec : replica => fst rec <> 0)
                  (records pair_failed file_hash ++ appended)
         /\ Forall (fun rec : replica => alive pair_failed (fst rec)) appended.
Proof.
  exact (recover_data_postcondition 3 pair_failed 0 _ pair_recovered
           (proj1 (reachable_inv _ reachable_pair_failed)) pair_failed_run).
Defined.

(** Witness of X9: a second recovery of node 0 in the pair. *)
Lemma recover_data_idempotent_witness :
  recover_data 5 pair_recovered 0 = ([], Done pair_recovered).
Proof.
  exact (recover_data_idempotent 3 5 pair_failed 0 _ pair_recovered
           reachable_pair_failed pair_failed_run).
Defined.

(** Witness of X10: node 0 of the pair, in a pass that draws node 0. *)
Lemma monitor_pass_done_witness :
  exists x', nodes pair_monitored !! 0 = Some x'
             /\ active x' = active node_0_with_chunk && negb (node_0_fails 0)
             /\ (node_0_fails 0 = true -> unrecorded pair_monitored 0).
Proof.
  exact (monitor_pass_done 3 pair_one_chunk node_0_fails _ pair_monitored
           (proj1 (reachable_inv _ reachable_pair_one_chunk)) pair_monitored_run
           0 node_0_with_chunk pair_one_chunk_nodes_0).
Defined.

(** Witness of X11: two passes over a new [DFS()], node 0 drawn each time. *)
Lemma monitor_nodes_without_records_witness :
  exists self',
    monitor_nodes 2 0 dfs0 (fun _ => node_0_fails) 0 = ([], OutOfFuel self')
    /\ metadata self' = metadata dfs0
    /\ forall r x, nodes dfs0 !! r = Some x ->
         nodes self' !! r
         = Some (if existsb (fun t => (fun _ : nat => node_0_fails) t r) (seq 0 2)
                 then fail x else x).
Proof.
  exact (monitor_nodes_without_records 2 0 dfs0 (fun _ => node_0_fails)
           (DFS_init_indexed 5 2) (NoDup_nil_2 : keys_distinct dfs0)
           (fun t r _ _ => dfs0_unrecorded r)).
Defined.

(** Witness of X12: an upload to the pair when both nodes have failed. *)
Lemma upload_file_without_room_witness :
  upload_file pair_all_failed "b" (content_of_size 1) = Ok (file_id "b", pair_all_failed).
Proof.
  exact (upload_file_without_room pair_all_failed "b" (content_of_size 1)
           (proj1 pair_all_failed_full) (proj2 pair_all_failed_full)).
Defined.

(** Witness of X13: the file "a" when "b" is uploaded after it. *)
Lemma upload_file_leaves_other_files_witness :
  records (after_upload one_chunk "b" (content_of_size 1)) file_a = records one_chunk file_a
  /\ download_file (after_upload one_chunk "b" (content_of_size 1)) file_a
     = download_file one_chunk file_a.
Proof.
  exact (upload_file_leaves_other_files one_chunk "b" (content_of_size 1) file_a
           reachable_one_chunk file_a_not_b).
Defined.

(** Witness of X14: a file of 2500 bytes, three chunks, in a new [DFS()]. *)
Lemma upload_file_replicates_witness :
  exists chunks,
    split_content (content_of_size 2500) 1024 = Ok chunks
    /\ replicated (after_upload dfs0 "a" (content_of_size 2500)) (file_id "a")
                  (replication_factor dfs0) (enumerate chunks)
                  (records (after_upload dfs0 "a" (content_of_size 2500)) (file_id "a"))
    /\ od_get (status_files (get_status (after_upload dfs0 "a" (content_of_size 2500))))
              (file_id "a")
       = Some (replication_factor dfs0 * chunk_count (length (content_of_size 2500)) 1024).
Proof.
  exact (upload_file_replicates dfs0 "a" (content_of_size 2500) reachable_dfs0
           (le_S 1 1 (le_n 1)) eq_refl content_2500_not_empty dfs0_roomy).
Defined.

(** Witness of X15: the same file after the failure of node 0. *)
Lemma download_file_survives_failures_witness :
  download_file (fail_nodes (after_upload dfs0 "a" (content_of_size 2500)) [0])
                (file_id "a")
  = Ok (Some (content_of_size 2500)).
Proof.
  exact (download_file_survives_failures dfs0 "a" (content_of_size 2500) [0]
           reachable_dfs0 eq_refl content_2500_not_empty dfs0_roomy (le_n 2)).
Defined.

(** Witness of X16: the recovery of node 0 after the upload of "a". *)
Lemma recover_data_diverges_witness :
  exists evs self', recover_data 7 one_chunk_failed 0 = (evs, OutOfFuel self').
Proof.
  exact (recover_data_diverges one_chunk_failed 0 7 reachable_one_chunk_failed
           one_chunk_failed_0
           (ex_intro _ file_a (ex_intro _ (chunk_a 0) one_chunk_failed_records_0))
           one_chunk_failed_live one_chunk_failed_roomy).
Defined.

(** Witness of X17: a pass that draws node 0 after the upload of "a". *)
Lemma monitor_pass_hangs_witness :
  exists evs self', monitor_pass 7 one_chunk node_0_fails = (evs, OutOfFuel self').
Proof.
  apply (monitor_pass_hangs 7 one_chunk node_0_fails 0 reachable_one_chunk eq_refl).
  - intros r' Hr'. lia.
  - exact (ex_intro _ file_a (ex_intro _ (chunk_a 0) one_chunk_records_0)).
  - intros fh cid. apply (one_chunk_other_replica _ _ _ one_chunk_metadata one_chunk_alive_1).
  - exact one_chunk_fail_0_roomy.
Defined.

(** Witness of X18: a new node that stores one byte. *)
Lemma retrieve_chunk_after_store_witness :
  retrieve_chunk (snd (store_chunk (Node_init 0) "c" (content_of_size 1))) "c"
  = Some (content_of_size 1)
  /\ (forall other, other <> "c" ->
        retrieve_chunk (snd (store_chunk (Node_init 0) "c" (content_of_size 1))) other
        = retrieve_chunk (Node_init 0) other)
  /\ (forall other,
        retrieve_chunk (fail (snd (store_chunk (Node_init 0) "c" (content_of_size 1)))) other
        = None)
  /\ (forall other data',
        store_chunk (fail (snd (store_chunk (Node_init 0) "c" (content_of_size 1))))
                    other data'
        = (false, fail (snd (store_chunk (Node_init 0) "c" (content_of_size 1)))))
  /\ storage (fail (snd (store_chunk (Node_init 0) "c" (content_of_size 1)))) !! "c"
     = Some (content_of_size 1).
Proof.
  exact (retrieve_chunk_after_store (Node_init 0) "c" (content_of_size 1) eq_refl).
Defined.

(** Witness of X21: the recovery of node 0 when both nodes of the pair
    have failed. *)
Lemma recover_data_without_room_witness :
  exists evs self',
    recover_data 3 pair_all_failed 0 = (evs, Done self')
    /\ nodes self' = nodes pair_all_failed
    /\ Forall (fun e => exists file_hash, e = EvRemove file_hash 0) evs
    /\ forall file_hash,
         records self' file_hash
         = filter (fun rec : replica => fst rec <> 0) (records pair_all_failed file_hash).
Proof.
  exact (recover_data_without_room 3 pair_all_failed 0 reachable_pair_all_failed
           (proj2 pair_all_failed_full) pair_all_failed_records).
Defined.

(** Witness of X22: a second upload of "a". *)
Lemma upload_file_appends_at_most_witness :
  exists appended,
    records (after_upload one_chunk "a" (content_of_size 1)) (file_id "a")
    = records one_chunk (file_id "a") ++ appended
    /\ Forall (fun rec : replica =>
                 fst rec < length (nodes one_chunk)
                 /\ exists i, i < chunk_count (length (content_of_size 1))
                                             (chunk_size one_chunk)
                              /\ snd rec = chunk_id_of (file_id "a") i) appended
    /\ forall i,
         length (filter (fun rec : replica => snd rec = chunk_id_of (file_id "a") i)
                        appended)
         <= replication_factor one_chunk.
Proof.
  destruct (upload_file_appends_at_most one_chunk "a" (content_of_size 1)
              (proj1 (reachable_inv _ reachable_one_chunk)))
    as (appended & Hrec & Hall & Hcount).
  exists appended. split; [exact Hrec|]. split; [exact Hall|].
  exact (Hcount (proj1 one_chunk_params)).
Defined.

(** Witness of X23: the download of "a" after its upload. *)
Lemma download_route_witness :
  (download_file one_chunk file_a = Ok None
   /\ download one_chunk file_a
      = Ok (mkResponse 404 (Text "File not found or unavailable")))
  \/ exists data,
       data <> [] /\ download_file one_chunk file_a = Ok (Some data)
       /\ download one_chunk file_a
          = Ok (mkResponse 200 (Attachment ("file_" +:+ file_a) data)).
Proof. exact (download_route one_chunk file_a reachable_one_chunk). Defined.

(** Witness of X24: a file of 2500 bytes through the routes of a new
    [DFS()]. *)
Lemma upload_then_download_routes_witness :
  exists dfs',
    upload dfs0 "a" (content_of_size 2500)
    = Ok (mkResponse 200 (Text ("File uploaded successfully. Hash: " +:+ file_id "a")),
          dfs')
    /\ download dfs' (file_id "a")
       = Ok (mkResponse 200 (Attachment ("file_" +:+ file_id "a") (content_of_size 2500))).
Proof.
  exact (upload_then_download_routes dfs0 "a" (content_of_size 2500) reachable_dfs0
           name_a_not_empty content_2500_not_empty eq_refl (le_S 1 1 (le_n 1)) dfs0_roomy).
Defined.

(** Witness of X25: requests to a new [DFS()]. *)
Lemma upload_route_stores_nothing_witness :
  upload dfs0 "" (content_of_size 1) = Ok (mkResponse 400 (Text "No file uploaded"), dfs0)
  /\ ("a" <> "" ->
      upload dfs0 "a" []
      = Ok (mkResponse 200 (Text ("File uploaded successfully. Hash: " +:+ file_id "a")),
            dfs0)
      /\ (od_get (metadata dfs0) (file_id "a") = None ->
          download dfs0 (file_id "a")
          = Ok (mkResponse 404 (Text "File not found or unavailable")))).
Proof. exact (upload_route_stores_nothing dfs0 "a" (content_of_size 1) reachable_dfs0). Defined.

(** Witness of X26: nodes 3 and 4 failed, a file of 149 chunks, node 0
    failed. *)
Lemma uploads_keep_nodes_balanced_witness : balanced three_left_failed.
Proof.
  exact (uploads_keep_nodes_balanced three_left_failed reachable_fresh_three_left_failed).
Defined.

(** Witness of X27: the recovery of node 0 in the pair. *)
Lemma recover_data_keeps_replicas_witness :
  (forall rec, rec ∈ records pair_failed file_a -> responsive pair_failed rec = true ->
     rec ∈ records pair_recovered file_a /\ responsive pair_recovered rec = true)
  /\ (download_file pair_failed file_a <> Ok None ->
      download_file pair_recovered file_a <> Ok None).
Proof.
  exact (recover_data_keeps_replicas 3 pair_failed 0 _ pair_recovered file_a
           reachable_pair_failed pair_failed_0 pair_failed_run).
Defined.

Local Transparent file_a chunk_a one_chunk one_chunk_failed pair_one_chunk pair_failed
  pair_recovered pair_all_failed pair_monitored node_0_with_chunk.
